(** * Pointgram: correspondence tracking and calibration interchange

    A shallow embedding of the correspondence store, the point handling
    of the window, the project file, the solver-input build, the result
    mapper, the reprojection evaluator and the glTF export of Pointgram
    ([main.py], [gltf_exporter.py], [graphics_widgets.py]).

    Conventions of the embedding:
    - Python [int] is [Z]; image indices (positions in [image_paths]) and
      keypoint positions are [nat].
    - Python / NumPy floating point values are idealised as real numbers
      ([R]); the export path, which tests for NaN and infinities, uses the
      extended values of [Module Gltf], with the overflow of the cast to
      [float32].
    - [self.point_data] is a [gmap]: the only place where its iteration
      order is consumed passes through [sorted].
    - dictionaries whose iteration order is consumed ([keypoint_maps], the
      solver's [reconstructions]) are insertion-ordered association lists
      ([Module PyDict]). *)

From Stdlib Require Import Reals Lra Lia ZArith DecimalString DecimalZ DecimalPos.
From stdpp Require Import gmap strings list fin_maps sorting.

(** ** Insertion-ordered dictionaries *)

Module PyDict.
Section Dict.
Context {K V : Type} `{EqDecision K}.

(** [d.get(k)] *)
Fixpoint get (k : K) (d : list (K * V)) : option V :=
  match d with
  | [] => None
  | (k', v) :: d' => if decide (k' = k) then Some v else get k d'
  end.

(** [d[k] = v]: overwrite in place, or append a new key at the end. *)
Fixpoint set (k : K) (v : V) (d : list (K * V)) : list (K * V) :=
  match d with
  | [] => [(k, v)]
  | (k', v') :: d' =>
      if decide (k' = k) then (k, v) :: d' else (k', v') :: set k v d'
  end.

(** [d.keys()], [d.items()] in iteration order. *)
Definition keys (d : list (K * V)) : list K := d.*1.
Definition values (d : list (K * V)) : list V := d.*2.
Definition items (d : list (K * V)) : list (K * V) := d.
End Dict.
End PyDict.

(** ** The correspondence data *)

(** [QPointF]: a point in image-pixel space. *)
Record QPointF := { qx : R; qy : R }.

(** [CrosshairMarker]: a graphics object.  Python compares markers by
    object identity, rendered here as an allocation number;
    [marker.data(Qt.UserRole)] is the set index the marker was made for. *)
Record CrosshairMarker := { marker_uid : nat; marker_set : Z }.

#[global] Instance CrosshairMarker_eq_dec : EqDecision CrosshairMarker.
Proof. solve_decision. Defined.

(** COLMAP keypoint: [(x, y, scale, orientation)]. *)
Definition Keypoint : Type := R * R * R * R.

(** ** The solver's data ([pycolmap]) *)

Inductive CameraModelId := SIMPLE_PINHOLE | OTHER_MODEL (model_id : Z).

#[global] Instance CameraModelId_eq_dec : EqDecision CameraModelId.
Proof. solve_decision. Defined.

Record Camera := {
  model : CameraModelId;
  width : Z;
  height : Z;
  params : list R;
}.

(** ** Solver-input build: [_populate_colmap_database] *)

Module SolverInput.

(** [sorted(self.point_data.keys())] *)
Definition sorted_set_ids (point_data : gmap Z (gmap nat (QPointF * CrosshairMarker)))
  : list Z :=
  merge_sort Z.le (elements (dom point_data)).

(** State of the inner loop over [sorted_set_ids] for one image:
    [keypoints_per_image[img_idx]], [self.keypoint_maps[img_idx]] and
    [current_keypoint_idx]. *)
Record KeypointLoop := {
  keypoints : list Keypoint;
  keypoint_map : list (Z * nat);
  current_keypoint_idx : nat;
}.

Definition keypoint_init : KeypointLoop :=
  {| keypoints := []; keypoint_map := []; current_keypoint_idx := 0 |}.

(** Body of [for set_id in sorted_set_ids]. *)
Definition keypoint_step
    (point_data : gmap Z (gmap nat (QPointF * CrosshairMarker)))
    (img_idx : nat) (st : KeypointLoop) (set_id : Z) : KeypointLoop :=
  match point_data !! set_id with
  | Some observations =>
      match observations !! img_idx with
      | Some (coords, _) =>
          {| keypoints := keypoints st ++ [(qx coords, qy coords, 1%R, 0%R)];
             keypoint_map :=
               PyDict.set set_id (current_keypoint_idx st) (keypoint_map st);
             current_keypoint_idx := S (current_keypoint_idx st) |}
      | None => st
      end
  | None => st (* not reached: [set_id] ranges over the keys *)
  end.

Definition keypoint_loop
    (point_data : gmap Z (gmap nat (QPointF * CrosshairMarker)))
    (img_idx : nat) : KeypointLoop :=
  foldl (keypoint_step point_data img_idx) keypoint_init
        (sorted_set_ids point_data).

(** [self.keypoint_maps], [keypoints_per_image]: one entry per image index in
    [range(len(self.image_paths))]; position = image index. *)
Definition keypoint_maps
    (point_data : gmap Z (gmap nat (QPointF * CrosshairMarker)))
    (num_images : nat) : list (list (Z * nat)) :=
  (λ img_idx, keypoint_map (keypoint_loop point_data img_idx)) <$> seq 0 num_images.

Definition keypoints_per_image
    (point_data : gmap Z (gmap nat (QPointF * CrosshairMarker)))
    (num_images : nat) : list (list Keypoint) :=
  (λ img_idx, keypoints (keypoint_loop point_data img_idx)) <$> seq 0 num_images.

(** [{v: k for k, v in set_map.items()}] (from [run_calibration]): the
    inverse map, keypoint index to set id. *)
Definition invert_keypoint_map (set_map : list (Z * nat)) : list (nat * Z) :=
  foldl (λ acc kv, PyDict.set kv.2 kv.1 acc) [] (PyDict.items set_map).

(** A track has an observation in an image. *)
Definition observed
    (point_data : gmap Z (gmap nat (QPointF * CrosshairMarker)))
    (img_idx : nat) (set_id : Z) : Prop :=
  is_Some (point_data !! set_id ≫= (.!! img_idx)).

#[global] Instance observed_dec pd i t : Decision (observed pd i t).
Proof. unfold observed. apply _. Defined.

(** The tracks observed in an image, ascending. *)
Definition observed_ids
    (point_data : gmap Z (gmap nat (QPointF * CrosshairMarker)))
    (img_idx : nat) : list Z :=
  filter (observed point_data img_idx) (sorted_set_ids point_data).

(** The set of tracks observed in an image. *)
Definition observed_set
    (point_data : gmap Z (gmap nat (QPointF * CrosshairMarker)))
    (img_idx : nat) : gset Z :=
  filter (observed point_data img_idx) (dom point_data).


(** [set(self.keypoint_maps[idx1].keys()) & set(self.keypoint_maps[idx2].keys())]:
    a Python set, iterated in an order the program does not control
    ([elements]). *)
Definition common_sets (map1 map2 : list (Z * nat)) : gset Z :=
  list_to_set (PyDict.keys map1) ∩ list_to_set (PyDict.keys map2).

(** [matches_list]: one [(kp_idx1, kp_idx2)] per common set id.  A
    subscript [d[k]] of a missing key raises [KeyError], rendered as
    [None]. *)
Definition matches_list (map1 map2 : list (Z * nat)) : option (list (nat * nat)) :=
  mapM (λ set_id,
          kp_idx1 ← PyDict.get set_id map1;
          kp_idx2 ← PyDict.get set_id map2;
          Some (kp_idx1, kp_idx2))
       (elements (common_sets map1 map2)).

(** One [db.write_matches(image_id1, image_id2, matches_array)] together
    with its [write_two_view_geometry]; the images are named by their
    application indices [idx1], [idx2] (the database ids are
    [image_ids[idx1]], [image_ids[idx2]]). *)
Record MatchEntry := {
  idx1 : nat;
  idx2 : nat;
  matches : list (nat * nat);
}.

(** Body of the double loop for the pair [(i, j)]: [None] is an exception,
    [Some None] a pair for which nothing is written. *)
Definition pair_matches (kmaps : list (list (Z * nat))) (i j : nat)
  : option (option MatchEntry) :=
  map1 ← kmaps !! i;
  map2 ← kmaps !! j;
  if decide (common_sets map1 map2 = ∅) then Some None
  else
    ml ← matches_list map1 map2;
    match ml with
    | [] => Some None
    | _ => Some (Some {| idx1 := i; idx2 := j; matches := ml |})
    end.

(** [for i in range(n): for j in range(i + 1, n)] *)
Definition image_pairs (n : nat) : list (nat * nat) :=
  i ← seq 0 n; (λ j, (i, j)) <$> seq (S i) (n - S i).

Definition write_all_matches (kmaps : list (list (Z * nat))) (n : nat)
  : option (list MatchEntry) :=
  omap (λ entry, entry) <$> mapM (λ p, pair_matches kmaps p.1 p.2) (image_pairs n).

(** What the transaction writes. *)
Record Database := {
  db_cameras : list (nat * Camera);
  db_keypoints : list (nat * list Keypoint);
  db_matches : list MatchEntry;
}.

(** Camera of image [img_idx]: [None] is the [ValueError] for missing or
    invalid dimensions. *)
Definition make_camera (image_dimensions : gmap nat (Z * Z)) (img_idx : nat)
  : option Camera :=
  let '(w, h) := default (0%Z, 0%Z) (image_dimensions !! img_idx) in
  if decide (w ≤ 0 ∨ h ≤ 0)%Z then None
  else Some {| model := SIMPLE_PINHOLE; width := w; height := h;
               params := [(1.2 * IZR (Z.max w h))%R; (IZR w / 2)%R; (IZR h / 2)%R] |}.

(** [db.write_keypoints] happens only for a non-empty list. *)
Definition written_keypoints (kps : list (list Keypoint)) : list (nat * list Keypoint) :=
  filter (λ p, p.2 ≠ []) (imap (λ i k, (i, k)) kps).

(** The body of the [try] of [_populate_colmap_database] once the
    database is open, with calls on the database that return: the new
    [self.keypoint_maps] (assigned before the transaction) and the database
    contents, [None] when the [ValueError] of the dimension test made the
    function return [False].  The exits before and around this body are in
    [populate_colmap_database_call] below. *)
Definition populate_colmap_database
    (point_data : gmap Z (gmap nat (QPointF * CrosshairMarker)))
    (image_dimensions : gmap nat (Z * Z)) (num_images : nat)
  : list (list (Z * nat)) * option Database :=
  let kmaps := keypoint_maps point_data num_images in
  let kps := keypoints_per_image point_data num_images in
  (kmaps,
   cams ← mapM (λ i, pair i <$> make_camera image_dimensions i) (seq 0 num_images);
   ms ← write_all_matches kmaps num_images;
   Some {| db_cameras := cams;
           db_keypoints := written_keypoints kps;
           db_matches := ms |}).

(** What a call depends on beside the window: whether the library was
    imported, and whether the calls on the file system and on the database
    return or raise. *)
Record DatabaseEnvironment := {
  pycolmap_available : bool;   (* [_pycolmap_available] *)
  makedirs_returns : bool;     (* [os.makedirs(db_dir, exist_ok=True)] *)
  database_exists : bool;      (* [os.path.exists(db_path)] *)
  remove_returns : bool;       (* [os.remove(db_path)], else [OSError] *)
  database_opens : bool;       (* [pycolmap.Database(db_path)] *)
  writes_return : bool;        (* every call on the database in the transaction *)
}.

(** How a call ends: [True] with the database written, [False], or the
    exception of [os.makedirs], which is raised outside the [try]. *)
Inductive PopulateResult :=
| PopulateTrue (db : Database)
| PopulateFalse
| PopulateRaised.

(** [_populate_colmap_database]: [self.keypoint_maps] afterwards
    ([keypoint_maps] is its value before the call) and how the call ends. *)
Definition populate_colmap_database_call (env : DatabaseEnvironment)
    (point_data : gmap Z (gmap nat (QPointF * CrosshairMarker)))
    (image_dimensions : gmap nat (Z * Z)) (num_images : nat)
    (keypoint_maps : list (list (Z * nat)))
  : list (list (Z * nat)) * PopulateResult :=
  if negb (pycolmap_available env) then (keypoint_maps, PopulateFalse)
  else if negb (makedirs_returns env) then (keypoint_maps, PopulateRaised)
  else if database_exists env && negb (remove_returns env)
  then (keypoint_maps, PopulateFalse)
  else if negb (database_opens env) then (keypoint_maps, PopulateFalse)
  else
    match populate_colmap_database point_data image_dimensions num_images with
    | (new_keypoint_maps, Some db) =>
        if writes_return env then (new_keypoint_maps, PopulateTrue db)
        else (new_keypoint_maps, PopulateFalse)      (* [except Exception] *)
    | (new_keypoint_maps, None) => (new_keypoint_maps, PopulateFalse)
    end.

(** The call gets as far as the body of the [try] with the database open. *)
Definition database_opened (env : DatabaseEnvironment) : Prop :=
  pycolmap_available env = true ∧ makedirs_returns env = true
  ∧ (database_exists env = true → remove_returns env = true)
  ∧ database_opens env = true.

(** Sample: a fresh directory, a database that opens and takes every
    write. *)
Definition sample_environment : DatabaseEnvironment :=
  {| pycolmap_available := true; makedirs_returns := true;
     database_exists := false; remove_returns := true;
     database_opens := true; writes_return := true |}.

(** Vocabulary for the statements: [self.keypoint_maps[img_idx][set_id]],
    and the match a common track gives for the pair [(i, j)]. *)
Definition keypoint_index
    (point_data : gmap Z (gmap nat (QPointF * CrosshairMarker)))
    (img_idx : nat) (set_id : Z) : option nat :=
  PyDict.get set_id (keypoint_map (keypoint_loop point_data img_idx)).

Definition match_of
    (point_data : gmap Z (gmap nat (QPointF * CrosshairMarker)))
    (i j : nat) (set_id : Z) : nat * nat :=
  (default 0 (keypoint_index point_data i set_id),
   default 0 (keypoint_index point_data j set_id)).

(** The entry the pair [(i, j)] is expected to contribute, if any. *)
Definition pair_entry
    (point_data : gmap Z (gmap nat (QPointF * CrosshairMarker)))
    (p : nat * nat) : option MatchEntry :=
  match match_of point_data p.1 p.2 <$>
        elements (observed_set point_data p.1 ∩ observed_set point_data p.2) with
  | [] => None
  | ml => Some {| idx1 := p.1; idx2 := p.2; matches := ml |}
  end.

(** Every image has cached, positive dimensions. *)
Definition valid_dimensions (image_dimensions : gmap nat (Z * Z)) (n : nat) : Prop :=
  ∀ i, i < n → ∃ w h, image_dimensions !! i = Some (w, h) ∧ (0 < w)%Z ∧ (0 < h)%Z.

(** Sample store for the two-view scenario: tracks 0, 1, 2, each observed in
    images 0 and 1. *)
Definition sample_observations (set_id : Z) : gmap nat (QPointF * CrosshairMarker) :=
  list_to_map
    [(0, ({| qx := 10; qy := 20 |}, {| marker_uid := 0; marker_set := set_id |}));
     (1, ({| qx := 30; qy := 40 |}, {| marker_uid := 1; marker_set := set_id |}))].

Definition sample_point_data : gmap Z (gmap nat (QPointF * CrosshairMarker)) :=
  list_to_map [(0%Z, sample_observations 0); (1%Z, sample_observations 1);
               (2%Z, sample_observations 2)].

Definition sample_dimensions : gmap nat (Z * Z) :=
  list_to_map [(0, (1920%Z, 1080%Z)); (1, (1920%Z, 1080%Z))].

(** A second sample: track 5 in images 0 and 1, track 3 in image 1 only,
    track 9 in images 0, 1 and 2 (inserted in that order). *)
Definition sample_observation (set_id : Z) (img_idx : nat)
  : nat * (QPointF * CrosshairMarker) :=
  (img_idx, ({| qx := INR img_idx; qy := IZR set_id |},
             {| marker_uid := img_idx; marker_set := set_id |})).

Definition mixed_point_data : gmap Z (gmap nat (QPointF * CrosshairMarker)) :=
  list_to_map
    [(5%Z, list_to_map [sample_observation 5 0; sample_observation 5 1]);
     (3%Z, list_to_map [sample_observation 3 1]);
     (9%Z, list_to_map [sample_observation 9 0; sample_observation 9 1;
                        sample_observation 9 2])].

End SolverInput.

(** ** The correspondence store: point sets and their observations *)

Module Store.

(** The part of [MainWindow] the point handling reads and writes. *)
Record State := {
  point_data : gmap Z (gmap nat (QPointF * CrosshairMarker));
  next_point_set_id : Z;
  active_point_set_index : Z;
  markers_created : nat; (* marker objects allocated so far *)
}.

(** [__init__] / [_reset_state] *)
Definition initial : State :=
  {| point_data := ∅; next_point_set_id := 0;
     active_point_set_index := -1; markers_created := 0 |}.

(** How a call ended: the messages the methods print before returning. *)
Inductive Outcome :=
| Done
| NonExistentSet    (* "Trying to add point to non-existent set" *)
| AlreadyHasPoint   (* "Image ... already has a point in set ..." *)
| MarkerNotFound    (* "Could not find marker in data structure for deletion" *)
| Declined.         (* the user answered No *)

(** The search loop of [delete_point_observation]: the image index whose
    stored marker is [marker] (the first one in the traversal of the
    observations; markers being distinct objects, at most one matches). *)
Definition find_marker (observations : gmap nat (QPointF * CrosshairMarker))
    (marker : CrosshairMarker) : option nat :=
  (λ found, found.2.1) <$>
    list_find (λ entry, entry.2.2 = marker) (map_to_list observations).

(** [reply] is the answer to the confirmation dialog ([true] for Yes). *)
Definition delete_point_observation (marker : CrosshairMarker) (reply : bool)
    (s : State) : State * Outcome :=
  let set_index := marker_set marker in
  match point_data s !! set_index with
  | None => (s, MarkerNotFound)
  | Some observations =>
      match find_marker observations marker with
      | None => (s, MarkerNotFound)
      | Some target_img_idx =>
          if reply then
            (* del self.point_data[set_index][target_img_idx] *)
            let remaining := delete target_img_idx observations in
            let pd1 := <[set_index := remaining]> (point_data s) in
            if decide (size remaining = 0) then
              (* the set is now empty: del self.point_data[set_index] *)
              ({| point_data := delete set_index pd1;
                  next_point_set_id := next_point_set_id s;
                  active_point_set_index :=
                    if decide (active_point_set_index s = set_index) then (-1)%Z
                    else active_point_set_index s;
                  markers_created := markers_created s |}, Done)
            else
              ({| point_data := pd1;
                  next_point_set_id := next_point_set_id s;
                  active_point_set_index := active_point_set_index s;
                  markers_created := markers_created s |}, Done)
          else (s, Declined)
      end
  end.

(** Every stored set was created under an id below the counter. *)
Definition ids_below_counter (s : State) : Prop :=
  ∀ t, is_Some (point_data s !! t) → (t < next_point_set_id s)%Z.

Definition sample_point : QPointF := {| qx := 10; qy := 20 |}.

(** *** The handlers that drive the three methods *)

(** The observation of track [set_index] in image [image_index]:
    [self.point_data[set_index][image_index]], when both keys exist. *)
Definition observation (s : State) (set_index : Z) (image_index : nat)
  : option (QPointF * CrosshairMarker) :=
  point_data s !! set_index ≫= (.!! image_index).

(** [handle_marker_action]: only the delete tool acts on a clicked marker. *)
Definition handle_marker_action (delete_tool : bool) (marker : CrosshairMarker)
    (reply : bool) (s : State) : State * option Outcome :=
  if delete_tool then
    let '(s', o) := delete_point_observation marker reply s in (s', Some o)
  else (s, None).

(** [finalize_marker_move]: the observation that holds the dragged marker
    gets the final position; the marker object stays. *)
Definition finalize_marker_move (marker : CrosshairMarker) (final_pos : QPointF)
    (s : State) : State * Outcome :=
  let set_index := marker_set marker in
  match point_data s !! set_index ≫= (λ observations, find_marker observations marker) with
  | Some target_img_idx =>
      ({| point_data :=
            <[set_index :=
                <[target_img_idx := (final_pos, marker)]>
                  (default ∅ (point_data s !! set_index))]> (point_data s);
          next_point_set_id := next_point_set_id s;
          active_point_set_index := active_point_set_index s;
          markers_created := markers_created s |}, Done)
  | None => (s, MarkerNotFound)
  end.

(** The items of the point set list as [update_point_set_list] rebuilds them
    (signals blocked) after every change: the set ids, ascending. *)
Definition point_set_list (s : State) : list Z :=
  SolverInput.sorted_set_ids (point_data s).

(** [on_point_set_selection_changed]: [current_item] is the set id held by the
    newly selected list item, [None] when the selection is cleared. *)
Definition on_point_set_selection_changed (current_item : option Z) (s : State)
  : State :=
  let new_active_index := default (-1)%Z current_item in
  if decide (new_active_index ≠ active_point_set_index s) then
    {| point_data := point_data s;
       next_point_set_id := next_point_set_id s;
       active_point_set_index := new_active_index;
       markers_created := markers_created s |}
  else s.

(** [get_markers_for_image], in the traversal order of the store. *)
Definition get_markers_for_image (image_index : nat) (s : State)
  : list CrosshairMarker :=
  omap (λ entry : Z * gmap nat (QPointF * CrosshairMarker),
          snd <$> entry.2 !! image_index)
       (map_to_list (point_data s)).

(** The shape the handlers keep the store in. *)
Record well_formed (s : State) : Prop := {
  (* every stored set id is below the counter *)
  wf_ids : ids_below_counter s;
  (* the active set is none (-1) or a stored set *)
  wf_active :
    active_point_set_index s = (-1)%Z
    ∨ is_Some (point_data s !! active_point_set_index s);
  (* no stored set is without observation *)
  wf_nonempty : ∀ t observations,
    point_data s !! t = Some observations → observations ≠ ∅;
  (* a stored marker was made for its set, by an allocation already counted *)
  wf_marker : ∀ t i c m,
    observation s t i = Some (c, m) →
    marker_set m = t ∧ marker_uid m < markers_created s;
  (* no marker object is stored twice *)
  wf_unique : ∀ t i c m t' i' c' m',
    observation s t i = Some (c, m) → observation s t' i' = Some (c', m') →
    marker_uid m = marker_uid m' → t = t' ∧ i = i';
}.

(** The two conditions of [well_formed] on the markers, for the
    observations as a function and a bound on the markers made. *)
Definition markers_ok (f : Z → nat → option (QPointF * CrosshairMarker))
    (n : nat) : Prop :=
  (∀ t i c m, f t i = Some (c, m) → marker_set m = t ∧ marker_uid m < n)
  ∧ (∀ t i c m t' i' c' m',
       f t i = Some (c, m) → f t' i' = Some (c', m') →
       marker_uid m = marker_uid m' → t = t' ∧ i = i').

(** Sample: a store with set 0 observed in images 0 and 1 (markers 0 and
    1) and set 1 observed in image 1 (marker 2); set 1 is the active one. *)
Definition sample_state : State :=
  {| point_data :=
       {[ 0%Z := {[ 0 := (sample_point, {| marker_uid := 0; marker_set := 0 |});
                    1 := ({| qx := 11; qy := 21 |},
                          {| marker_uid := 1; marker_set := 0 |}) ]};
          1%Z := {[ 1 := ({| qx := 12; qy := 22 |},
                          {| marker_uid := 2; marker_set := 1 |}) ]} ]};
     next_point_set_id := 2;
     active_point_set_index := 1;
     markers_created := 3 |}.

End Store.

(** ** Marker objects: [CrosshairMarker.__init__] and [create_marker_item] *)

Module MarkerWidget.
Local Open Scope R_scope.

(** The values that reach the parameter [size] of the constructor. *)
Inductive PyValue := PyFloat (x : R) | PyInt (n : Z) | PyStr (s : string).

(** How a call ends. *)
Inductive PyCall (A : Type) := Return (a : A) | Raise (exception : string).
Arguments Return {A} a.
Arguments Raise {A} exception.

(** [str(n)] of an integer: its decimal notation. *)
Definition py_str (n : Z) : string := NilZero.string_of_int (Z.to_int n).

(** [size / 2.0] *)
Definition half (size : PyValue) : PyCall R :=
  match size with
  | PyFloat x => Return (x / 2)
  | PyInt n => Return (IZR n / 2)
  | PyStr _ => Raise "TypeError"   (* unsupported operand type(s) for /: 'str' and 'float' *)
  end.

Definition MARKER_SIZE : PyValue := PyInt 10.

(** [CrosshairMarker.__init__(self, position, set_index, size)]: after
    [self.size = size], [_update_path] computes [self.size / 2.0] for the
    crosshair, and the circle is given the radius [self.size / 2.0].  [uid]
    stands for the identity of the object under construction. *)
Definition CrosshairMarker_init (uid : nat) (position : QPointF) (set_index : Z)
    (size : PyValue) : PyCall CrosshairMarker :=
  match half size with                         (* _update_path *)
  | Raise e => Raise e
  | Return half_size =>
      match half size with                     (* radius *)
      | Raise e => Raise e
      | Return radius => Return {| marker_uid := uid; marker_set := set_index |}
      end
  end.

(** [MainWindow.create_marker_item]: the third argument of the constructor
    call is [set_name]. *)
Definition create_marker_item (point_set_names : gmap Z string) (uid : nat)
    (position : QPointF) (set_index : Z) : PyCall CrosshairMarker :=
  let set_name := default (py_str set_index) (point_set_names !! set_index) in
  CrosshairMarker_init uid position set_index (PyStr set_name).

End MarkerWidget.

(** ** The point handlers with their marker construction *)

Module PointHandling.
Import MarkerWidget.

(** The store together with [self.point_set_names], which
    [create_marker_item] reads. *)
Record Window := {
  store : Store.State;
  point_set_names : gmap Z string;
}.

Definition with_store (w : Window) (s : Store.State) : Window :=
  {| store := s; point_set_names := point_set_names w |}.

(** [create_new_point_set], statement by statement: the counter is
    incremented before the marker is made. *)
Definition create_new_point_set (image_index : nat) (point_coords : QPointF)
    (w : Window) : Window * PyCall unit :=
  let s := store w in
  let new_set_id := Store.next_point_set_id s in
  let s1 := {| Store.point_data := Store.point_data s;
               Store.next_point_set_id := (new_set_id + 1)%Z;
               Store.active_point_set_index := Store.active_point_set_index s;
               Store.markers_created := Store.markers_created s |} in
  match create_marker_item (point_set_names w) (Store.markers_created s)
                           point_coords new_set_id with
  | Raise e => (with_store w s1, Raise e)
  | Return marker =>
      (with_store w
         {| Store.point_data :=
              <[new_set_id := {[image_index := (point_coords, marker)]}]>
                (Store.point_data s);
            Store.next_point_set_id := (new_set_id + 1)%Z;
            Store.active_point_set_index := new_set_id;
            Store.markers_created := S (Store.markers_created s) |},
       Return ())
  end.

(** [add_point_to_set]: the two checks return normally, with their message;
    then the marker is made. *)
Definition add_point_to_set (set_index : Z) (image_index : nat)
    (point_coords : QPointF) (w : Window) : Window * PyCall Store.Outcome :=
  let s := store w in
  match Store.point_data s !! set_index with
  | None => (w, Return Store.NonExistentSet)
  | Some observations =>
      match observations !! image_index with
      | Some _ => (w, Return Store.AlreadyHasPoint)
      | None =>
          match create_marker_item (point_set_names w) (Store.markers_created s)
                                   point_coords set_index with
          | Raise e => (w, Raise e)
          | Return marker =>
              (with_store w
                 {| Store.point_data :=
                      <[set_index := <[image_index := (point_coords, marker)]> observations]>
                        (Store.point_data s);
                    Store.next_point_set_id := Store.next_point_set_id s;
                    Store.active_point_set_index := Store.active_point_set_index s;
                    Store.markers_created := S (Store.markers_created s) |},
               Return Store.Done)
          end
      end
  end.

(** How [handle_scene_click] ended. *)
Inductive ClickOutcome :=
| ToolNotChecked     (* the add tool is not checked: silent return *)
| LoadImageFirst     (* "Load an image first!" *)
| OutsideImage       (* "Placement outside image bounds." *)
| Placed (o : Store.Outcome)
| ClickRaised (exception : string).

(** [handle_scene_click].  [add_tool] is [add_point_tool_action.isChecked()];
    [current_image] is [None] when [current_image_index < 0] or there is no
    pixmap, the displayed image's index otherwise; [inside] is
    [pixmap_item.boundingRect().contains(scene_pos)]. *)
Definition handle_scene_click (add_tool : bool) (current_image : option nat)
    (inside : bool) (scene_pos : QPointF) (w : Window) : Window * ClickOutcome :=
  if negb add_tool then (w, ToolNotChecked)
  else
    match current_image with
    | None => (w, LoadImageFirst)
    | Some image_index =>
        if negb inside then (w, OutsideImage)
        else
          let create :=
            match create_new_point_set image_index scene_pos w with
            | (w', Return _) => (w', Placed Store.Done)
            | (w', Raise e) => (w', ClickRaised e)
            end in
          if decide (Store.active_point_set_index (store w) = (-1)%Z) then create
          else
            let active_set_points :=
              default ∅ (Store.point_data (store w)
                           !! Store.active_point_set_index (store w)) in
            match active_set_points !! image_index with
            | Some _ => create
            | None =>
                match add_point_to_set (Store.active_point_set_index (store w))
                                       image_index scene_pos w with
                | (w', Return o) => (w', Placed o)
                | (w', Raise e) => (w', ClickRaised e)
                end
            end
    end.

(** What the user does in the window: a click on the scene, a click on a
    marker, the end of a marker drag, a selection in the point set list (the
    row picked among the items shown, or none). *)
Inductive Event :=
| SceneClick (add_tool : bool) (current_image : option nat) (inside : bool)
    (scene_pos : QPointF)
| MarkerClick (delete_tool : bool) (marker : CrosshairMarker) (reply : bool)
| MarkerMoved (marker : CrosshairMarker) (final_pos : QPointF)
| SelectionChanged (row : option nat).

(** An exception that leaves a slot ends the slot; the window goes on with
    the state reached. *)
Definition handle (w : Window) (e : Event) : Window :=
  match e with
  | SceneClick add_tool current_image inside scene_pos =>
      (handle_scene_click add_tool current_image inside scene_pos w).1
  | MarkerClick delete_tool marker reply =>
      with_store w (Store.handle_marker_action delete_tool marker reply (store w)).1
  | MarkerMoved marker final_pos =>
      with_store w (Store.finalize_marker_move marker final_pos (store w)).1
  | SelectionChanged row =>
      with_store w
        (Store.on_point_set_selection_changed
           (row ≫= (Store.point_set_list (store w) !!.)) (store w))
  end.

(** Whether the event makes [handle_scene_click] call
    [create_new_point_set], which takes the value of the counter as the id
    of the set to create ([new_set_id]). *)
Definition calls_create (w : Window) (e : Event) : bool :=
  match e with
  | SceneClick true (Some image_index) true _ =>
      bool_decide
        (Store.active_point_set_index (store w) = (-1)%Z
         ∨ is_Some (Store.observation (store w)
                      (Store.active_point_set_index (store w)) image_index))
  | _ => false
  end.

(** The ids taken for sets to create while the events are handled from
    [w], in order. *)
Fixpoint new_set_ids (w : Window) (events : list Event) : list Z :=
  match events with
  | [] => []
  | e :: rest =>
      (if calls_create w e then [Store.next_point_set_id (store w)] else [])
      ++ new_set_ids (handle w e) rest
  end.

(** A session: the events handled in order from the state of a new project. *)
Definition new_project : Window :=
  {| store := Store.initial; point_set_names := ∅ |}.

Definition session (events : list Event) : Window := foldl handle new_project events.

(** The scene clicks that reach the placement of a point (tool checked, an
    image displayed, the click inside it), and their number in a session. *)
Definition reaches_placement (e : Event) : bool :=
  match e with
  | SceneClick true (Some _) true _ => true
  | _ => false
  end.

Definition placing_clicks (events : list Event) : nat :=
  foldr (λ e n, if reaches_placement e then S n else n) 0 events.

End PointHandling.
(** ** Image dimensions before the database build *)

Module DimensionCheck.

Section Cache.

(** [QPixmap(path)]: the width and height of the pixmap read from [path];
    [None] when the pixmap is null. *)
Variable QPixmap : string → option (Z * Z).

(** [_load_dimensions_for_image]: the cache afterwards and the value
    returned.  The index is a position in [image_paths] or beyond (the
    callers modelled here pass the values of a [range]), so that the test
    [0 <= index] holds. *)
Definition load_dimensions_for_image (image_paths : list string) (index : nat)
    (image_dimensions : gmap nat (Z * Z)) : gmap nat (Z * Z) * option (Z * Z) :=
  match image_dimensions !! index with
  | Some dims => (image_dimensions, Some dims)
  | None =>
      match image_paths !! index with
      | Some path =>
          if String.prefix "synthetic_images/" path then (image_dimensions, None)
          else
            match QPixmap path with
            | Some dims => (<[index := dims]> image_dimensions, Some dims)
            | None => (image_dimensions, None)
            end
      | None => (image_dimensions, None)
      end
  end.

(** The loop of [run_calibration] that verifies the dimensions, over the
    indices still to visit: the cache afterwards, and the index whose
    dimensions could not be loaded, at which the function returns. *)
Fixpoint verify_from (image_paths : list string) (indices : list nat)
    (image_dimensions : gmap nat (Z * Z)) : gmap nat (Z * Z) * option nat :=
  match indices with
  | [] => (image_dimensions, None)
  | idx :: rest =>
      if decide (is_Some (image_dimensions !! idx))
      then verify_from image_paths rest image_dimensions
      else
        match load_dimensions_for_image image_paths idx image_dimensions with
        | (image_dimensions', Some _) => verify_from image_paths rest image_dimensions'
        | (image_dimensions', None) => (image_dimensions', Some idx)
        end
  end.

Definition verify_image_dimensions (image_paths : list string)
    (image_dimensions : gmap nat (Z * Z)) : gmap nat (Z * Z) * option nat :=
  verify_from image_paths (seq 0 (length image_paths)) image_dimensions.

(** Vocabulary for the statements: the dimensions the loop can count on
    for an image, from the cache or else from the file. *)
Definition available (image_paths : list string)
    (image_dimensions : gmap nat (Z * Z)) (index : nat) : option (Z * Z) :=
  match image_dimensions !! index with
  | Some dims => Some dims
  | None =>
      path ← image_paths !! index;
      if String.prefix "synthetic_images/" path then None else QPixmap path
  end.

End Cache.

(** Sample: the first image is cached, the second is read from its file. *)
Definition sample_paths : list string := ["a.jpg"; "b.jpg"]%string.
Definition sample_pixmap (path : string) : option (Z * Z) :=
  if String.eqb path "b.jpg" then Some (640, 480)%Z else None.
Definition sample_cache : gmap nat (Z * Z) := {[ 0 := (1920, 1080)%Z ]}.

End DimensionCheck.


(** ** Vectors and matrices (NumPy arrays of shape (3,) and (3, 3)) *)

Module Geometry.
Local Open Scope R_scope.

Definition Vec3 : Type := R * R * R.
(** A matrix is the triple of its rows. *)
Definition Mat3 : Type := Vec3 * Vec3 * Vec3.

Definition dot (a b : Vec3) : R :=
  let '(a1, a2, a3) := a in let '(b1, b2, b3) := b in
  a1 * b1 + a2 * b2 + a3 * b3.

(** [M.T] *)
Definition transpose (m : Mat3) : Mat3 :=
  let '((a11, a12, a13), (a21, a22, a23), (a31, a32, a33)) := m in
  ((a11, a21, a31), (a12, a22, a32), (a13, a23, a33)).

(** [M @ v] *)
Definition mat_vec (m : Mat3) (v : Vec3) : Vec3 :=
  let '(r1, r2, r3) := m in (dot r1 v, dot r2 v, dot r3 v).

(** [-v], [-M], [u + v] *)
Definition vec_opp (v : Vec3) : Vec3 :=
  let '(v1, v2, v3) := v in (- v1, - v2, - v3).

Definition mat_opp (m : Mat3) : Mat3 :=
  let '(r1, r2, r3) := m in (vec_opp r1, vec_opp r2, vec_opp r3).

Definition vec_add (u v : Vec3) : Vec3 :=
  let '(u1, u2, u3) := u in let '(v1, v2, v3) := v in
  (u1 + v1, u2 + v2, u3 + v3).

(** [pycolmap.Rigid3d]: a rotation and a translation; [pose * point] applies
    the rotation, then adds the translation. *)
Record Rigid3d := { rotation_matrix : Mat3; translation : Vec3 }.

Definition rigid_apply (pose : Rigid3d) (point : Vec3) : Vec3 :=
  vec_add (mat_vec (rotation_matrix pose) point) (translation pose).

(** [A @ B], the identity, and rotations (for the statements): a matrix
    whose transpose is its inverse. *)
Definition mat_mul (a b : Mat3) : Mat3 :=
  let '(r1, r2, r3) := a in
  let '(c1, c2, c3) := transpose b in
  ((dot r1 c1, dot r1 c2, dot r1 c3),
   (dot r2 c1, dot r2 c2, dot r2 c3),
   (dot r3 c1, dot r3 c2, dot r3 c3)).

Definition identity : Mat3 := ((1, 0, 0), (0, 1, 0), (0, 0, 1)).

Definition orthogonal (m : Mat3) : Prop :=
  mat_mul m (transpose m) = identity ∧ mat_mul (transpose m) m = identity.

End Geometry.

(** ** Parsing the solver's output: [run_calibration], step 5 *)

Module Calibration.
Import Geometry.
Local Open Scope R_scope.

(** *** The reconstruction objects *)

Record Point2D := { xy : R * R; point3D_id : Z }.

Record Image := {
  image_id : Z;
  camera_id : Z;
  cam_from_world : Rigid3d;
  points2D : list Point2D;
}.

Record TrackElement := { track_image_id : Z; point2D_idx : nat }.

Record Point3D := { xyz : Vec3; track_elements : list TrackElement }.

(** [rec.images], [rec.points3D] are iterated: dictionaries in iteration
    order; [rec.cameras] is only subscripted. *)
Record Reconstruction := {
  num_reg_images : nat;
  images : list (Z * Image);
  cameras : gmap Z Camera;
  points3D : list (Z * Point3D);
}.

Definition num_points3D (rec : Reconstruction) : nat := length (points3D rec).

(** *** Choice of the model *)

(** [largest_rec_id], [max_reg_images], [largest_rec] *)
Record Largest := {
  largest_rec_id : Z;
  max_reg_images : Z;
  largest_rec : option Reconstruction;
}.

Definition largest_init : Largest :=
  {| largest_rec_id := -1; max_reg_images := -1; largest_rec := None |}.

(** Body of [for rec_id, rec in reconstructions.items()]. *)
Definition largest_step (acc : Largest) (item : Z * Reconstruction) : Largest :=
  let num_reg := Z.of_nat (num_reg_images item.2) in
  if decide (num_reg > max_reg_images acc)%Z then
    {| largest_rec_id := item.1; max_reg_images := num_reg;
       largest_rec := Some item.2 |}
  else acc.

Definition find_largest (reconstructions : list (Z * Reconstruction)) : Largest :=
  foldl largest_step largest_init reconstructions.

(** How the choice ends: the three warnings, or a chosen model. *)
Inductive Selection :=
| NoResultDictionary
| NoReconstructionModels
| InsufficientRegisteredImages (max_reg : Z)
| Selected (rec_id : Z) (rec : Reconstruction).

(** [reconstructions] is [None] when the mapper's value is [None] or not a
    dictionary, else the dictionary's items in iteration order. *)
Definition select_reconstruction
    (reconstructions : option (list (Z * Reconstruction))) : Selection :=
  match reconstructions with
  | None => NoResultDictionary
  | Some [] => NoReconstructionModels
  | Some recs =>
      let l := find_largest recs in
      match largest_rec l with
      | Some rec =>
          if decide (largest_rec_id l = -1 ∨ max_reg_images l < 2)%Z
          then InsufficientRegisteredImages (max_reg_images l)
          else Selected (largest_rec_id l) rec
      | None => InsufficientRegisteredImages (max_reg_images l)
      end
  end.

(** *** Extraction into [self.calibration_results] *)

Record Pose := { pose_R : Mat3; pose_t : Vec3 }.

Record CalibrationResults := {
  intrinsics : gmap nat Mat3;     (* img_idx -> K *)
  poses : gmap nat Pose;          (* img_idx -> camera-to-world R, t *)
  points_3d : list Vec3;
  point_ids : list (option Z);
  registered_indices : list nat;
}.

Definition empty_results : CalibrationResults :=
  {| intrinsics := ∅; poses := ∅; points_3d := []; point_ids := [];
     registered_indices := [] |}.

(** [{img.image_id: img for img in rec.images.values()}] *)
Definition registered_image_ids_map (rec : Reconstruction) : list (Z * Image) :=
  foldl (λ acc img, PyDict.set (image_id img) img acc) [] (PyDict.values (images rec)).

(** An image of the database: [name] and [image_id]. *)
Record DbImage := { db_name : string; db_image_id : Z }.

(** [{img.name: img.image_id for img in all_db_images}] *)
Definition name_to_id_map (all_db_images : list DbImage) : list (string * Z) :=
  foldl (λ acc img, PyDict.set (db_name img) (db_image_id img) acc) [] all_db_images.

(** [original_idx_to_colmap_id] and [colmap_id_to_original_idx], from the
    base names of [self.image_paths] in order and the images read back from
    the database. *)
Definition index_maps (basenames : list string) (all_db_images : list DbImage)
  : list (nat * Z) * list (Z * nat) :=
  foldl (λ acc entry,
           match PyDict.get entry.2 (name_to_id_map all_db_images) with
           | Some colmap_id =>
               (PyDict.set entry.1 colmap_id acc.1, PyDict.set colmap_id entry.1 acc.2)
           | None => acc
           end)
        ([], []) (imap (λ idx basename, (idx, basename)) basenames).

(** The pose block: invert world-to-camera into camera-to-world. *)
Definition store_pose (img_idx : nat) (image : Image) (res : CalibrationResults)
  : CalibrationResults :=
  let R_w2c := rotation_matrix (cam_from_world image) in
  let t_w2c := translation (cam_from_world image) in
  let R_c2w := transpose R_w2c in
  let t_c2w := mat_vec (mat_opp R_c2w) t_w2c in   (* -R_c2w @ t_w2c *)
  {| intrinsics := intrinsics res;
     poses := <[img_idx := {| pose_R := R_c2w; pose_t := t_c2w |}]> (poses res);
     points_3d := points_3d res;
     point_ids := point_ids res;
     registered_indices := registered_indices res ++ [img_idx] |}.

Definition store_intrinsics (img_idx : nat) (f cx cy : R) (res : CalibrationResults)
  : CalibrationResults :=
  {| intrinsics := <[img_idx := ((f, 0, cx), (0, f, cy), (0, 0, 1))]> (intrinsics res);
     poses := poses res;
     points_3d := points_3d res;
     point_ids := point_ids res;
     registered_indices := registered_indices res |}.

(** Body of [for img_idx, colmap_image_id in original_idx_to_colmap_id.items()]
    (intrinsics and poses); [None] is the [KeyError] of
    [rec.cameras[image.camera_id]]. *)
Definition extract_image (rec : Reconstruction) (res : CalibrationResults)
    (item : nat * Z) : option CalibrationResults :=
  let '(img_idx, colmap_image_id) := item in
  match PyDict.get colmap_image_id (registered_image_ids_map rec) with
  | None => Some res
  | Some image =>
      camera ← cameras rec !! camera_id image;
      match model camera with
      | SIMPLE_PINHOLE =>
          match params camera with
          | [f; cx; cy] => Some (store_pose img_idx image (store_intrinsics img_idx f cx cy res))
          | _ => Some res   (* unexpected number of params: [continue] *)
          end
      | OTHER_MODEL _ => Some (store_pose img_idx image res)
      end
  end.

Definition extract_images (rec : Reconstruction) (original_idx_to_colmap_id : list (nat * Z))
  : option CalibrationResults :=
  foldl (λ acc item, res ← acc; extract_image rec res item)
        (Some empty_results) (PyDict.items original_idx_to_colmap_id).

(** *** 3-D points and their set ids *)

(** [keypoint_idx_to_set_id_map]: one inverse map per image index of
    [self.keypoint_maps]. *)
Definition keypoint_idx_to_set_id_map (keypoint_maps : list (list (Z * nat)))
  : list (list (nat * Z)) :=
  SolverInput.invert_keypoint_map <$> keypoint_maps.

(** The scan of [point3d.track.elements]: the first element that resolves
    decides ([break]). *)
Fixpoint find_set_id (inverse_maps : list (list (nat * Z)))
    (colmap_id_to_original_idx : list (Z * nat))
    (elements : list TrackElement) : option Z :=
  match elements with
  | [] => None
  | track_el :: rest =>
      match PyDict.get (track_image_id track_el) colmap_id_to_original_idx with
      | Some original_img_idx =>
          match inverse_maps !! original_img_idx with
          | Some inverse_map =>
              match PyDict.get (point2D_idx track_el) inverse_map with
              | Some set_id => Some set_id
              | None => find_set_id inverse_maps colmap_id_to_original_idx rest
              end
          | None => find_set_id inverse_maps colmap_id_to_original_idx rest
          end
      | None => find_set_id inverse_maps colmap_id_to_original_idx rest
      end
  end.

(** State of the loop over [rec.points3D.items()]: [points_list],
    [point_ids_list] and [colmap_point3D_id_to_set_id]. *)
Record PointLoop := {
  points_list : list Vec3;
  point_ids_list : list (option Z);
  colmap_point3D_id_to_set_id : list (Z * Z);
}.

Definition point_step (inverse_maps : list (list (nat * Z)))
    (colmap_id_to_original_idx : list (Z * nat))
    (st : PointLoop) (item : Z * Point3D) : PointLoop :=
  let '(p3d_id, point3d) := item in
  match find_set_id inverse_maps colmap_id_to_original_idx (track_elements point3d) with
  | Some found_set_id =>
      {| points_list := points_list st ++ [xyz point3d];
         point_ids_list := point_ids_list st ++ [Some found_set_id];
         colmap_point3D_id_to_set_id :=
           PyDict.set p3d_id found_set_id (colmap_point3D_id_to_set_id st) |}
  | None =>
      {| points_list := points_list st ++ [xyz point3d];
         point_ids_list := point_ids_list st ++ [None];
         colmap_point3D_id_to_set_id := colmap_point3D_id_to_set_id st |}
  end.

Definition map_points (rec : Reconstruction) (keypoint_maps : list (list (Z * nat)))
    (colmap_id_to_original_idx : list (Z * nat)) : PointLoop :=
  foldl (point_step (keypoint_idx_to_set_id_map keypoint_maps) colmap_id_to_original_idx)
        {| points_list := []; point_ids_list := []; colmap_point3D_id_to_set_id := [] |}
        (PyDict.items (points3D rec)).

(** *** Reprojection errors *)

Record ReprojectionError := { dx : R; dy : R; magnitude : R }.

(** The projection and error of one observation: [None] when nothing is
    stored (the point is not in front of the camera, the camera is not a
    simple pinhole, or its parameters do not unpack into [f, cx, cy]). *)
Definition reprojection_error (camera : Camera) (pose_w2c : Rigid3d)
    (world_point : Vec3) (observed_xy : R * R) : option ReprojectionError :=
  let '(X, Y, Z) := rigid_apply pose_w2c world_point in
  if Rlt_dec 1e-6 Z then
    match model camera with
    | SIMPLE_PINHOLE =>
        match params camera with
        | [f; cx; cy] =>
            let u := f * (X / Z) + cx in
            let v := f * (Y / Z) + cy in
            let dx := observed_xy.1 - u in
            let dy := observed_xy.2 - v in
            Some {| dx := dx; dy := dy; magnitude := sqrt (dx * dx + dy * dy) |}
        | _ => None
        end
    | OTHER_MODEL _ => None
    end
  else None.

(** Body of [for point2D in image.points2D]. *)
Definition observation_error (rec : Reconstruction) (set_ids : list (Z * Z))
    (camera : Camera) (image : Image) (point2D : Point2D)
  : option (Z * ReprojectionError) :=
  let p3d_id := point3D_id point2D in
  if decide (p3d_id ≠ -1)%Z then
    match PyDict.get p3d_id (points3D rec) with
    | Some point3D =>
        match PyDict.get p3d_id set_ids with
        | Some set_id =>
            (λ e, (set_id, e)) <$>
              reprojection_error camera (cam_from_world image) (xyz point3D) (xy point2D)
        | None => None
        end
    | None => None
    end
  else None.

(** [self.reprojection_errors[set_id][img_idx] = ...] *)
Definition store_error (img_idx : nat) (errors : gmap Z (gmap nat ReprojectionError))
    (entry : Z * ReprojectionError) : gmap Z (gmap nat ReprojectionError) :=
  <[entry.1 := <[img_idx := entry.2]> (default ∅ (errors !! entry.1))]> errors.

Definition image_errors (rec : Reconstruction) (set_ids : list (Z * Z))
    (img_idx : nat) (camera : Camera) (image : Image)
    (errors : gmap Z (gmap nat ReprojectionError))
  : gmap Z (gmap nat ReprojectionError) :=
  foldl (λ errs point2D,
           match observation_error rec set_ids camera image point2D with
           | Some entry => store_error img_idx errs entry
           | None => errs
           end)
        errors (points2D image).

(** Body and loop of [for img_idx, colmap_image_id in
    original_idx_to_colmap_id.items()] (reprojection). *)
Definition reproject_image (rec : Reconstruction) (set_ids : list (Z * Z))
    (errors : gmap Z (gmap nat ReprojectionError)) (item : nat * Z)
  : option (gmap Z (gmap nat ReprojectionError)) :=
  let '(img_idx, colmap_image_id) := item in
  match PyDict.get colmap_image_id (registered_image_ids_map rec) with
  | None => Some errors
  | Some image =>
      camera ← cameras rec !! camera_id image;
      Some (image_errors rec set_ids img_idx camera image errors)
  end.

Definition reprojection_errors (rec : Reconstruction) (set_ids : list (Z * Z))
    (original_idx_to_colmap_id : list (nat * Z))
  : option (gmap Z (gmap nat ReprojectionError)) :=
  foldl (λ acc item, errs ← acc; reproject_image rec set_ids errs item)
        (Some ∅) (PyDict.items original_idx_to_colmap_id).

(** *** The whole step *)

(** What [run_calibration] leaves in [self.calibration_results] and
    [self.reprojection_errors]; both were reset before the solver ran. *)
Record RunResult := {
  selection : Selection;
  calibration_results : option CalibrationResults;
  reprojection_errors_result : gmap Z (gmap nat ReprojectionError);
}.

(** [None]: an exception left [run_calibration]. *)
Definition parse_output
    (reconstructions : option (list (Z * Reconstruction)))
    (basenames : list string) (all_db_images : list DbImage)
    (keypoint_maps : list (list (Z * nat))) : option RunResult :=
  match select_reconstruction reconstructions with
  | Selected rec_id rec =>
      let '(idx_to_id, id_to_idx) := index_maps basenames all_db_images in
      res ← extract_images rec idx_to_id;
      let pts := map_points rec keypoint_maps id_to_idx in
      errs ← reprojection_errors rec (colmap_point3D_id_to_set_id pts) idx_to_id;
      Some {| selection := Selected rec_id rec;
              calibration_results :=
                Some {| intrinsics := intrinsics res;
                        poses := poses res;
                        points_3d := points_list pts;
                        point_ids := point_ids_list pts;
                        registered_indices := registered_indices res |};
              reprojection_errors_result := errs |}
  | failure =>
      Some {| selection := failure; calibration_results := None;
              reprojection_errors_result := ∅ |}
  end.

(** *** Vocabulary for the statements *)

(** The selection policy in the words of the specification: more registered
    images first, then more 3-D points, then the lower model id. *)
Definition spec_precedes (a b : Z * Reconstruction) : Prop :=
  (num_reg_images a.2 > num_reg_images b.2)%nat
  ∨ (num_reg_images a.2 = num_reg_images b.2
     ∧ ((num_points3D a.2 > num_points3D b.2)%nat
        ∨ (num_points3D a.2 = num_points3D b.2 ∧ (a.1 < b.1)%Z))).

(** The camera-to-world pose of an image, entry by entry: the rows of
    [R_c2w] are the columns of [R_w2c], the centre is [-(R_c2w . t)]. *)
Definition inverted_pose (image : Image) : Pose :=
  let '((r11, r12, r13), (r21, r22, r23), (r31, r32, r33)) :=
    rotation_matrix (cam_from_world image) in
  let '(t1, t2, t3) := translation (cam_from_world image) in
  {| pose_R := ((r11, r21, r31), (r12, r22, r32), (r13, r23, r33));
     pose_t := (- (r11 * t1 + r21 * t2 + r31 * t3),
                - (r12 * t1 + r22 * t2 + r32 * t3),
                - (r13 * t1 + r23 * t2 + r33 * t3)) |}.

(** The parameter check of the intrinsics block lets the camera through. *)
Definition params_accepted (camera : Camera) : Prop :=
  model camera = SIMPLE_PINHOLE → length (params camera) = 3%nat.

(** Every registered image names a camera of the reconstruction. *)
Definition cameras_present (rec : Reconstruction) : Prop :=
  ∀ colmap_image_id image,
    PyDict.get colmap_image_id (registered_image_ids_map rec) = Some image →
    is_Some (cameras rec !! camera_id image).

(** Invariant of the extraction loop after the items [done]: the stored
    poses are those of [registered_indices], each is the inverted pose of a
    registered image among [done], and none is missing. *)
Definition poses_invariant (rec : Reconstruction) (done : list (nat * Z))
    (res : CalibrationResults) : Prop :=
  (∀ i, i ∈ registered_indices res ↔ is_Some (poses res !! i))
  ∧ (∀ i p, poses res !! i = Some p →
       ∃ cid image,
         (i, cid) ∈ done
         ∧ PyDict.get cid (registered_image_ids_map rec) = Some image
         ∧ p = inverted_pose image)
  ∧ (∀ i cid image camera,
       (i, cid) ∈ done →
       PyDict.get cid (registered_image_ids_map rec) = Some image →
       cameras rec !! camera_id image = Some camera →
       params_accepted camera →
       is_Some (poses res !! i)).

(** Samples: two models with as many registered images, the second with
    more 3-D points. *)
Definition sample_model (points : list (Z * Point3D)) : Reconstruction :=
  {| num_reg_images := 2; images := []; cameras := ∅; points3D := points |}.

Definition sample_models : list (Z * Reconstruction) :=
  [(0%Z, sample_model []);
   (1%Z, sample_model [(7%Z, {| xyz := (0, 0, 1); track_elements := [] |})])].

(** Sample: a reconstruction with one registered image (id 1, camera 1), and
    the database and paths it comes from. *)
Definition sample_image : Image :=
  {| image_id := 1; camera_id := 1;
     cam_from_world := {| rotation_matrix := ((0, -1, 0), (1, 0, 0), (0, 0, 1));
                          translation := (1, 2, 3) |};
     points2D := [{| xy := (960, 540); point3D_id := 7 |}] |}.

Definition sample_camera : Camera :=
  {| model := SIMPLE_PINHOLE; width := 1920; height := 1080;
     params := [1000; 960; 540] |}.

Definition sample_reconstruction : Reconstruction :=
  {| num_reg_images := 2;
     images := [(1%Z, sample_image)];
     cameras := {[ 1%Z := sample_camera ]};
     points3D := [(7%Z, {| xyz := (0, 0, 5);
                           track_elements := [{| track_image_id := 1; point2D_idx := 0 |}] |})] |}.

Definition sample_basenames : list string := ["a.jpg"%string].
Definition sample_db_images : list DbImage :=
  [{| db_name := "a.jpg"; db_image_id := 1 |}].

(** The errors the loop over the observations of one image computes for
    the set [set_id], in the order of the observations; each is written
    over the one before. *)
Definition image_entries (rec : Reconstruction) (set_ids : list (Z * Z))
    (camera : Camera) (image : Image) (set_id : Z) : list ReprojectionError :=
  omap (λ point2D,
          match observation_error rec set_ids camera image point2D with
          | Some (t, e) => if decide (t = set_id) then Some e else None
          | None => None
          end)
       (points2D image).

(** The entry the run is expected to leave under [(set_id, img_idx)]: the
    last error computed for the set among the observations of the
    registered image the index stands for. *)
Definition expected_entry (rec : Reconstruction) (set_ids : list (Z * Z))
    (items : list (nat * Z)) (set_id : Z) (img_idx : nat)
  : option ReprojectionError :=
  colmap_image_id ← PyDict.get img_idx items;
  image ← PyDict.get colmap_image_id (registered_image_ids_map rec);
  camera ← cameras rec !! camera_id image;
  last (image_entries rec set_ids camera image set_id).

(** Sample: the same image seen by a camera of another model. *)
Definition sample_other_camera : Camera :=
  {| model := OTHER_MODEL 1; width := 1920; height := 1080;
     params := [1000; 1000; 960; 540] |}.

Definition sample_reconstruction_other : Reconstruction :=
  {| num_reg_images := num_reg_images sample_reconstruction;
     images := images sample_reconstruction;
     cameras := {[ 1%Z := sample_other_camera ]};
     points3D := points3D sample_reconstruction |}.

(** Sample: one track marked in three images, all three registered by the
    solver, which links the 3-D point 7 to the keypoint of the first and of
    the third image and leaves the keypoint of the second image without a
    3-D point. *)
Definition unlinked_point_data : gmap Z (gmap nat (QPointF * CrosshairMarker)) :=
  {[ 0%Z := list_to_map
       [(0%nat, ({| qx := 10; qy := 20 |}, {| marker_uid := 0; marker_set := 0 |}));
        (1%nat, ({| qx := 30; qy := 40 |}, {| marker_uid := 1; marker_set := 0 |}));
        (2%nat, ({| qx := 50; qy := 60 |}, {| marker_uid := 2; marker_set := 0 |}))] ]}.

Definition unlinked_pose : Rigid3d :=
  {| rotation_matrix := ((1, 0, 0), (0, 1, 0), (0, 0, 1)); translation := (0, 0, 0) |}.

Definition unlinked_image (id : Z) (x y : R) (p3d_id : Z) : Image :=
  {| image_id := id; camera_id := 1; cam_from_world := unlinked_pose;
     points2D := [{| xy := (x, y); point3D_id := p3d_id |}] |}.

Definition unlinked_reconstruction : Reconstruction :=
  {| num_reg_images := 3;
     images := [(1%Z, unlinked_image 1 10 20 7); (2%Z, unlinked_image 2 30 40 (-1));
                (3%Z, unlinked_image 3 50 60 7)];
     cameras := {[ 1%Z := sample_camera ]};
     points3D := [(7%Z, {| xyz := (0, 0, 5);
                           track_elements := [{| track_image_id := 1; point2D_idx := 0 |};
                                              {| track_image_id := 3; point2D_idx := 0 |}] |})] |}.

Definition unlinked_basenames : list string := ["a.jpg"; "b.jpg"; "c.jpg"]%string.
Definition unlinked_db_images : list DbImage :=
  [{| db_name := "a.jpg"; db_image_id := 1 |}; {| db_name := "b.jpg"; db_image_id := 2 |};
   {| db_name := "c.jpg"; db_image_id := 3 |}].

(** The 3-D point [p3d_id] was mapped to the set [set_id]: its track
    resolves to [set_id] through the inverse keypoint maps. *)
Definition resolved (rec : Reconstruction) (keypoint_maps : list (list (Z * nat)))
    (colmap_id_to_original_idx : list (Z * nat)) (p3d_id set_id : Z) : Prop :=
  ∃ point3D,
    (p3d_id, point3D) ∈ points3D rec
    ∧ find_set_id (keypoint_idx_to_set_id_map keypoint_maps)
                  colmap_id_to_original_idx (track_elements point3D) = Some set_id.

(** A track element resolves to the set [set_id]: its image id leads back
    to an image index of the application, and the keypoint map built for
    that image gives the element's keypoint index to [set_id]. *)
Definition resolves (point_data : gmap Z (gmap nat (QPointF * CrosshairMarker)))
    (num_images : nat) (colmap_id_to_original_idx : list (Z * nat))
    (track_el : TrackElement) (set_id : Z) : Prop :=
  ∃ img_idx,
    PyDict.get (track_image_id track_el) colmap_id_to_original_idx = Some img_idx
    ∧ (img_idx < num_images)%nat
    ∧ SolverInput.keypoint_index point_data img_idx set_id
        = Some (point2D_idx track_el).

(** The camera-to-world transform a stored pose stands for. *)
Definition pose_apply (p : Pose) (point : Vec3) : Vec3 :=
  vec_add (mat_vec (pose_R p) point) (pose_t p).

End Calibration.

(** ** glTF export: [export_scene_to_gltf] *)

Module Gltf.
Local Open Scope R_scope.

(** *** Array entries: real values, infinities and NaN *)

Inductive Float := Finite (r : R) | PosInf | NegInf | NaN.

Definition isnan (x : Float) : bool :=
  match x with NaN => true | _ => false end.

Definition isinf (x : Float) : bool :=
  match x with PosInf | NegInf => true | _ => false end.

Definition fopp (x : Float) : Float :=
  match x with
  | Finite r => Finite (- r)
  | PosInf => NegInf
  | NegInf => PosInf
  | NaN => NaN
  end.

(** An infinity times a finite value. *)
Definition inf_times (inf : Float) (r : R) : Float :=
  if Req_dec_T r 0 then NaN
  else if Rlt_dec 0 r then inf else fopp inf.

Definition fmul (x y : Float) : Float :=
  match x, y with
  | NaN, _ | _, NaN => NaN
  | Finite a, Finite b => Finite (a * b)
  | Finite a, inf => inf_times inf a
  | inf, Finite b => inf_times inf b
  | PosInf, PosInf | NegInf, NegInf => PosInf
  | PosInf, NegInf | NegInf, PosInf => NegInf
  end.

Definition fadd (x y : Float) : Float :=
  match x, y with
  | NaN, _ | _, NaN => NaN
  | Finite a, Finite b => Finite (a + b)
  | PosInf, NegInf | NegInf, PosInf => NaN
  | PosInf, _ | _, PosInf => PosInf
  | NegInf, _ | _, NegInf => NegInf
  end.

(** *** 3-vectors and 3 x 3 matrices of such entries *)

Definition FVec3 : Type := Float * Float * Float.
Definition FMat3 : Type := FVec3 * FVec3 * FVec3.

Definition fdot (a b : FVec3) : Float :=
  let '(a1, a2, a3) := a in let '(b1, b2, b3) := b in
  fadd (fadd (fmul a1 b1) (fmul a2 b2)) (fmul a3 b3).

Definition fmat_vec (m : FMat3) (v : FVec3) : FVec3 :=
  let '(r1, r2, r3) := m in (fdot r1 v, fdot r2 v, fdot r3 v).

Definition fcolumns (m : FMat3) : FMat3 :=
  let '((a11, a12, a13), (a21, a22, a23), (a31, a32, a33)) := m in
  ((a11, a21, a31), (a12, a22, a32), (a13, a23, a33)).

(** [A @ B] *)
Definition fmat_mul (a b : FMat3) : FMat3 :=
  let '(r1, r2, r3) := a in
  let '(c1, c2, c3) := fcolumns b in
  ((fdot r1 c1, fdot r1 c2, fdot r1 c3),
   (fdot r2 c1, fdot r2 c2, fdot r2 c3),
   (fdot r3 c1, fdot r3 c2, fdot r3 c3)).

Definition OPENCV_TO_GLTF_ROT : FMat3 :=
  ((Finite 1, Finite 0, Finite 0),
   (Finite 0, Finite 0, Finite 1),
   (Finite 0, Finite (-1), Finite 0)).

Definition CAMERA_CONVENTION_ROT : FMat3 :=
  ((Finite 1, Finite 0, Finite 0),
   (Finite 0, Finite (-1), Finite 0),
   (Finite 0, Finite 0, Finite (-1))).

(** *** Camera nodes *)

(** [np.isnan(a).any() or np.isinf(a).any()] over the entries of an array. *)
Definition any_nan_or_inf (entries : list Float) : bool :=
  existsb isnan entries || existsb isinf entries.

(** The node of one camera, from the arrays [R_c2w_cv] and [t_c2w_cv] that
    [np.array(..., dtype=np.float32)] returned, given by their rows; [None]
    when the node is skipped.  The result is the 4 x 4 camera-to-world
    transform, flattened column-major.  Rows that do not make a 3 x 3
    array (or a vector of length 3) stand for an array of another shape,
    which fails the shape test.  The conversion of the nested lists of the
    results into these arrays is [np_array_2d]; [convert_camera_pose]
    below composes the two. *)
Definition camera_node_matrix (pose_R : list (list Float)) (pose_t : list Float)
  : option (list Float) :=
  match pose_R, pose_t with
  | [[r11; r12; r13]; [r21; r22; r23]; [r31; r32; r33]], [t1; t2; t3] =>
      if any_nan_or_inf [r11; r12; r13; r21; r22; r23; r31; r32; r33]
         || any_nan_or_inf [t1; t2; t3]
      then None
      else
        let R_c2w_cv : FMat3 := ((r11, r12, r13), (r21, r22, r23), (r31, r32, r33)) in
        let '((g11, g12, g13), (g21, g22, g23), (g31, g32, g33)) :=
          fmat_mul (fmat_mul OPENCV_TO_GLTF_ROT R_c2w_cv) CAMERA_CONVENTION_ROT in
        let '(c1, c2, c3) := fmat_vec OPENCV_TO_GLTF_ROT (t1, t2, t3) in
        let T_cam_to_world_gltf :=
          [g11; g21; g31; Finite 0;
           g12; g22; g32; Finite 0;
           g13; g23; g33; Finite 0;
           c1; c2; c3; Finite 1] in
        if any_nan_or_inf T_cam_to_world_gltf then None
        else Some T_cam_to_world_gltf
  | _, _ => None
  end.

(** *** The conversion of the nested lists of the results *)

(** [np.float32(x)] of a double: at or beyond the midpoint between the
    greatest float32 and 2^128 ([2^128 - 2^103]) the value becomes an
    infinity; the rounding of the other values is idealised away. *)
Definition FLOAT32_OVERFLOW : R := 340282356779733661637539395458142568448.

Definition float32 (x : Float) : Float :=
  match x with
  | Finite r =>
      if Rle_dec FLOAT32_OVERFLOW (Rabs r)
      then if Rlt_dec 0 r then PosInf else NegInf
      else Finite r
  | _ => x
  end.

(** [np.array(rows, dtype=np.float32)] of a list of lists of numbers:
    [None] is the [ValueError] for rows of unequal length. *)
Definition np_array_2d (rows : list (list Float)) : option (list (list Float)) :=
  match rows with
  | [] => Some []
  | row :: rest =>
      if forallb (λ r, Nat.eqb (length r) (length row)) rest
      then Some ((λ r : list Float, float32 <$> r) <$> rows)
      else None
  end.

(** [np.array(entries, dtype=np.float32).flatten()] of a list of numbers. *)
Definition np_array_1d (entries : list Float) : list Float := float32 <$> entries.

(** What the exporter makes of the pose of one camera
    ([pose_dict['R']], [pose_dict['t']] as nested lists): the transform of
    its node; a skipped node; or the exception of [np.array], which is
    raised outside the [try] of the node and ends the export. *)
Inductive PoseConversion :=
| Transformed (matrix : list Float)
| NodeSkipped
| ArrayError.

Definition convert_camera_pose (pose_R : list (list Float)) (pose_t : list Float)
  : PoseConversion :=
  match np_array_2d pose_R with
  | None => ArrayError
  | Some R_c2w_cv =>
      match camera_node_matrix R_c2w_cv (np_array_1d pose_t) with
      | Some matrix => Transformed matrix
      | None => NodeSkipped
      end
  end.

(** A pose of the results dictionary, its arrays as [np.array] returns them
    (see [np_array_2d]), and a camera node of the scene. *)
Record PoseDict := { pose_dict_R : list (list Float); pose_dict_t : list Float }.

Record CameraNode := {
  node_img_idx : Z;
  node_camera : nat;
  node_matrix : list Float;
}.

(** Body and loop of [for img_idx in registered_indices_int] (camera
    nodes). *)
Definition camera_node (poses : gmap Z PoseDict)
    (img_idx_to_gltf_cam_idx : gmap Z nat) (img_idx : Z) : option CameraNode :=
  gltf_camera_index ← img_idx_to_gltf_cam_idx !! img_idx;
  pose_dict ← poses !! img_idx;
  matrix ← camera_node_matrix (pose_dict_R pose_dict) (pose_dict_t pose_dict);
  Some {| node_img_idx := img_idx; node_camera := gltf_camera_index;
          node_matrix := matrix |}.

Definition camera_nodes (poses : gmap Z PoseDict)
    (img_idx_to_gltf_cam_idx : gmap Z nat) (registered_indices : list Z)
  : list CameraNode :=
  omap (camera_node poses img_idx_to_gltf_cam_idx) registered_indices.

(** *** Camera definitions *)

Record Perspective := { aspectRatio : R; yfov : R; znear : R; zfar : R }.

(** [yfov] and [aspectRatio] from the focal lengths and the dimensions. *)
Definition perspective (img_w img_h : Z) (fx fy : R) : Perspective :=
  let yfov0 :=
    if Rlt_dec (Rabs fy) 1e-9 then PI / 2
    else 2 * atan ((IZR img_h / 2) / fy) in
  let fallback := if decide (img_h > 0)%Z then IZR img_w / IZR img_h else 1 in
  let aspect_ratio0 :=
    if Rlt_dec (Rabs fx) 1e-9 then fallback
    else if Rlt_dec (Rabs (IZR img_h * fx)) 1e-9 then fallback
    else (IZR img_w * fy) / (IZR img_h * fx) in
  {| aspectRatio := Rmax 1e-6 aspect_ratio0;               (* max(1e-6, .) *)
     yfov := Rmin (Rmax yfov0 1e-6) (PI - 1e-6);           (* np.clip *)
     znear := 0.01; zfar := 1000 |}.

(** The definition of one camera, after the pose test: [K] is
    [intrinsic_data['K']] as nested lists, [dims] is
    [image_dimensions.get(img_idx)]; [None] when the definition is skipped. *)
Definition camera_definition (K : list (list Float)) (dims : option (Z * Z))
  : option Perspective :=
  match K with
  | [[k11; k12; k13]; [k21; k22; k23]; [k31; k32; k33]] =>
      if any_nan_or_inf [k11; k12; k13; k21; k22; k23; k31; k32; k33] then None
      else
        match dims, k11, k22 with
        | Some (img_w, img_h), Finite fx, Finite fy =>
            if decide (img_w ≤ 0 ∨ img_h ≤ 0)%Z then None
            else Some (perspective img_w img_h fx fy)
        | _, _, _ => None
        end
  | _ => None
  end.

(** *** Vocabulary for the statements *)

Definition is_finite (x : Float) : bool :=
  match x with Finite _ => true | _ => false end.

(** Shape (3, 3) and shape (3,). *)
Definition shape_3x3 (m : list (list Float)) : Prop :=
  length m = 3%nat ∧ Forall (λ row, length row = 3%nat) m.

(** [R . R^T] is the identity within [tol], entry by entry. *)
Definition orthonormal_within (tol : R) (m : Geometry.Mat3) : Prop :=
  let '(r1, r2, r3) := m in
  Rabs (Geometry.dot r1 r1 - 1) <= tol ∧ Rabs (Geometry.dot r2 r2 - 1) <= tol
  ∧ Rabs (Geometry.dot r3 r3 - 1) <= tol
  ∧ Rabs (Geometry.dot r1 r2) <= tol ∧ Rabs (Geometry.dot r1 r3) <= tol
  ∧ Rabs (Geometry.dot r2 r3) <= tol.

(** The clamped field of view and the floored aspect ratio, in the words of
    the specification. *)
Definition spec_yfov (img_h : Z) (fy : R) : R :=
  Rmin (Rmax (2 * atan ((IZR img_h / 2) / fy)) 1e-6) (PI - 1e-6).

Definition spec_aspect_ratio (img_w img_h : Z) (fx fy : R) : R :=
  Rmax 1e-6 ((IZR img_w * fy) / (IZR img_h * fx)).

(** Samples: the intrinsics of scenario B, and a pose whose rotation block
    is twice the identity. *)
Definition sample_K : list (list Float) :=
  [[Finite 1000; Finite 0; Finite 960];
   [Finite 0; Finite 1000; Finite 540];
   [Finite 0; Finite 0; Finite 1]].

Definition doubled_identity : list (list Float) :=
  [[Finite 2; Finite 0; Finite 0];
   [Finite 0; Finite 2; Finite 0];
   [Finite 0; Finite 0; Finite 2]].

(** The real matrix held by a 3 x 3 array without NaN or infinity. *)
Definition as_real_matrix (m : list (list Float)) : option Geometry.Mat3 :=
  match m with
  | [[Finite a11; Finite a12; Finite a13];
     [Finite a21; Finite a22; Finite a23];
     [Finite a31; Finite a32; Finite a33]] =>
      Some ((a11, a12, a13), (a21, a22, a23), (a31, a32, a33))
  | _ => None
  end.

(** The matrix [K] that [run_calibration] stores for a pinhole camera. *)
Definition pinhole_K (fx fy cx cy : R) : list (list Float) :=
  [[Finite fx; Finite 0; Finite cx];
   [Finite 0; Finite fy; Finite cy];
   [Finite 0; Finite 0; Finite 1]].

(** *** The whole export: [export_scene_to_gltf] *)

(** The five entries of [results] the exporter reads, the arrays of the
    poses, of the points and of [K] as [np.array(..., dtype=np.float32)]
    returns them.  An entry of [intrinsics] is the matrix
    [intrinsic_data['K']], [None] for a dictionary that is empty or has no
    key ['K']. *)
Record Results := {
  res_poses : gmap Z PoseDict;
  res_points_3d : list (list Float);
  res_point_ids : list (option Z);
  res_registered_indices : list Z;
  res_intrinsics : gmap Z (option (list (list Float)));
}.

(** [gltf.cameras] and [img_idx_to_gltf_cam_idx] while the definitions are
    made. *)
Record CameraDefs := {
  gltf_cameras : list Perspective;
  img_idx_to_gltf_cam_idx : gmap Z nat;
}.

(** Body of [for img_idx in registered_indices_int] (camera definitions). *)
Definition camera_definition_step (results : Results)
    (image_dimensions : gmap Z (Z * Z)) (st : CameraDefs) (img_idx : Z)
  : CameraDefs :=
  match res_poses results !! img_idx with
  | None => st                                  (* pose missing *)
  | Some _ =>
      match res_intrinsics results !! img_idx with
      | Some (Some K) =>
          match camera_definition K (image_dimensions !! img_idx) with
          | Some camera =>
              {| gltf_cameras := gltf_cameras st ++ [camera];
                 img_idx_to_gltf_cam_idx :=
                   <[img_idx := length (gltf_cameras st)]>
                     (img_idx_to_gltf_cam_idx st) |}
          | None => st
          end
      | _ => st                                 (* missing intrinsic data *)
      end
  end.

Definition camera_definitions (results : Results)
    (image_dimensions : gmap Z (Z * Z)) : CameraDefs :=
  foldl (camera_definition_step results image_dimensions)
        {| gltf_cameras := []; img_idx_to_gltf_cam_idx := ∅ |}
        (res_registered_indices results).

(** [np.array(points3d_list_opencv)] with its shape test, then
    [(OPENCV_TO_GLTF_ROT @ points.T).T]: [None] when the export stops
    (rows of unequal length raise in [np.array]; a width other than 3 is
    the invalid-shape return); an array without entries gives no points. *)
Definition as_vec3 (row : list Float) : option FVec3 :=
  match row with [x; y; z] => Some (x, y, z) | _ => None end.

Definition points3d_gltf (points3d_list_opencv : list (list Float))
  : option (list FVec3) :=
  if forallb (λ row, Nat.eqb (length row) 0) points3d_list_opencv then Some []
  else fmap (fmat_vec OPENCV_TO_GLTF_ROT) <$> mapM as_vec3 points3d_list_opencv.

(** [point_ids_to_use] *)
Definition point_ids_to_use (point_ids : list (option Z)) (num_points : nat)
  : list (option Z) :=
  if decide (length point_ids ≠ num_points)
  then (λ i, Some (Z.of_nat i)) <$> seq 0 num_points
  else point_ids.

(** A point node: the id in its name [Point_<id>] and its translation. *)
Record PointNode := { point_node_id : option Z; point_translation : FVec3 }.

(** Body and loop of [for i, point_gltf in enumerate(points3d_gltf)]. *)
Definition point_node (entry : option Z * FVec3) : option PointNode :=
  let '(point_id, (x, y, z)) := entry in
  if any_nan_or_inf [x; y; z] then None
  else Some {| point_node_id := point_id; point_translation := (x, y, z) |}.

Definition point_nodes (point_ids : list (option Z)) (points : list FVec3)
  : list PointNode :=
  omap point_node (zip (point_ids_to_use point_ids (length points)) points).

(** What is handed to [gltf.save]: the camera definitions and the nodes of
    the scene, camera nodes first. *)
Record Scene := {
  scene_cameras : list Perspective;
  scene_camera_nodes : list CameraNode;
  scene_point_nodes : list PointNode;
}.

Inductive ExportOutcome :=
| PygltflibMissing
| InvalidResults        (* empty, not a dictionary, a key missing *)
| InvalidPoints         (* the shape test, or the exception of [np.array] *)
| NothingExported       (* "No valid cameras or points could be processed." *)
| SaveFailed            (* [gltf.save] raised *)
| Exported (scene : Scene).

(** [results] is [None] for a value the first checks reject; [save] tells
    whether [gltf.save] returns. *)
Definition export_scene_to_gltf (pygltflib_available : bool)
    (results : option Results) (image_dimensions : gmap Z (Z * Z))
    (save : Scene → bool) : ExportOutcome :=
  if negb pygltflib_available then PygltflibMissing
  else
    match results with
    | None => InvalidResults
    | Some results =>
        match points3d_gltf (res_points_3d results) with
        | None => InvalidPoints
        | Some points =>
            let defs := camera_definitions results image_dimensions in
            let cam_nodes :=
              camera_nodes (res_poses results) (img_idx_to_gltf_cam_idx defs)
                           (res_registered_indices results) in
            let pt_nodes := point_nodes (res_point_ids results) points in
            if decide (length cam_nodes = 0%nat ∧ length pt_nodes = 0%nat)
            then NothingExported
            else
              let scene := {| scene_cameras := gltf_cameras defs;
                              scene_camera_nodes := cam_nodes;
                              scene_point_nodes := pt_nodes |} in
              if save scene then Exported scene else SaveFailed
        end
    end.

(** [success] of the returned pair. *)
Definition export_success (outcome : ExportOutcome) : bool :=
  match outcome with Exported _ => true | _ => false end.

(** An entry of [img_idx_to_gltf_cam_idx] points at the definition made for
    its image. *)
Definition definitions_sound (results : Results) (dims : gmap Z (Z * Z))
    (st : CameraDefs) : Prop :=
  ∀ img_idx idx,
    img_idx_to_gltf_cam_idx st !! img_idx = Some idx →
    ∃ pose K camera,
      res_poses results !! img_idx = Some pose
      ∧ res_intrinsics results !! img_idx = Some (Some K)
      ∧ camera_definition K (dims !! img_idx) = Some camera
      ∧ gltf_cameras st !! idx = Some camera.

(** Sample: one registered camera (image 0) with the intrinsics of scenario
    B and the identity pose, and two points, the second one not finite. *)
Definition identity_rows : list (list Float) :=
  [[Finite 1; Finite 0; Finite 0];
   [Finite 0; Finite 1; Finite 0];
   [Finite 0; Finite 0; Finite 1]].

Definition sample_results : Results :=
  {| res_poses := {[ 0%Z := {| pose_dict_R := identity_rows;
                               pose_dict_t := [Finite 1; Finite 2; Finite 3] |} ]};
     res_points_3d := [[Finite 1; Finite 2; Finite 3]; [Finite 0; NaN; Finite 0]];
     res_point_ids := [Some 4%Z; None];
     res_registered_indices := [0%Z];
     res_intrinsics := {[ 0%Z := Some sample_K ]} |}.

Definition sample_image_dimensions : gmap Z (Z * Z) := {[ 0%Z := (1920%Z, 1080%Z) ]}.

End Gltf.

(** ** The export call: [_do_export] and the signature of
    [export_scene_to_gltf] *)

Module ExportCall.
Local Open Scope string_scope.

(** *** Calls with keyword arguments *)

(** A call returns a value or raises. *)
Inductive PyResult (A : Type) :=
| Returned (value : A)
| Raised (exception : string).
Arguments Returned {A} value.
Arguments Raised {A} exception.

(** A parameter list: the names in order, each with whether it has a
    default, and whether a [**kwargs] catch-all closes the list. *)
Record Signature := {
  parameters : list (string * bool);
  var_keyword : bool;
}.

(** Binding of a call that passes keyword arguments only: a keyword that
    names no parameter (without a catch-all), or a parameter without default
    that no keyword names, raises [TypeError] before the body runs. *)
Definition bind_keywords (sig : Signature) (keywords : list string) : PyResult unit :=
  if negb (var_keyword sig)
     && negb (forallb (λ k, bool_decide (k ∈ (parameters sig).*1)) keywords)
  then Raised "TypeError"
  else if negb (forallb (λ p, p.2 || bool_decide (p.1 ∈ keywords)) (parameters sig))
  then Raised "TypeError"
  else Returned ().

(** [def export_scene_to_gltf(filename, results, image_paths,
    image_dimensions, generator_name="Pointgram")] *)
Definition export_scene_to_gltf_signature : Signature :=
  {| parameters := [("filename", false); ("results", false);
                    ("image_paths", false); ("image_dimensions", false);
                    ("generator_name", true)];
     var_keyword := false |}.

(** The keywords of the call in [_do_export]. *)
Definition do_export_keywords : list string :=
  ["filename"; "results"; "image_paths"; "image_dimensions";
   "point_set_names"; "generator_name"].

(** *** [_do_export] *)

(** What the checks of [_do_export] read: [self.calibration_results]
    ([None], or a dictionary seen through its keys, whether its
    ['intrinsics'] is a dictionary, its ['registered_indices'] and the keys
    of its ['poses']), the cached dimensions, and whether the lazy load of
    an image's dimensions succeeds. *)
Record ResultsDict := {
  results_keys : list string;
  intrinsics_is_dict : bool;
  results_registered_indices : list Z;
  results_poses_keys : list Z;
}.

Record Window := {
  PYGLTFLIB_AVAILABLE : bool;
  calibration_results : option ResultsDict;
  image_dimensions : gset Z;
  load_dimensions_for_image : Z → bool;
}.

Definition required_keys : list string :=
  ["intrinsics"; "poses"; "points_3d"; "point_ids"; "registered_indices"].

Inductive Message :=
| PygltflibNotFound
| NoCalibrationResults
| IncompleteResults (missing : list string)
| IntrinsicsNotDictionary
| DimensionsMissing
| FromExporter (message : string).

(** [indices_to_check] *)
Definition indices_to_check (results : ResultsDict) : list Z :=
  match results_registered_indices results with
  | [] => results_poses_keys results
  | indices => indices
  end.

(** [missing_dims] after the loop. *)
Definition missing_dims (w : Window) (results : ResultsDict) : bool :=
  existsb (λ img_idx,
             negb (bool_decide (img_idx ∈ image_dimensions w))
             && negb (load_dimensions_for_image w img_idx))
          (indices_to_check results).

(** The checks before the call: the failure they return, if any. *)
Definition pre_checks (w : Window) : option Message :=
  if negb (PYGLTFLIB_AVAILABLE w) then Some PygltflibNotFound
  else
    match calibration_results w with
    | None => Some NoCalibrationResults
    | Some results =>
        if bool_decide (results_keys results = []) then Some NoCalibrationResults
        else if negb (forallb (λ k, bool_decide (k ∈ results_keys results)) required_keys)
        then Some (IncompleteResults
                     (filter (λ k, k ∉ results_keys results) required_keys))
        else if negb (intrinsics_is_dict results) then Some IntrinsicsNotDictionary
        else if missing_dims w results then Some DimensionsMissing
        else None
    end.

(** [filename.lower()] and the suffix test. *)
Definition lower_ascii (c : Ascii.ascii) : Ascii.ascii :=
  let n := Ascii.nat_of_ascii c in
  if (65 <=? n)%nat && (n <=? 90)%nat then Ascii.ascii_of_nat (n + 32) else c.

Fixpoint lower (s : string) : string :=
  match s with
  | EmptyString => EmptyString
  | String c s' => String (lower_ascii c) (lower s')
  end.

Definition endswith (s suffix : string) : bool :=
  let n := String.length s in
  let m := String.length suffix in
  (m <=? n)%nat && String.eqb (String.substring (n - m) m s) suffix.

Definition with_gltf_suffix (filename : string) : string :=
  if endswith (lower filename) ".gltf" then filename else filename ++ ".gltf".

(** [_do_export]: the result, and the files written.  [exporter] is the body
    of [export_scene_to_gltf]: from the file name, what it returns and the
    files it writes. *)
Definition do_export (w : Window) (filename : string)
    (exporter : string → PyResult (bool * Message) * list string)
  : PyResult (bool * Message) * list string :=
  match pre_checks w with
  | Some failure => (Returned (false, failure), [])
  | None =>
      let filename := with_gltf_suffix filename in
      match bind_keywords export_scene_to_gltf_signature do_export_keywords with
      | Returned _ => exporter filename
      | Raised exc => (Raised exc, [])
      end
  end.

(** Sample: a window whose checks pass. *)
Definition sample_window : Window :=
  {| PYGLTFLIB_AVAILABLE := true;
     calibration_results :=
       Some {| results_keys := required_keys; intrinsics_is_dict := true;
               results_registered_indices := [0%Z; 1%Z];
               results_poses_keys := [0%Z; 1%Z] |};
     image_dimensions := {[ 0%Z; 1%Z ]};
     load_dimensions_for_image := λ _, false |}.

End ExportCall.

(** ** The colour of a reprojection error: [interpolate_color] *)

Module ErrorColor.
Local Open Scope R_scope.

(** [QColor(r, g, b)]: the three channels. *)
Record QColor := { red : Z; green : Z; blue : Z }.

(** [int(x)] of a float: truncation toward zero. *)
Definition py_int (x : R) : Z :=
  if Rle_dec 0 x then Int_part x else (- Int_part (- x))%Z.

(** One channel of the interpolated colour. *)
Definition channel (c1 c2 : Z) (factor : R) : Z :=
  py_int (IZR c1 + (IZR c2 - IZR c1) * factor).

(** The [for i in range(len(stops) - 1)] loop over the pairs of neighbouring
    stops: the colour of the first pair that brackets [magnitude], [None]
    when the loop ends without [return]. *)
Fixpoint segment_color (magnitude : R) (stops : list (R * QColor)) : option QColor :=
  match stops with
  | (mag1, color1) :: (((mag2, color2) :: _) as rest) =>
      if Rle_dec mag1 magnitude then
        if Rlt_dec magnitude mag2 then
          let factor := (magnitude - mag1) / (mag2 - mag1) in
          Some {| red := channel (red color1) (red color2) factor;
                  green := channel (green color1) (green color2) factor;
                  blue := channel (blue color1) (blue color2) factor |}
        else segment_color magnitude rest
      else segment_color magnitude rest
  | _ => None
  end.

(** [interpolate_color]; [None] is the [IndexError] of [stops[0]] on an
    empty list. *)
Definition interpolate_color (magnitude : R) (stops : list (R * QColor))
  : option QColor :=
  match stops, last stops with
  | (mag_first, color_first) :: _, Some (mag_last, color_last) =>
      if Rle_dec magnitude mag_first then Some color_first
      else if Rle_dec mag_last magnitude then Some color_last
      else Some (default color_last (segment_color magnitude stops))
  | _, _ => None
  end.

(** [Qt.GlobalColor] blue, green, yellow, red, magenta. *)
Definition ERROR_COLOR_STOPS : list (R * QColor) :=
  [(0, {| red := 0; green := 0; blue := 255 |});
   (1, {| red := 0; green := 255; blue := 0 |});
   (3, {| red := 255; green := 255; blue := 0 |});
   (6, {| red := 255; green := 0; blue := 0 |});
   (10, {| red := 255; green := 0; blue := 255 |})].

(** Vocabulary for the statements: a colour whose channels are in 0..255,
    and a channel value between two others. *)
Definition valid_color (c : QColor) : Prop :=
  (0 ≤ red c ≤ 255)%Z ∧ (0 ≤ green c ≤ 255)%Z ∧ (0 ≤ blue c ≤ 255)%Z.

Definition between (a b x : Z) : Prop := (Z.min a b ≤ x ≤ Z.max a b)%Z.

Definition color_between (c1 c2 c : QColor) : Prop :=
  between (red c1) (red c2) (red c)
  ∧ between (green c1) (green c2) (green c)
  ∧ between (blue c1) (blue c2) (blue c).

End ErrorColor.

(** ** Project files: [_write_points_to_file] and [_load_data_from_file] *)

Module ProjectFile.
Import MarkerWidget.
Local Open Scope string_scope.

(** The values of [json]: what [json.dump] takes and [json.load] returns.
    An object is a dictionary, in the order of its entries. *)
#[local] Unset Elimination Schemes.
Inductive Json :=
| JNull
| JBool (b : bool)
| JInt (n : Z)
| JFloat (x : Gltf.Float)
| JStr (s : string)
| JList (items : list Json)
| JDict (entries : list (string * Json)).
#[local] Set Elimination Schemes.

(** The fields of the window that a project file holds and a load
    replaces.  Image indices are kept as the integers they are in a file.
    [markers_created] counts the marker objects made so far and gives the
    next one its identity. *)
Record Project := {
  image_paths : list Json;
  point_data : gmap Z (gmap Z (QPointF * CrosshairMarker));
  point_set_names : gmap Z string;
  active_point_set_index : Z;
  next_point_set_id : Z;
  image_dimensions : gmap Z (Z * Z);
  markers_created : nat;
}.

(** The fields of a window as a [Project]. *)
Definition project_of (image_paths : list Json) (image_dimensions : gmap Z (Z * Z))
    (w : PointHandling.Window) : Project :=
  let s := PointHandling.store w in
  {| image_paths := image_paths;
     point_data :=
       (λ observations : gmap nat (QPointF * CrosshairMarker),
          (kmap Z.of_nat observations : gmap Z (QPointF * CrosshairMarker)))
         <$> Store.point_data s;
     point_set_names := PointHandling.point_set_names w;
     active_point_set_index := Store.active_point_set_index s;
     next_point_set_id := Store.next_point_set_id s;
     image_dimensions := image_dimensions;
     markers_created := Store.markers_created s |}.

(** *** Writing *)

(** A dictionary filled by [d[str(key)] = value] over the items of a
    dictionary of the window. *)
Definition dict_of {A} (value : A → Json) (items : list (Z * A))
  : list (string * Json) :=
  foldl (λ d item, PyDict.set (py_str item.1) (value item.2) d) [] items.

(** [[point.x(), point.y()]] *)
Definition point_json (observation : QPointF * CrosshairMarker) : Json :=
  JList [JFloat (Gltf.Finite (qx observation.1));
         JFloat (Gltf.Finite (qy observation.1))].

Definition observations_json (observations : gmap Z (QPointF * CrosshairMarker))
  : Json :=
  JDict (dict_of point_json (map_to_list observations)).

Definition dims_json (dims : Z * Z) : Json := JList [JInt dims.1; JInt dims.2].

(** [data_to_save].  The dictionaries of the window are visited in the
    order of [map_to_list]; the statements do not depend on the order. *)
Definition saved_point_data (p : Project) : list (string * Json) :=
  dict_of observations_json (map_to_list (point_data p)).

Definition saved_point_set_names (p : Project) : list (string * Json) :=
  dict_of JStr (map_to_list (point_set_names p)).

Definition saved_image_dimensions (p : Project) : list (string * Json) :=
  dict_of dims_json (map_to_list (image_dimensions p)).

Definition data_to_save (p : Project) : Json :=
  JDict [("image_paths", JList (image_paths p));
         ("point_data", JDict (saved_point_data p));
         ("point_set_names", JDict (saved_point_set_names p));
         ("image_dimensions", JDict (saved_image_dimensions p))].

Inductive SaveOutcome :=
| NothingToSave
| Saved (data : Json)
| SaveError.

(** [_write_points_to_file]; [dump] tells whether [open] and [json.dump]
    both returned. *)
Definition write_points_to_file (dump : Json → bool) (p : Project) : SaveOutcome :=
  if decide (point_data p = ∅ ∧ image_paths p = []) then NothingToSave
  else if dump (data_to_save p) then Saved (data_to_save p)
  else SaveError.

(** *** Reading *)

(** [except (ValueError, TypeError)] *)
Definition caught (exception : string) : bool :=
  bool_decide (exception = "ValueError" ∨ exception = "TypeError").

(** A [for] loop whose body may let an exception through: the state when
    the loop ends, and the exception that ended it, if any. *)
Fixpoint for_each {S E} (body : S → E → S * option string) (state : S)
    (items : list E) : S * option string :=
  match items with
  | [] => (state, None)
  | item :: rest =>
      match body state item with
      | (state', None) => for_each body state' rest
      | (state', Some e) => (state', Some e)
      end
  end.

(** State of the loop over ["point_data"]. *)
Record PointLoad := {
  loaded_points : gmap Z (gmap Z (QPointF * CrosshairMarker));
  max_set_id : Z;
  created : nat;
}.

Inductive LoadOutcome :=
| InvalidFormat
| Loaded
| LoadRaised (exception : string).

Section Load.

(** [int(s)] of a string; [None] is [ValueError]. *)
Variable int_of_str : string → option Z.
(** [s.strip()] *)
Variable strip : string → string.
(** [QPointF(a, b)] of two values of a file. *)
Variable QPointF_of : Json → Json → PyCall QPointF.
(** The loop that warns about missing paths and loads the thumbnails: the
    exception it ends with, if any. *)
Variable preload_thumbnails : list Json → option string.

(** [int(v)] of a value of a file. *)
Definition py_int (v : Json) : PyCall Z :=
  match v with
  | JNull => Raise "TypeError"
  | JBool b => Return (if b then 1 else 0)%Z
  | JInt n => Return n
  | JFloat (Gltf.Finite x) => Return (ErrorColor.py_int x)
  | JFloat Gltf.NaN => Raise "ValueError"
  | JFloat _ => Raise "OverflowError"
  | JStr s =>
      match int_of_str s with
      | Some n => Return n
      | None => Raise "ValueError"
      end
  | JList _ | JDict _ => Raise "TypeError"
  end.

(** One entry of ["image_dimensions"]. *)
Definition load_dimension (image_dimensions : gmap Z (Z * Z))
    (entry : string * Json) : gmap Z (Z * Z) * option string :=
  match int_of_str entry.1 with
  | None => (image_dimensions, None)           (* ValueError, caught *)
  | Some img_idx =>
      match entry.2 with
      | JList [d0; d1] =>
          match py_int d0 with
          | Raise e => (image_dimensions, if caught e then None else Some e)
          | Return width =>
              match py_int d1 with
              | Raise e => (image_dimensions, if caught e then None else Some e)
              | Return height =>
                  if decide (0 < width ∧ 0 < height)%Z
                  then (<[img_idx := (width, height)]> image_dimensions, None)
                  else (image_dimensions, None)
              end
          end
      | _ => (image_dimensions, None)
      end
  end.

(** One entry of the observations of a set.  [names] is
    [self.point_set_names] while the points are loaded. *)
Definition load_observation (names : gmap Z string) (set_id : Z)
    (st : PointLoad) (entry : string * Json) : PointLoad * option string :=
  match int_of_str entry.1 with
  | None => (st, None)                         (* ValueError, caught *)
  | Some img_idx =>
      match entry.2 with
      | JList [c0; c1] =>
          match QPointF_of c0 c1 with
          | Raise e => (st, if caught e then None else Some e)
          | Return point_coords =>
              match create_marker_item names (created st) point_coords set_id with
              | Raise e => (st, if caught e then None else Some e)
              | Return marker =>
                  ({| loaded_points :=
                        <[set_id := <[img_idx := (point_coords, marker)]>
                                      (default ∅ (loaded_points st !! set_id))]>
                          (loaded_points st);
                      max_set_id := max_set_id st;
                      created := S (created st) |}, None)
              end
          end
      | _ => (st, None)
      end
  end.

(** One entry of ["point_data"]. *)
Definition load_point_set (names : gmap Z string) (st : PointLoad)
    (entry : string * Json) : PointLoad * option string :=
  match int_of_str entry.1 with
  | None => (st, None)                         (* ValueError, caught *)
  | Some set_id =>
      let st := {| loaded_points := <[set_id := ∅]> (loaded_points st);
                   max_set_id := Z.max (max_set_id st) set_id;
                   created := created st |} in
      match entry.2 with
      | JDict observations_dict =>
          match for_each (load_observation names set_id) st observations_dict with
          | (st, Some e) => (st, if caught e then None else Some e)
          | (st, None) => (st, None)
          end
      | _ => (st, None)
      end
  end.

(** One entry of ["point_set_names"]. *)
Definition load_name (names : gmap Z string) (entry : string * Json)
  : gmap Z string :=
  match int_of_str entry.1 with
  | None => names
  | Some set_id =>
      match entry.2 with
      | JStr name =>
          if decide (strip name = "") then names
          else <[set_id := strip name]> names
      | _ => names
      end
  end.

(** The part of [_reset_state] on the fields of [Project]. *)
Definition reset_state (p : Project) : Project :=
  {| image_paths := []; point_data := ∅; point_set_names := ∅;
     active_point_set_index := -1; next_point_set_id := 0;
     image_dimensions := ∅; markers_created := markers_created p |}.

(** [_load_data_from_file], from the value [json.load] returned. *)
Definition load_data (loaded_data : Json) (p : Project) : Project * LoadOutcome :=
  match loaded_data with
  | JDict data =>
      match PyDict.get "image_paths" data, PyDict.get "point_data" data with
      | Some (JList paths), Some (JDict loaded_point_data) =>
          let p := reset_state p in
          match preload_thumbnails paths with
          | Some e =>
              ({| image_paths := paths; point_data := point_data p;
                  point_set_names := point_set_names p;
                  active_point_set_index := active_point_set_index p;
                  next_point_set_id := next_point_set_id p;
                  image_dimensions := image_dimensions p;
                  markers_created := markers_created p |}, LoadRaised e)
          | None =>
              let dims :=
                match PyDict.get "image_dimensions" data with
                | Some (JDict loaded_dims) =>
                    for_each load_dimension (image_dimensions p) loaded_dims
                | _ => (image_dimensions p, None)
                end in
              match dims.2 with
              | Some e =>
                  ({| image_paths := paths; point_data := point_data p;
                      point_set_names := point_set_names p;
                      active_point_set_index := active_point_set_index p;
                      next_point_set_id := next_point_set_id p;
                      image_dimensions := dims.1;
                      markers_created := markers_created p |}, LoadRaised e)
              | None =>
                  let points :=
                    for_each (load_point_set (point_set_names p))
                      {| loaded_points := point_data p; max_set_id := -1;
                         created := markers_created p |}
                      loaded_point_data in
                  match points.2 with
                  | Some e =>
                      ({| image_paths := paths;
                          point_data := loaded_points points.1;
                          point_set_names := point_set_names p;
                          active_point_set_index := active_point_set_index p;
                          next_point_set_id := next_point_set_id p;
                          image_dimensions := dims.1;
                          markers_created := created points.1 |}, LoadRaised e)
                  | None =>
                      let names :=
                        match PyDict.get "point_set_names" data with
                        | Some (JDict loaded_names) =>
                            foldl load_name (point_set_names p) loaded_names
                        | _ => point_set_names p
                        end in
                      ({| image_paths := paths;
                          point_data := loaded_points points.1;
                          point_set_names := names;
                          active_point_set_index := active_point_set_index p;
                          next_point_set_id := max_set_id points.1 + 1;
                          image_dimensions := dims.1;
                          markers_created := created points.1 |}, Loaded)
                  end
              end
          end
      | _, _ => (p, InvalidFormat)
      end
  | _ => (p, InvalidFormat)
  end.

End Load.


(** Sample: [int] on the decimal notations, [strip] on names without
    blanks, [QPointF] on two floats, thumbnails that load. *)
Definition sample_int_of_str (s : string) : option Z :=
  Z.of_int <$> NilZero.int_of_string s.

Definition sample_strip (s : string) : string := s.

Definition sample_QPointF_of (a b : Json) : PyCall QPointF :=
  match a, b with
  | JFloat (Gltf.Finite x), JFloat (Gltf.Finite y) => Return {| qx := x; qy := y |}
  | _, _ => Raise "TypeError"
  end.

Definition sample_preload (paths : list Json) : option string := None.

Definition sample_project : Project :=
  {| image_paths := [JStr "a.jpg"; JStr "b.jpg"];
     point_data :=
       {[ 0%Z := {[ 0%Z := ({| qx := 10; qy := 20 |},
                             {| marker_uid := 0; marker_set := 0 |}) ]};
          3%Z := {[ 1%Z := ({| qx := 12; qy := 22 |},
                             {| marker_uid := 1; marker_set := 3 |}) ]} ]};
     point_set_names := {[ 0%Z := "corner" ]};
     active_point_set_index := 3;
     next_point_set_id := 7;
     image_dimensions := {[ 0%Z := (1920, 1080)%Z; 1%Z := (0, 0)%Z ]};
     markers_created := 2 |}.

End ProjectFile.

(** * Properties *)

(** ** Facts about insertion-ordered dictionaries *)

Module PyDictFacts.
Section Dict.
Context {K V : Type} `{EqDecision K}.
Implicit Types (d : list (K * V)) (k : K) (v : V).

Lemma set_fresh k v d :
  k ∉ PyDict.keys d → PyDict.set k v d = d ++ [(k, v)].
Proof.
  induction d as [|[k' v'] d IH]; simpl; [done|].
  intros Hk. apply not_elem_of_cons in Hk as [Hne Hk].
  destruct (decide (k' = k)); [congruence|]. by rewrite IH.
Qed.

Lemma get_app k d1 d2 :
  PyDict.get k (d1 ++ d2) =
  match PyDict.get k d1 with Some v => Some v | None => PyDict.get k d2 end.
Proof.
  induction d1 as [|[k' v'] d1 IH]; simpl; [done|].
  by destruct (decide (k' = k)).
Qed.

Lemma get_None k d : PyDict.get k d = None ↔ k ∉ PyDict.keys d.
Proof.
  induction d as [|[k' v'] d IH]; simpl.
  - split; [intros _; apply not_elem_of_nil|done].
  - rewrite not_elem_of_cons. destruct (decide (k' = k)).
    + split; [done|]. intros [? _]. congruence.
    + rewrite IH. split; [by auto|]. by intros [_ ?].
Qed.

Lemma get_Some_elem k v d : PyDict.get k d = Some v → (k, v) ∈ d.
Proof.
  induction d as [|[k' v'] d IH]; simpl; [done|].
  destruct (decide (k' = k)) as [->|].
  - intros [= ->]. left.
  - intros. right. auto.
Qed.

Lemma get_elem_NoDup k v d :
  NoDup (PyDict.keys d) → (k, v) ∈ d → PyDict.get k d = Some v.
Proof.
  induction d as [|[k' v'] d IH]; simpl.
  - intros _ Hin. by apply elem_of_nil in Hin.
  - intros Hnd Hin. apply NoDup_cons in Hnd as [Hk' Hnd].
    apply elem_of_cons in Hin as [[= <- <-]|Hin].
    + by rewrite decide_True.
    + destruct (decide (k' = k)) as [->|]; [|by auto].
      exfalso. apply Hk'. unfold PyDict.keys.
      apply list_elem_of_fmap. by exists (k, v).
Qed.

Lemma keys_set k v d :
  PyDict.keys (PyDict.set k v d) =
  if decide (k ∈ PyDict.keys d) then PyDict.keys d else PyDict.keys d ++ [k].
Proof.
  unfold PyDict.keys. induction d as [|[k' v'] d IH].
  { destruct (decide _) as [Hin|]; [by apply elem_of_nil in Hin|done]. }
  cbn [PyDict.set]. destruct (decide (k' = k)) as [->|Hne].
  - rewrite decide_True; [done|]. rewrite fmap_cons. left.
  - rewrite !fmap_cons, IH. cbn [fst]. destruct (decide (k ∈ d.*1)) as [Hin|Hnin].
    + rewrite decide_True; [done|by right].
    + rewrite decide_False; [done|].
      intros [?|?]%elem_of_cons; congruence.
Qed.

Lemma set_keys_NoDup k v d :
  NoDup (PyDict.keys d) → NoDup (PyDict.keys (PyDict.set k v d)).
Proof.
  intros Hnd. rewrite keys_set. destruct (decide _); [done|].
  apply NoDup_app. split_and!; [done| |apply NoDup_singleton].
  intros x Hx ->%list_elem_of_singleton. done.
Qed.

Lemma get_set_eq k v d : PyDict.get k (PyDict.set k v d) = Some v.
Proof.
  induction d as [|[k' v'] d IH]; simpl.
  - by rewrite decide_True.
  - destruct (decide (k' = k)) as [->|Hne]; simpl.
    + by rewrite decide_True.
    + by rewrite decide_False.
Qed.

Lemma get_set_ne k k' v d :
  k' ≠ k → PyDict.get k' (PyDict.set k v d) = PyDict.get k' d.
Proof.
  intros Hne. induction d as [|[k0 v0] d IH]; simpl.
  - by rewrite decide_False.
  - destruct (decide (k0 = k)) as [->|Hne0]; simpl.
    + by rewrite !decide_False.
    + by rewrite IH.
Qed.

Lemma elem_unique k v v' d :
  NoDup (PyDict.keys d) → (k, v) ∈ d → (k, v') ∈ d → v = v'.
Proof.
  intros Hnd H1 H2.
  apply (get_elem_NoDup _ _ _ Hnd) in H1, H2. congruence.
Qed.
End Dict.
End PyDictFacts.

(** ** Solver-input build *)

Module SolverInputFacts.
Import SolverInput.

Section Keypoints.
Implicit Types (pd : gmap Z (gmap nat (QPointF * CrosshairMarker))).
Implicit Types (img : nat) (t : Z).

Lemma sorted_set_ids_perm pd : sorted_set_ids pd ≡ₚ elements (dom pd).
Proof. apply merge_sort_Permutation. Qed.

Lemma sorted_set_ids_NoDup pd : NoDup (sorted_set_ids pd).
Proof. rewrite sorted_set_ids_perm. apply NoDup_elements. Qed.

Lemma elem_of_sorted_set_ids pd t : t ∈ sorted_set_ids pd ↔ is_Some (pd !! t).
Proof. by rewrite sorted_set_ids_perm, elem_of_elements, elem_of_dom. Qed.

Lemma sorted_set_ids_sorted pd : StronglySorted Z.le (sorted_set_ids pd).
Proof. apply (StronglySorted_merge_sort Z.le). Qed.

Lemma StronglySorted_filter {A} (Rel : relation A) (P : A → Prop)
    `{!∀ x, Decision (P x)} (l : list A) :
  StronglySorted Rel l → StronglySorted Rel (filter P l).
Proof.
  induction 1 as [|x l Hl IH Hx]; [constructor|].
  rewrite filter_cons. destruct (decide (P x)); [|done].
  constructor; [done|].
  apply Forall_forall. intros y [_ Hy]%list_elem_of_filter.
  by eapply Forall_forall in Hx.
Qed.

Lemma StronglySorted_le_lt (l : list Z) :
  NoDup l → StronglySorted Z.le l → StronglySorted Z.lt l.
Proof.
  induction 2 as [|x l Hl IH Hx]; [constructor|].
  apply NoDup_cons in H as [Hnin Hnd].
  constructor; [auto|].
  apply Forall_forall. intros y Hy.
  eapply Forall_forall in Hx; [|done].
  assert (x ≠ y) by (intros ->; done). lia.
Qed.

Lemma elem_of_observed_ids pd img t :
  t ∈ observed_ids pd img ↔ observed pd img t.
Proof.
  unfold observed_ids. rewrite list_elem_of_filter, elem_of_sorted_set_ids.
  split; [by intros [? _]|]. intros Ho. split; [done|].
  unfold observed in Ho. destruct (pd !! t); [by eexists|].
  by destruct Ho.
Qed.

Lemma observed_ids_NoDup pd img : NoDup (observed_ids pd img).
Proof. apply NoDup_filter, sorted_set_ids_NoDup. Qed.

Lemma observed_ids_sorted pd img : StronglySorted Z.lt (observed_ids pd img).
Proof.
  apply StronglySorted_le_lt; [apply observed_ids_NoDup|].
  apply StronglySorted_filter, sorted_set_ids_sorted.
Qed.

(** The ascending list of observed tracks is a function of the observation
    relation alone. *)
Lemma observed_ids_ext pd pd' img :
  (∀ t, observed pd' img t ↔ observed pd img t) →
  observed_ids pd' img = observed_ids pd img.
Proof.
  intros Hext.
  apply (StronglySorted_unique_strong Z.lt).
  - intros x y _ _ ? ?. lia.
  - apply observed_ids_sorted.
  - apply observed_ids_sorted.
  - apply NoDup_Permutation; [apply observed_ids_NoDup..|].
    intros t. by rewrite !elem_of_observed_ids.
Qed.

(** One step of the loop, by cases on whether the track is observed. *)
Lemma keypoint_step_observed pd img st t :
  observed pd img t →
  keypoint_map (keypoint_step pd img st t) =
    PyDict.set t (current_keypoint_idx st) (keypoint_map st) ∧
  current_keypoint_idx (keypoint_step pd img st t) = S (current_keypoint_idx st) ∧
  length (keypoints (keypoint_step pd img st t)) = S (length (keypoints st)).
Proof.
  unfold observed, keypoint_step. intros [o Ho].
  destruct (pd !! t) as [obs|]; [|done]. simpl in Ho. rewrite Ho.
  destruct o as [c m]. simpl. rewrite length_app. simpl. split_and!; [done..|lia].
Qed.

Lemma keypoint_step_unobserved pd img st t :
  ¬ observed pd img t → keypoint_step pd img st t = st.
Proof.
  unfold observed, keypoint_step. intros Ho.
  destruct (pd !! t) as [obs|]; [|done]. simpl in Ho.
  destruct (obs !! img) as [[c m]|]; [|done]. destruct Ho. by eexists.
Qed.

(** The loop appends the observed ids with consecutive positions. *)
Lemma keypoint_fold pd img (ids : list Z) st :
  NoDup ids →
  (∀ t, t ∈ ids → t ∉ PyDict.keys (keypoint_map st)) →
  let st' := foldl (keypoint_step pd img) st ids in
  let obs := filter (observed pd img) ids in
  keypoint_map st' =
    keypoint_map st ++ zip obs (seq (current_keypoint_idx st) (length obs)) ∧
  current_keypoint_idx st' = current_keypoint_idx st + length obs ∧
  length (keypoints st') = length (keypoints st) + length obs.
Proof.
  intros Hnd. revert st.
  induction Hnd as [|t ids Hnin Hnd IH]; intros st Hfresh; simpl.
  { rewrite app_nil_r. split_and!; [done|lia..]. }
  rewrite filter_cons. destruct (decide (observed pd img t)) as [Ho|Ho].
  - destruct (keypoint_step_observed pd img st t Ho) as (Hm & Hc & Hk).
    rewrite PyDictFacts.set_fresh in Hm by (apply Hfresh; left).
    destruct (IH (keypoint_step pd img st t)) as (IHm & IHc & IHk).
    { intros t' Ht'. rewrite Hm. unfold PyDict.keys. rewrite fmap_app.
      rewrite elem_of_app. intros [Hin|Hin].
      - apply (Hfresh t'); [by right|done].
      - simpl in Hin. apply list_elem_of_singleton in Hin. congruence. }
    rewrite IHm, IHc, IHk, Hm, Hc, Hk. simpl.
    rewrite <- app_assoc. simpl. split_and!; [done|lia..].
  - rewrite keypoint_step_unobserved by done.
    apply IH. intros t' Ht'. apply Hfresh. by right.
Qed.

Lemma keypoint_loop_spec pd img :
  let obs := observed_ids pd img in
  keypoint_map (keypoint_loop pd img) = zip obs (seq 0 (length obs)) ∧
  length (keypoints (keypoint_loop pd img)) = length obs.
Proof.
  destruct (keypoint_fold pd img (sorted_set_ids pd) keypoint_init)
    as (Hm & _ & Hk).
  - apply sorted_set_ids_NoDup.
  - intros t _. apply not_elem_of_nil.
  - done.
Qed.

Lemma keypoint_maps_lookup pd n img :
  img < n →
  keypoint_maps pd n !! img = Some (keypoint_map (keypoint_loop pd img)).
Proof.
  intros Hlt. unfold keypoint_maps.
  rewrite list_lookup_fmap, lookup_seq_lt by done. done.
Qed.

Lemma keypoints_per_image_lookup pd n img :
  img < n →
  keypoints_per_image pd n !! img = Some (keypoints (keypoint_loop pd img)).
Proof.
  intros Hlt. unfold keypoints_per_image.
  rewrite list_lookup_fmap, lookup_seq_lt by done. done.
Qed.

Lemma length_observed_ids pd img :
  length (observed_ids pd img) = size (observed_set pd img).
Proof.
  unfold size, set_size. simpl. apply Permutation_length.
  apply NoDup_Permutation; [apply observed_ids_NoDup|apply NoDup_elements|].
  intros t. rewrite elem_of_observed_ids, elem_of_elements.
  unfold observed_set. rewrite elem_of_filter, elem_of_dom.
  split; [|by intros [? _]]. intros Ho. split; [done|].
  unfold observed in Ho. destruct (pd !! t); [by eexists|by destruct Ho].
Qed.

(** Inverting a dictionary whose values are pairwise distinct swaps each
    item and keeps the order. *)
Lemma invert_fold (d : list (Z * nat)) (acc : list (nat * Z)) :
  NoDup (PyDict.values d) →
  (∀ k, k ∈ PyDict.values d → k ∉ PyDict.keys acc) →
  foldl (λ acc kv, PyDict.set kv.2 kv.1 acc) acc d = acc ++ (prod_swap <$> d).
Proof.
  revert acc. induction d as [|[t k] d IH]; intros acc Hnd Hfresh; simpl.
  { by rewrite app_nil_r. }
  unfold PyDict.values in *. simpl in *.
  apply NoDup_cons in Hnd as [Hk Hnd].
  rewrite PyDictFacts.set_fresh by (apply Hfresh; left).
  rewrite IH; [by rewrite <- app_assoc|done|].
  intros k' Hk'. unfold PyDict.keys. rewrite fmap_app, elem_of_app.
  intros [Hin|Hin].
  - apply (Hfresh k'); [by right|done].
  - simpl in Hin. apply list_elem_of_singleton in Hin. by subst.
Qed.

Lemma invert_keypoint_map_swap (d : list (Z * nat)) :
  NoDup (PyDict.values d) → invert_keypoint_map d = prod_swap <$> d.
Proof.
  intros Hnd. unfold invert_keypoint_map, PyDict.items.
  rewrite invert_fold; [done..|]. intros k _. apply not_elem_of_nil.
Qed.

Lemma invert_get (d : list (Z * nat)) t k :
  NoDup (PyDict.keys d) → NoDup (PyDict.values d) →
  PyDict.get t d = Some k ↔ PyDict.get k (invert_keypoint_map d) = Some t.
Proof.
  intros Hk Hv. rewrite invert_keypoint_map_swap by done.
  assert (PyDict.keys (prod_swap <$> d) = PyDict.values d) as Hkeys.
  { unfold PyDict.keys, PyDict.values. rewrite <- list_fmap_compose.
    by apply list_fmap_ext; intros ? []. }
  assert (∀ a b, (a, b) ∈ d ↔ (b, a) ∈ prod_swap <$> d) as Hsw.
  { intros a b. rewrite list_elem_of_fmap. split.
    - intros Hin. by exists (a, b).
    - intros ([a' b'] & [= -> ->] & Hin). done. }
  split; intros Hget.
  - apply PyDictFacts.get_elem_NoDup; [by rewrite Hkeys|].
    by apply Hsw, PyDictFacts.get_Some_elem.
  - apply PyDictFacts.get_elem_NoDup; [done|].
    by apply Hsw, PyDictFacts.get_Some_elem.
Qed.

Lemma keypoint_map_keys pd img :
  PyDict.keys (keypoint_map (keypoint_loop pd img)) = observed_ids pd img.
Proof.
  destruct (keypoint_loop_spec pd img) as [-> _].
  unfold PyDict.keys. apply fst_zip. by rewrite length_seq.
Qed.

Lemma keypoint_map_values pd img :
  PyDict.values (keypoint_map (keypoint_loop pd img)) =
  seq 0 (size (observed_set pd img)).
Proof.
  destruct (keypoint_loop_spec pd img) as [-> _].
  unfold PyDict.values. rewrite snd_zip by (by rewrite length_seq).
  by rewrite length_observed_ids.
Qed.

Lemma keypoint_map_get_is_Some pd img t :
  is_Some (PyDict.get t (keypoint_map (keypoint_loop pd img))) ↔ observed pd img t.
Proof.
  rewrite <- elem_of_observed_ids, <- keypoint_map_keys.
  rewrite <- not_eq_None_Some, PyDictFacts.get_None.
  split; [apply dec_stable|]. by intros ? ?.
Qed.

Lemma keypoint_map_inverse pd img t k :
  PyDict.get t (keypoint_map (keypoint_loop pd img)) = Some k ↔
  PyDict.get k (invert_keypoint_map (keypoint_map (keypoint_loop pd img))) = Some t.
Proof.
  apply invert_get.
  - rewrite keypoint_map_keys. apply observed_ids_NoDup.
  - rewrite keypoint_map_values. apply NoDup_seq.
Qed.

Lemma keypoint_map_injective pd img t t' k :
  PyDict.get t (keypoint_map (keypoint_loop pd img)) = Some k →
  PyDict.get t' (keypoint_map (keypoint_loop pd img)) = Some k →
  t = t'.
Proof. rewrite !keypoint_map_inverse. congruence. Qed.

Lemma keypoint_loop_ext pd pd' img :
  (∀ t, observed pd' img t ↔ observed pd img t) →
  keypoint_map (keypoint_loop pd' img) = keypoint_map (keypoint_loop pd img).
Proof.
  intros Hext.
  destruct (keypoint_loop_spec pd img) as [-> _].
  destruct (keypoint_loop_spec pd' img) as [-> _].
  by rewrite (observed_ids_ext pd pd' img Hext).
Qed.

(** C1. In every build and for every image index, the keypoint index map
    lists the tracks observed in that image in ascending track id, numbered
    0, 1, ..., n-1 in that order (n the number of tracks observed in the
    image): the values are a dense duplicate-free enumeration of 0..n-1;
    the inverse map built by [run_calibration] resolves each position back
    to its track; and a build from any store with the same observations in
    that image yields the identical map. *)
Theorem keypoint_index_map_dense_invertible pd n img :
  img < n →
  ∃ km,
    keypoint_maps pd n !! img = Some km
    ∧ StronglySorted Z.lt (PyDict.keys km)
    ∧ (∀ t, t ∈ PyDict.keys km ↔ observed pd img t)
    ∧ PyDict.values km = seq 0 (size (observed_set pd img))
    ∧ NoDup (PyDict.values km)
    ∧ (∀ k, k < size (observed_set pd img) → ∃ t, PyDict.get t km = Some k)
    ∧ (∀ t k, PyDict.get t km = Some k ↔
              PyDict.get k (invert_keypoint_map km) = Some t)
    ∧ (∀ pd', (∀ t, observed pd' img t ↔ observed pd img t) →
              keypoint_maps pd' n !! img = Some km).
Proof.
  intros Hlt. exists (keypoint_map (keypoint_loop pd img)).
  split_and!.
  - by apply keypoint_maps_lookup.
  - rewrite keypoint_map_keys. apply observed_ids_sorted.
  - intros t. rewrite keypoint_map_keys. apply elem_of_observed_ids.
  - apply keypoint_map_values.
  - rewrite keypoint_map_values. apply NoDup_seq.
  - intros k Hk.
    assert (k ∈ PyDict.values (keypoint_map (keypoint_loop pd img))) as Hin.
    { rewrite keypoint_map_values. apply elem_of_seq. lia. }
    unfold PyDict.values in Hin.
    apply list_elem_of_fmap in Hin as ([t k'] & -> & Hin).
    exists t. apply PyDictFacts.get_elem_NoDup; [|done].
    rewrite keypoint_map_keys. apply observed_ids_NoDup.
  - apply keypoint_map_inverse.
  - intros pd' Hext. rewrite keypoint_maps_lookup by done.
    by rewrite (keypoint_loop_ext pd pd' img Hext).
Qed.
End Keypoints.

Section Matches.
Implicit Types (pd : gmap Z (gmap nat (QPointF * CrosshairMarker))).
Implicit Types (i j n : nat) (t : Z).

Lemma mapM_total {A B} (f : A → option B) (g : A → B) (l : list A) :
  (∀ x, x ∈ l → f x = Some (g x)) → mapM f l = Some (g <$> l).
Proof.
  intros Hf. apply mapM_Some_2, Forall2_fmap_r.
  induction l as [|x l IH]; constructor.
  - simpl. apply Hf. left.
  - apply IH. intros y Hy. apply Hf. by right.
Qed.

Lemma elem_of_image_pairs n i j : (i, j) ∈ image_pairs n ↔ i < j ∧ j < n.
Proof.
  unfold image_pairs. rewrite list_elem_of_bind. split.
  - intros (i' & Hin & Hi'). apply list_elem_of_fmap in Hin as (j' & [= -> ->] & Hj').
    apply elem_of_seq in Hi', Hj'. lia.
  - intros [Hij Hjn]. exists i. split.
    + apply list_elem_of_fmap. exists j. split; [done|]. apply elem_of_seq. lia.
    + apply elem_of_seq. lia.
Qed.

Lemma image_pairs_NoDup n : NoDup (image_pairs n).
Proof.
  unfold image_pairs. apply NoDup_bind.
  - intros i1 i2 [a b] _ _ Hin1 Hin2.
    apply list_elem_of_fmap in Hin1 as (? & [= -> ->] & _).
    apply list_elem_of_fmap in Hin2 as (? & [= -> ->] & _). done.
  - intros i _. apply NoDup_fmap_2_strong; [|apply NoDup_seq].
    intros ? ? _ _ [= ->]. done.
  - apply NoDup_seq.
Qed.

Lemma common_sets_observed pd i j :
  common_sets (keypoint_map (keypoint_loop pd i)) (keypoint_map (keypoint_loop pd j))
  = observed_set pd i ∩ observed_set pd j.
Proof.
  unfold common_sets. rewrite !keypoint_map_keys.
  assert (∀ img, list_to_set (observed_ids pd img) =@{gset Z} observed_set pd img) as Hs.
  { intros img. apply set_eq. intros t.
    rewrite elem_of_list_to_set, elem_of_observed_ids.
    unfold observed_set. rewrite elem_of_filter, elem_of_dom.
    split; [|by intros [? _]]. intros Ho. split; [done|].
    unfold observed in Ho. destruct (pd !! t); [by eexists|by destruct Ho]. }
  by rewrite !Hs.
Qed.

Lemma elem_of_observed_set pd i t : t ∈ observed_set pd i ↔ observed pd i t.
Proof.
  unfold observed_set. rewrite elem_of_filter, elem_of_dom.
  split; [by intros [? _]|]. intros Ho. split; [done|].
  unfold observed in Ho. destruct (pd !! t); [by eexists|by destruct Ho].
Qed.

(** The match list of a pair, up to the order in which the set of common
    ids is traversed. *)
Lemma matches_list_spec pd i j :
  matches_list (keypoint_map (keypoint_loop pd i)) (keypoint_map (keypoint_loop pd j))
  = Some (match_of pd i j <$> elements (observed_set pd i ∩ observed_set pd j)).
Proof.
  unfold matches_list. rewrite common_sets_observed.
  apply mapM_total. intros t Ht.
  apply elem_of_elements, elem_of_intersection in Ht as [Hi Hj].
  apply elem_of_observed_set, keypoint_map_get_is_Some in Hi as [a Ha].
  apply elem_of_observed_set, keypoint_map_get_is_Some in Hj as [b Hb].
  unfold match_of, keypoint_index. rewrite Ha, Hb. done.
Qed.

Lemma match_of_inj pd i j t t' :
  observed pd i t → observed pd i t' →
  match_of pd i j t = match_of pd i j t' → t = t'.
Proof.
  intros [a Ha]%keypoint_map_get_is_Some [a' Ha']%keypoint_map_get_is_Some.
  unfold match_of, keypoint_index. rewrite Ha, Ha'. simpl. intros [= -> _].
  by eapply keypoint_map_injective.
Qed.

Lemma match_of_NoDup pd i j :
  NoDup (match_of pd i j <$> elements (observed_set pd i ∩ observed_set pd j)).
Proof.
  apply NoDup_fmap_2_strong; [|apply NoDup_elements].
  intros t t' Ht Ht'.
  apply elem_of_elements, elem_of_intersection in Ht as [Ht _].
  apply elem_of_elements, elem_of_intersection in Ht' as [Ht' _].
  apply match_of_inj; by apply elem_of_observed_set.
Qed.

Lemma elem_of_match_of pd i j a b :
  (a, b) ∈ match_of pd i j <$> elements (observed_set pd i ∩ observed_set pd j) ↔
  ∃ t, observed pd i t ∧ observed pd j t ∧
       keypoint_index pd i t = Some a ∧ keypoint_index pd j t = Some b.
Proof.
  rewrite list_elem_of_fmap. split.
  - intros (t & Heq & Ht).
    apply elem_of_elements, elem_of_intersection in Ht as [Hi Hj].
    apply elem_of_observed_set in Hi, Hj. exists t. split_and!; [done..| |].
    + pose proof Hi as [a' Ha']%keypoint_map_get_is_Some.
      unfold match_of, keypoint_index in *. rewrite Ha' in *. simpl in Heq. congruence.
    + pose proof Hj as [b' Hb']%keypoint_map_get_is_Some.
      unfold match_of, keypoint_index in *. rewrite Hb' in *. simpl in Heq. congruence.
  - intros (t & Hi & Hj & Ha & Hb). exists t. split.
    + unfold match_of. by rewrite Ha, Hb.
    + apply elem_of_elements, elem_of_intersection.
      split; by apply elem_of_observed_set.
Qed.

Lemma pair_matches_spec pd n i j :
  i < j → j < n →
  pair_matches (keypoint_maps pd n) i j = Some (pair_entry pd (i, j)).
Proof.
  intros Hij Hjn. unfold pair_matches, pair_entry.
  rewrite !keypoint_maps_lookup by lia. simpl.
  rewrite matches_list_spec, common_sets_observed. simpl.
  destruct (decide (observed_set pd i ∩ observed_set pd j = ∅)) as [->|Hne].
  - by rewrite elements_empty.
  - by destruct (match_of pd i j <$> _).
Qed.

Lemma write_all_matches_spec pd n :
  write_all_matches (keypoint_maps pd n) n = Some (omap (pair_entry pd) (image_pairs n)).
Proof.
  unfold write_all_matches.
  rewrite (mapM_total _ (pair_entry pd)).
  - simpl. f_equal. induction (image_pairs n) as [|p l IH]; [done|].
    rewrite fmap_cons. cbn [omap list_omap]. rewrite IH.
    by destruct (pair_entry pd p).
  - intros [i j] [? ?]%elem_of_image_pairs. by apply pair_matches_spec.
Qed.

Lemma pair_entry_Some pd p e :
  pair_entry pd p = Some e ↔
  matches e ≠ [] ∧
  e = {| idx1 := p.1; idx2 := p.2;
         matches := match_of pd p.1 p.2 <$>
                    elements (observed_set pd p.1 ∩ observed_set pd p.2) |}.
Proof.
  unfold pair_entry. destruct (match_of pd p.1 p.2 <$> _) as [|m ml]; split.
  - done.
  - intros [Hne ->]. done.
  - intros [= <-]. done.
  - intros [_ ->]. done.
Qed.

Lemma omap_pairs_NoDup pd (l : list (nat * nat)) :
  NoDup l → NoDup ((λ e, (idx1 e, idx2 e)) <$> omap (pair_entry pd) l).
Proof.
  induction 1 as [|p l Hp Hnd IH]; simpl; [constructor|].
  destruct (pair_entry pd p) as [e|] eqn:He; [|done].
  simpl. constructor; [|done].
  apply pair_entry_Some in He as [_ ->]. simpl.
  intros Hin. apply list_elem_of_fmap in Hin as (e' & Heq & Hin).
  apply list_elem_of_omap in Hin as (p' & Hp' & He').
  apply pair_entry_Some in He' as [_ ->]. simpl in Heq.
  destruct p, p'. simpl in *. congruence.
Qed.

Lemma make_camera_valid (dims : gmap nat (Z * Z)) n i :
  valid_dimensions dims n → i < n → is_Some (make_camera dims i).
Proof.
  intros Hv Hi. destruct (Hv i Hi) as (w & h & Hd & Hw & Hh).
  unfold make_camera. rewrite Hd. simpl.
  destruct (decide _) as [[?|?]|_]; [lia..|]. by eexists.
Qed.

Lemma populate_valid pd (dims : gmap nat (Z * Z)) n :
  valid_dimensions dims n →
  ∃ cams,
    populate_colmap_database pd dims n =
      (keypoint_maps pd n,
       Some {| db_cameras := cams;
               db_keypoints := written_keypoints (keypoints_per_image pd n);
               db_matches := omap (pair_entry pd) (image_pairs n) |}).
Proof.
  intros Hv. unfold populate_colmap_database.
  destruct (mapM (λ i, pair i <$> make_camera dims i) (seq 0 n)) as [cams|] eqn:Hc.
  - exists cams. simpl. by rewrite write_all_matches_spec.
  - apply mapM_None_1, Exists_exists in Hc as (i & Hi & Hnone).
    apply elem_of_seq in Hi.
    destruct (make_camera_valid dims n i Hv) as [c Hcam]; [lia|].
    by rewrite Hcam in Hnone.
Qed.

(** C2. For every pair of image indices [i < j], the match list written
    for the pair holds exactly one match
    [(keypoint_maps[i][t], keypoint_maps[j][t])] for each track [t]
    observed in both images, without duplicates, and nothing else; a pair
    without common track writes no entry and the build goes on (no
    exception); a track observed in one image only contributes to no
    match list. *)
Theorem pairwise_matches_exact pd n :
  ∃ log,
    write_all_matches (keypoint_maps pd n) n = Some log
    ∧ NoDup ((λ e, (idx1 e, idx2 e)) <$> log)
    ∧ (∀ e, e ∈ log → idx1 e < idx2 e ∧ idx2 e < n ∧ matches e ≠ [])
    ∧ (∀ i j, i < j → j < n →
         ∃ ml,
           NoDup ml
           ∧ length ml = size (observed_set pd i ∩ observed_set pd j)
           ∧ (∀ a b, (a, b) ∈ ml ↔
                ∃ t, observed pd i t ∧ observed pd j t ∧
                     keypoint_index pd i t = Some a ∧
                     keypoint_index pd j t = Some b)
           ∧ (∀ e, e ∈ log ∧ idx1 e = i ∧ idx2 e = j ↔
                ml ≠ [] ∧ e = {| idx1 := i; idx2 := j; matches := ml |}))
    ∧ (∀ t i k,
         keypoint_index pd i t = Some k →
         (∀ j, j ≠ i → ¬ observed pd j t) →
         ∀ e a b, e ∈ log → (a, b) ∈ matches e →
                  (idx1 e = i → a ≠ k) ∧ (idx2 e = i → b ≠ k))
    ∧ (∀ dims, valid_dimensions dims n →
         ∃ db, populate_colmap_database pd dims n = (keypoint_maps pd n, Some db)
               ∧ db_matches db = log).
Proof.
  exists (omap (pair_entry pd) (image_pairs n)).
  split_and!; [| | | | |intros dims Hv;
                         destruct (populate_valid pd dims n Hv) as [cams ->];
                         by eexists].
  - apply write_all_matches_spec.
  - apply omap_pairs_NoDup, image_pairs_NoDup.
  - intros e ([i j] & Hp & He)%list_elem_of_omap.
    apply elem_of_image_pairs in Hp as [? ?].
    apply pair_entry_Some in He as [Hne ->]. simpl in *. done.
  - intros i j Hij Hjn.
    exists (match_of pd i j <$> elements (observed_set pd i ∩ observed_set pd j)).
    split_and!.
    + apply match_of_NoDup.
    + by rewrite length_fmap.
    + apply elem_of_match_of.
    + intros e. rewrite list_elem_of_omap. split.
      * intros (([i' j'] & Hp & He) & <- & <-).
        apply pair_entry_Some in He as [Hne ->]. simpl in *. done.
      * intros [Hne ->]. simpl. split; [|done].
        exists (i, j). split; [by apply elem_of_image_pairs|].
        apply pair_entry_Some. done.
  - intros t i k Hk Honly e a b ([i' j'] & Hp & He)%list_elem_of_omap Hab.
    apply elem_of_image_pairs in Hp as [Hlt _].
    apply pair_entry_Some in He as [_ ->]. simpl in *.
    apply elem_of_match_of in Hab as (t' & Hi' & Hj' & Ha & Hb).
    split.
    + intros -> ->. unfold keypoint_index in *.
      assert (t = t') as <- by (by eapply keypoint_map_injective).
      apply (Honly j'); [lia|done].
    + intros -> ->. unfold keypoint_index in *.
      assert (t = t') as <- by (by eapply keypoint_map_injective).
      apply (Honly i'); [lia|done].
Qed.
End Matches.

Section Populate.
Implicit Types (pd : gmap Z (gmap nat (QPointF * CrosshairMarker))).
Implicit Types (dims : gmap nat (Z * Z)).

Lemma observed_set_all pd img :
  set_Forall (observed pd img) (dom pd) → observed_set pd img = dom pd.
Proof.
  intros Hall. apply set_eq. intros t. rewrite elem_of_observed_set.
  split.
  - unfold observed. rewrite elem_of_dom.
    destruct (pd !! t); [by eexists|by intros []].
  - apply Hall.
Qed.

(** The two-view build: every track observed in both images. *)
Lemma two_view_build pd dims (k : nat) :
  0 < k →
  size (dom pd) = k →
  set_Forall (λ t, observed pd 0 t ∧ observed pd 1 t) (dom pd) →
  valid_dimensions dims 2 →
  ∃ db kps0 kps1 ml,
    populate_colmap_database pd dims 2 = (keypoint_maps pd 2, Some db)
    ∧ keypoints_per_image pd 2 = [kps0; kps1]
    ∧ db_keypoints db = [(0, kps0); (1, kps1)]
    ∧ length kps0 = k ∧ length kps1 = k
    ∧ db_matches db = [{| idx1 := 0; idx2 := 1; matches := ml |}]
    ∧ length ml = k.
Proof.
  intros Hk Hsize Hall Hv.
  assert (observed_set pd 0 = dom pd) as H0.
  { apply observed_set_all. intros t Ht. by apply Hall. }
  assert (observed_set pd 1 = dom pd) as H1.
  { apply observed_set_all. intros t Ht. by apply Hall. }
  destruct (populate_valid pd dims 2 Hv) as [cams Hpop].
  destruct (keypoint_loop_spec pd 0) as [_ Hl0].
  destruct (keypoint_loop_spec pd 1) as [_ Hl1].
  rewrite length_observed_ids, H0, Hsize in Hl0.
  rewrite length_observed_ids, H1, Hsize in Hl1.
  set (ml := match_of pd 0 1 <$> elements (observed_set pd 0 ∩ observed_set pd 1)).
  assert (length ml = k) as Hml.
  { unfold ml. rewrite length_fmap, H0, H1.
    by rewrite (idemp_L (∩)). }
  eexists _, (keypoints (keypoint_loop pd 0)), (keypoints (keypoint_loop pd 1)), ml.
  split_and!; [exact Hpop|done| |done|done| |done].
  - simpl. unfold written_keypoints, keypoints_per_image. simpl.
    rewrite !filter_cons. simpl.
    destruct (keypoints (keypoint_loop pd 0)); [simpl in *; lia|].
    destruct (keypoints (keypoint_loop pd 1)); [simpl in *; lia|].
    rewrite !decide_True by done. done.
  - simpl. change (image_pairs 2) with [(0, 1)]. simpl.
    unfold pair_entry. simpl. fold ml.
    destruct ml; [simpl in *; lia|done].
Qed.

Lemma sample_size : size (dom sample_point_data) = 3.
Proof. reflexivity. Qed.

Lemma sample_all_observed :
  set_Forall (λ t, observed sample_point_data 0 t ∧ observed sample_point_data 1 t)
             (dom sample_point_data).
Proof. apply (bool_decide_unpack _). vm_compute. reflexivity. Qed.

Lemma sample_dimensions_valid : valid_dimensions sample_dimensions 2.
Proof.
  intros i Hi. exists 1920%Z, 1080%Z.
  destruct i as [|[|i]]; [split_and!; [reflexivity|lia..]..|lia].
Qed.

Lemma sample_keypoint_counts :
  length <$> keypoints_per_image sample_point_data 2 = [3; 3].
Proof. vm_compute. reflexivity. Qed.

(** C3 (as amended). With exactly 2 images and exactly 3 tracks, each
    observed in both images, the build writes exactly 3 keypoints for each
    image (one per track) and a single match entry, for the pair (0, 1),
    holding exactly 3 matches. *)
Theorem scenario_A_three_keypoints pd dims :
  size (dom pd) = 3 →
  set_Forall (λ t, observed pd 0 t ∧ observed pd 1 t) (dom pd) →
  valid_dimensions dims 2 →
  ∃ db kps0 kps1 ml,
    populate_colmap_database pd dims 2 = (keypoint_maps pd 2, Some db)
    ∧ keypoints_per_image pd 2 = [kps0; kps1]
    ∧ db_keypoints db = [(0, kps0); (1, kps1)]
    ∧ length kps0 = 3 ∧ length kps1 = 3
    ∧ db_matches db = [{| idx1 := 0; idx2 := 1; matches := ml |}]
    ∧ length ml = 3.
Proof. intros. apply two_view_build; [lia|done..]. Qed.

Lemma scenario_A_three_keypoints_witness :
  ∃ db kps0 kps1 ml,
    populate_colmap_database sample_point_data sample_dimensions 2
      = (keypoint_maps sample_point_data 2, Some db)
    ∧ keypoints_per_image sample_point_data 2 = [kps0; kps1]
    ∧ db_keypoints db = [(0, kps0); (1, kps1)]
    ∧ length kps0 = 3 ∧ length kps1 = 3
    ∧ db_matches db = [{| idx1 := 0; idx2 := 1; matches := ml |}]
    ∧ length ml = 3.
Proof.
  apply (scenario_A_three_keypoints sample_point_data sample_dimensions).
  - reflexivity.
  - apply (bool_decide_unpack _). vm_compute. reflexivity.
  - exact sample_dimensions_valid.
Defined.

(** C3 as stated fails: on the sample store (2 images, 3 tracks, each
    observed in both images) no image gets exactly 2 keypoints. *)
Lemma scenario_A_two_keypoints_refuted :
  size (dom sample_point_data) = 3
  ∧ set_Forall (λ t, observed sample_point_data 0 t ∧ observed sample_point_data 1 t)
               (dom sample_point_data)
  ∧ valid_dimensions sample_dimensions 2
  ∧ ¬ (∀ kps, kps ∈ keypoints_per_image sample_point_data 2 → length kps = 2).
Proof.
  split_and!; [exact sample_size|exact sample_all_observed
              |exact sample_dimensions_valid|].
  intros Hall.
  pose proof sample_keypoint_counts as Hc.
  destruct (keypoints_per_image sample_point_data 2) as [|kps0 l]; [done|].
  specialize (Hall kps0 ltac:(left)). simpl in Hc. congruence.
Qed.

Lemma keypoint_index_map_dense_invertible_witness :
  ∃ km,
    keypoint_maps sample_point_data 2 !! 1 = Some km
    ∧ StronglySorted Z.lt (PyDict.keys km)
    ∧ (∀ t, t ∈ PyDict.keys km ↔ observed sample_point_data 1 t)
    ∧ PyDict.values km = seq 0 (size (observed_set sample_point_data 1))
    ∧ NoDup (PyDict.values km)
    ∧ (∀ k, k < size (observed_set sample_point_data 1) →
            ∃ t, PyDict.get t km = Some k)
    ∧ (∀ t k, PyDict.get t km = Some k ↔
              PyDict.get k (invert_keypoint_map km) = Some t)
    ∧ (∀ pd', (∀ t, observed pd' 1 t ↔ observed sample_point_data 1 t) →
              keypoint_maps pd' 2 !! 1 = Some km).
Proof. apply (keypoint_index_map_dense_invertible sample_point_data 2 1). lia. Defined.
(** The build on the second sample: positions follow the ascending track
    ids, whatever the insertion order; track 3, seen in image 1 only, is in
    no match. *)
Example mixed_keypoint_maps :
  keypoint_maps mixed_point_data 3 =
    [[(5%Z, 0); (9%Z, 1)]; [(3%Z, 0); (5%Z, 1); (9%Z, 2)]; [(9%Z, 0)]].
Proof. vm_compute. reflexivity. Qed.

Example mixed_matches :
  ∃ log, write_all_matches (keypoint_maps mixed_point_data 3) 3 = Some log
         ∧ (λ e, (idx1 e, idx2 e)) <$> log = [(0, 1); (0, 2); (1, 2)]
         ∧ Forall2 (λ e ml, matches e ≡ₚ ml) log
             [[(0, 1); (1, 2)]; [(1, 0)]; [(2, 0)]].
Proof.
  eexists. split; [vm_compute; reflexivity|]. split; [reflexivity|].
  repeat constructor.
Qed.

End Populate.

Section Coverage.
Implicit Types (pd : gmap Z (gmap nat (QPointF * CrosshairMarker))).

(** The keypoint the loop appends for a track observed in the image. *)
Lemma keypoints_fold pd img (ids : list Z) st :
  keypoints (foldl (keypoint_step pd img) st ids)
  = keypoints st ++
    omap (λ t, (λ o : QPointF * CrosshairMarker, (qx o.1, qy o.1, 1%R, 0%R))
                 <$> (pd !! t ≫= (.!! img))) ids.
Proof.
  revert st. induction ids as [|t ids IH]; intros st; simpl.
  { by rewrite app_nil_r. }
  rewrite IH. unfold keypoint_step.
  destruct (pd !! t) as [obs|]; simpl; [|done].
  destruct (obs !! img) as [[c m]|]; simpl; [|done].
  by rewrite <- app_assoc.
Qed.

Lemma omap_filter_observed pd img (ids : list Z) :
  omap (λ t, (λ o : QPointF * CrosshairMarker, (qx o.1, qy o.1, 1%R, 0%R))
               <$> (pd !! t ≫= (.!! img))) ids
  = (λ t, match pd !! t ≫= (.!! img) with
          | Some o => (qx o.1, qy o.1, 1%R, 0%R)
          | None => (0%R, 0%R, 0%R, 0%R)
          end) <$> filter (observed pd img) ids.
Proof.
  induction ids as [|t ids IH]; [done|].
  cbn [omap list_omap]. rewrite filter_cons, IH.
  destruct (decide (observed pd img t)) as [[o Ho]|Hno].
  - rewrite fmap_cons, Ho. done.
  - destruct (pd !! t ≫= (.!! img)) as [o|] eqn:Ho; [|done].
    destruct Hno. by exists o.
Qed.

Lemma keypoint_index_lookup pd img t k :
  keypoint_index pd img t = Some k ↔ observed_ids pd img !! k = Some t.
Proof.
  unfold keypoint_index.
  destruct (keypoint_loop_spec pd img) as [Hm _]. rewrite Hm.
  pose proof (observed_ids_NoDup pd img) as Hnd.
  split.
  - intros Hin%PyDictFacts.get_Some_elem.
    apply list_elem_of_lookup in Hin as [j Hj].
    apply lookup_zip_with_Some in Hj as (t' & k' & [= <- <-] & Ht & Hk).
    apply lookup_seq in Hk as [-> _]. done.
  - intros Hk. apply PyDictFacts.get_elem_NoDup.
    + unfold PyDict.keys. rewrite fst_zip by (by rewrite length_seq). done.
    + apply list_elem_of_lookup. exists k.
      apply lookup_zip_with_Some. exists t, k. split_and!; [done..|].
      apply lookup_seq. split; [done|]. by eapply lookup_lt_Some.
Qed.

Lemma keypoints_loop_spec pd img :
  keypoints (keypoint_loop pd img)
  = (λ t, match pd !! t ≫= (.!! img) with
          | Some o => (qx o.1, qy o.1, 1%R, 0%R)
          | None => (0%R, 0%R, 0%R, 0%R)
          end) <$> observed_ids pd img.
Proof.
  unfold keypoint_loop. rewrite keypoints_fold. simpl.
  apply omap_filter_observed.
Qed.

(** X1. The keypoint list and the keypoint index map of an image agree:
    the keypoint at the index the map gives for a track is (x, y, 1, 0)
    with (x, y) the coordinates of the track's observation in that image;
    every keypoint of the list is the keypoint of some track; and the list
    has one keypoint per track observed in the image. *)
Theorem keypoint_holds_track_coordinates pd img :
  (∀ t k, keypoint_index pd img t = Some k →
     ∃ c m, pd !! t ≫= (.!! img) = Some (c, m)
            ∧ keypoints (keypoint_loop pd img) !! k = Some (qx c, qy c, 1%R, 0%R))
  ∧ (∀ k kp, keypoints (keypoint_loop pd img) !! k = Some kp →
       ∃ t, keypoint_index pd img t = Some k)
  ∧ length (keypoints (keypoint_loop pd img)) = size (observed_set pd img).
Proof.
  pose proof (keypoints_loop_spec pd img) as Hk.
  split_and!.
  - intros t k Hidx%keypoint_index_lookup.
    assert (observed pd img t) as [[c m] Ho].
    { apply elem_of_observed_ids. by eapply list_elem_of_lookup_2. }
    exists c, m. split; [done|].
    rewrite Hk, list_lookup_fmap, Hidx. simpl. by rewrite Ho.
  - intros k kp. rewrite Hk, list_lookup_fmap.
    intros (t & Ht & _)%fmap_Some. exists t. by apply keypoint_index_lookup.
  - rewrite Hk, length_fmap. apply length_observed_ids.
Qed.

Lemma make_camera_Some (dims : gmap nat (Z * Z)) i cam :
  make_camera dims i = Some cam ↔
  ∃ w h, dims !! i = Some (w, h) ∧ (0 < w)%Z ∧ (0 < h)%Z
         ∧ cam = {| model := SIMPLE_PINHOLE; width := w; height := h;
                    params := [(1.2 * IZR (Z.max w h))%R; (IZR w / 2)%R;
                               (IZR h / 2)%R] |}.
Proof.
  unfold make_camera. destruct (dims !! i) as [[w h]|]; simpl.
  - destruct (decide _) as [Hbad|Hok].
    + split; [done|]. intros (? & ? & [= <- <-] & ? & ? & _). lia.
    + split.
      * intros [= <-]. exists w, h. split_and!; [done|lia..|done].
      * by intros (? & ? & [= <- <-] & _ & _ & ->).
  - split; [done|]. by intros (? & ? & ? & _).
Qed.

(** The cameras of the database build, image by image. *)
Lemma populate_cameras pd (dims : gmap nat (Z * Z)) n :
  ((populate_colmap_database pd dims n).2 = None
   ↔ ∃ i, i < n ∧ make_camera dims i = None)
  ∧ (∀ db, (populate_colmap_database pd dims n).2 = Some db →
       ∀ i, i < n → ∃ cam, make_camera dims i = Some cam
                           ∧ db_cameras db !! i = Some (i, cam)).
Proof.
  unfold populate_colmap_database. simpl.
  rewrite write_all_matches_spec.
  destruct (mapM (λ i, pair i <$> make_camera dims i) (seq 0 n)) as [cams|] eqn:Hc;
    simpl.
  - apply mapM_Some_1 in Hc.
    assert (∀ i, i < n → ∃ cam, make_camera dims i = Some cam
                                ∧ cams !! i = Some (i, cam)) as Hcam.
    { intros i Hi.
      destruct (Forall2_lookup_l _ _ _ i i Hc) as (x & Hx & Hf).
      { by apply lookup_seq_lt. }
      apply fmap_Some in Hf as (cam & Hcam & ->). by exists cam. }
    split.
    + split; [done|]. intros (i & Hi & Hnone).
      destruct (Hcam i Hi) as (cam & ? & _). congruence.
    + intros db [= <-]. simpl. apply Hcam.
  - split; [|done]. split; [intros _|done].
    apply mapM_None_1, Exists_exists in Hc as (i & Hi & Hnone).
    apply elem_of_seq in Hi. exists i. split; [lia|].
    by apply fmap_None in Hnone.
Qed.

(** A call returns [True] with the database that the body wrote. *)
Lemma populate_call_True (env : DatabaseEnvironment) pd
    (dims : gmap nat (Z * Z)) n (old : list (list (Z * nat))) db :
  (populate_colmap_database_call env pd dims n old).2 = PopulateTrue db
  ↔ database_opened env ∧ writes_return env = true
    ∧ (populate_colmap_database pd dims n).2 = Some db.
Proof.
  unfold populate_colmap_database_call, database_opened.
  destruct (populate_colmap_database pd dims n) as [kmaps body].
  destruct (pycolmap_available env), (makedirs_returns env),
    (database_exists env), (remove_returns env), (database_opens env);
    simpl;
    try (split; [done|intros [(? & ? & Himp & ?) _]; try done;
                 by specialize (Himp eq_refl)]).
  all: destruct body as [db'|]; [destruct (writes_return env)|]; simpl.
  all: try (split; [done|by intros (_ & ? & ?)]).
  all: split; [intros [= <-]; by split_and!|by intros (_ & _ & [= <-])].
Qed.

(** X2. A call of the database build returns [True] exactly when the
    library is there, the directory can be made, an old database file (if
    any) can be removed, the database opens, every call on it returns, and
    every image has cached dimensions with positive width and height.  The
    call raises only when the directory cannot be made; every other failure
    returns [False].  The keypoint maps of the window are replaced when the
    call gets as far as the open database, whether or not it then succeeds,
    and are left as they were otherwise.  When the call returns [True], one
    camera was written per image, in image order: a simple pinhole camera
    of the image's size with focal length 1.2 times the larger side and the
    principal point at the centre. *)
Theorem populate_needs_positive_dimensions (env : DatabaseEnvironment) pd
    (dims : gmap nat (Z * Z)) n (old : list (list (Z * nat))) :
  ((∃ db, (populate_colmap_database_call env pd dims n old).2 = PopulateTrue db)
   ↔ database_opened env ∧ writes_return env = true
     ∧ ∀ i, i < n → ∃ w h, dims !! i = Some (w, h) ∧ (0 < w)%Z ∧ (0 < h)%Z)
  ∧ ((populate_colmap_database_call env pd dims n old).2 = PopulateRaised
     ↔ pycolmap_available env = true ∧ makedirs_returns env = false)
  ∧ (database_opened env →
     (populate_colmap_database_call env pd dims n old).1 = keypoint_maps pd n)
  ∧ (¬ database_opened env →
     (populate_colmap_database_call env pd dims n old).1 = old)
  ∧ (∀ db, (populate_colmap_database_call env pd dims n old).2 = PopulateTrue db →
       length (db_cameras db) = n
       ∧ ∀ i, i < n →
           ∃ w h, dims !! i = Some (w, h) ∧ (0 < w)%Z ∧ (0 < h)%Z
             ∧ db_cameras db !! i =
                 Some (i, {| model := SIMPLE_PINHOLE; width := w; height := h;
                             params := [(1.2 * IZR (Z.max w h))%R;
                                        (IZR w / 2)%R; (IZR h / 2)%R] |})).
Proof.
  destruct (populate_cameras pd dims n) as [Hfail Hok].
  assert ((populate_colmap_database pd dims n).1 = keypoint_maps pd n) as Hmaps
    by done.
  assert (∀ db, (populate_colmap_database pd dims n).2 = Some db →
            length (db_cameras db) = n) as Hlen.
  { intros db. unfold populate_colmap_database. simpl.
    destruct (mapM _ (seq 0 n)) as [cams|] eqn:Hc; [|done]. simpl.
    rewrite write_all_matches_spec. simpl. intros [= <-]. simpl.
    apply length_mapM in Hc. by rewrite length_seq in Hc. }
  assert (is_Some (populate_colmap_database pd dims n).2
          ↔ ∀ i, i < n → ∃ w h, dims !! i = Some (w, h) ∧ (0 < w)%Z ∧ (0 < h)%Z)
    as Hbody.
  { split.
    - intros [db Hdb] i Hi. destruct (Hok db Hdb i Hi) as (cam & Hcam & _).
      apply make_camera_Some in Hcam as (w & h & ? & ? & ? & _). by exists w, h.
    - intros Hall. apply not_eq_None_Some. intros (i & Hi & Hnone)%Hfail.
      destruct (Hall i Hi) as (w & h & Hd & Hw & Hh).
      assert (is_Some (make_camera dims i)) as [? ?]; [|congruence].
      eexists. apply make_camera_Some. exists w, h. split_and!; [done..|].
      reflexivity. }
  unfold populate_colmap_database_call, database_opened.
  destruct (populate_colmap_database pd dims n) as [kmaps body] eqn:Hpop.
  simpl in Hmaps, Hlen, Hbody, Hok. subst kmaps.
  destruct (pycolmap_available env), (makedirs_returns env),
    (database_exists env), (remove_returns env), (database_opens env);
    simpl;
    try (split_and!;
         [split; [by intros [? ?]|intros [(? & ? & Himp & ?) _];
                  try done; by specialize (Himp eq_refl)]
         |split; [done|by intros [? ?]]
         |intros (? & ? & Himp & ?); try done; by specialize (Himp eq_refl)
         |done
         |done]).
  all: destruct body as [db|]; [destruct (writes_return env)|]; simpl.
  all: try (split_and!;
         [split; [by intros [? ?]|intros (_ & Hw & Hall); try done;
                  apply Hbody in Hall; by destruct Hall]
         |split; [done|by intros [? ?]]
         |done
         |intros Hno; destruct Hno; by split_and!
         |done]).
  all: split_and!;
    [split; [intros _; split_and!; try done; by apply Hbody|by eexists]
    |split; [done|by intros [? ?]]
    |done
    |intros Hno; destruct Hno; by split_and!
    |intros db' [= <-]; split; [by apply Hlen|];
     intros i Hi; destruct (Hok db eq_refl i Hi) as (cam & Hcam & Hl);
     apply make_camera_Some in Hcam as (w & h & ? & ? & ? & ->);
     by exists w, h].
Qed.

(** X3. The keypoints of an image are written to the database exactly when
    the image has at least one observation: the written entries are, in
    image order, the non-empty keypoint lists. *)
Theorem keypoints_written_for_observed_images pd n i kps :
  (i, kps) ∈ written_keypoints (keypoints_per_image pd n)
  ↔ i < n ∧ kps = keypoints (keypoint_loop pd i)
    ∧ ∃ t, observed pd i t.
Proof.
  unfold written_keypoints. rewrite list_elem_of_filter. simpl.
  rewrite list_elem_of_lookup.
  assert (kps = keypoints (keypoint_loop pd i) →
          (kps ≠ [] ↔ ∃ t, observed pd i t)) as Hne.
  { intros ->. rewrite keypoints_loop_spec. split.
    - destruct (observed_ids pd i) as [|t l] eqn:Hobs; [done|].
      intros _. exists t. apply elem_of_observed_ids. rewrite Hobs. left.
    - intros [t Ht%elem_of_observed_ids] Hnil.
      apply fmap_nil_inv in Hnil. rewrite Hnil in Ht. by apply elem_of_nil in Ht. }
  split.
  - intros [Hkne [j Hj]]. rewrite list_lookup_imap in Hj.
    apply fmap_Some in Hj as (kps' & Hl & Heq).
    injection Heq as Hij Hkk. subst j kps'.
    assert (i < n) as Hi.
    { apply lookup_lt_Some in Hl. unfold keypoints_per_image in Hl.
      by rewrite length_fmap, length_seq in Hl. }
    rewrite keypoints_per_image_lookup in Hl by done. injection Hl as <-.
    split_and!; [done..|]. by apply Hne.
  - intros (Hi & -> & Ht). split; [by apply Hne|].
    exists i. rewrite list_lookup_imap, keypoints_per_image_lookup by done. done.
Qed.

End Coverage.
End SolverInputFacts.

(** ** The correspondence store *)

Module StoreFacts.
Import Store.

Section Store.
Implicit Types (s : State) (t : Z).

Lemma find_marker_singleton i c mk :
  find_marker {[ i := (c, mk) ]} mk = Some i.
Proof.
  unfold find_marker. rewrite map_to_list_singleton. simpl.
  by rewrite decide_True.
Qed.

Lemma delete_last_observation s t i c mk :
  point_data s !! t = Some {[ i := (c, mk) ]} →
  marker_set mk = t →
  delete_point_observation mk true s =
    ({| point_data := delete t (point_data s);
        next_point_set_id := next_point_set_id s;
        active_point_set_index :=
          if decide (active_point_set_index s = t) then (-1)%Z
          else active_point_set_index s;
        markers_created := markers_created s |}, Done).
Proof.
  intros Hobs <-. unfold delete_point_observation.
  rewrite Hobs, find_marker_singleton, delete_singleton_eq.
  rewrite decide_True by apply map_size_empty.
  by rewrite delete_insert_eq.
Qed.

End Store.
End StoreFacts.
(** ** The correspondence store under the window's handlers *)

Module StoreSessionFacts.
Import Store.

Section Session.
Implicit Types (s : State) (t : Z) (i : nat) (m : CrosshairMarker)
  (c : QPointF) (obs : gmap nat (QPointF * CrosshairMarker)).

Lemma find_marker_Some obs m i :
  find_marker obs m = Some i → ∃ c, obs !! i = Some (c, m).
Proof.
  unfold find_marker. intros [[k [j [c m']]] [Hf ->]]%fmap_Some.
  apply list_find_Some in Hf as (Hk & Hm & _). simpl in *. subst m'.
  exists c. apply elem_of_map_to_list. by eapply list_elem_of_lookup_2.
Qed.

Lemma find_marker_None obs m i c :
  find_marker obs m = None → obs !! i ≠ Some (c, m).
Proof.
  unfold find_marker. intros Hf%fmap_None Hi.
  apply list_find_None in Hf. rewrite Forall_forall in Hf.
  apply (Hf (i, (c, m))); [by apply elem_of_map_to_list|done].
Qed.

Lemma observation_Some s t i x :
  observation s t i = Some x ↔
  ∃ obs, point_data s !! t = Some obs ∧ obs !! i = Some x.
Proof.
  unfold observation. destruct (point_data s !! t) as [obs|]; simpl.
  - split; [eauto|]. by intros (? & [= <-] & ?).
  - split; [done|]. by intros (? & ? & ?).
Qed.

(** The observations after one set's entry is replaced, or removed. *)
Lemma lookup_insert_observation
    (pd : gmap Z (gmap nat (QPointF * CrosshairMarker))) t obs t' i' :
  <[t := obs]> pd !! t' ≫= (.!! i')
  = if decide (t' = t) then obs !! i' else pd !! t' ≫= (.!! i').
Proof.
  destruct (decide (t' = t)) as [->|Hne].
  - by rewrite lookup_insert_eq.
  - by rewrite lookup_insert_ne.
Qed.

Lemma well_formed_markers_ok s :
  well_formed s → markers_ok (observation s) (markers_created s).
Proof. intros []. by split. Qed.

Lemma markers_ok_moved f f' n t i c c' m :
  markers_ok f n →
  f t i = Some (c, m) →
  (∀ t' i', f' t' i' =
     if decide (t' = t ∧ i' = i) then Some (c', m) else f t' i') →
  markers_ok f' n.
Proof.
  intros [Hm Hu] Hold Hf'. split.
  - intros t' i' c1 m1. rewrite Hf'. case_decide as Hd.
    + intros [= <- <-]. destruct Hd as [-> _]. by eapply Hm.
    + apply Hm.
  - intros t1 i1 c1 m1 t2 i2 c2 m2. rewrite !Hf'.
    case_decide as Hd1; case_decide as Hd2.
    + destruct Hd1 as [-> ->], Hd2 as [-> ->]. done.
    + intros [= <- <-] H2 Huid.
      destruct (Hu _ _ _ _ _ _ _ _ Hold H2 Huid) as [<- <-]. by destruct Hd2.
    + intros H1 [= <- <-] Huid.
      destruct (Hu _ _ _ _ _ _ _ _ H1 Hold Huid) as [-> ->]. by destruct Hd1.
    + apply Hu.
Qed.

Lemma markers_ok_removed f f' n t i :
  markers_ok f n →
  (∀ t' i', f' t' i' = if decide (t' = t ∧ i' = i) then None else f t' i') →
  markers_ok f' n.
Proof.
  intros [Hm Hu] Hf'. split.
  - intros t' i' c1 m1. rewrite Hf'. case_decide; [done|apply Hm].
  - intros t1 i1 c1 m1 t2 i2 c2 m2. rewrite !Hf'.
    repeat case_decide; try done. apply Hu.
Qed.

(** *** [delete_point_observation] *)

Lemma delete_found s m i obs :
  point_data s !! marker_set m = Some obs →
  find_marker obs m = Some i →
  ∃ s', delete_point_observation m true s = (s', Done)
    ∧ next_point_set_id s' = next_point_set_id s
    ∧ markers_created s' = markers_created s
    ∧ point_data s' =
        (if decide (size (delete i obs) = 0) then delete (marker_set m) (point_data s)
         else <[marker_set m := delete i obs]> (point_data s))
    ∧ active_point_set_index s' =
        (if decide (size (delete i obs) = 0 ∧ active_point_set_index s = marker_set m)
         then (-1)%Z else active_point_set_index s)
    ∧ ∀ t' i', observation s' t' i'
        = if decide (t' = marker_set m ∧ i' = i) then None
          else observation s t' i'.
Proof.
  intros Ht Hf. unfold delete_point_observation. rewrite Ht, Hf.
  destruct (decide (size (delete i obs) = 0)) as [Hsz|Hsz].
  - eexists. split; [done|]. simpl. split_and!; try done.
    + by rewrite delete_insert_eq.
    + destruct (decide (active_point_set_index s = marker_set m)).
      * by rewrite decide_True.
      * rewrite decide_False; [done|]. by intros [_ ?].
    + intros t' i'. unfold observation. simpl. rewrite delete_insert_eq.
      apply map_size_empty_iff in Hsz.
      destruct (decide (t' = marker_set m)) as [->|Hn].
      * rewrite lookup_delete_eq, Ht. simpl.
        destruct (decide (i' = i)) as [->|Hi'].
        -- by rewrite decide_True.
        -- rewrite decide_False by (by intros [_ ?]).
           rewrite <- (lookup_delete_ne obs i i') by done.
           by rewrite Hsz, lookup_empty.
      * rewrite lookup_delete_ne by done. rewrite decide_False; [done|].
        by intros [? _].
  - eexists. split; [done|]. simpl. split_and!; try done.
    + rewrite decide_False; [done|]. by intros [? _].
    + intros t' i'. unfold observation. simpl. rewrite lookup_insert_observation.
      destruct (decide (t' = marker_set m)) as [->|Hn].
      * rewrite Ht. simpl. destruct (decide (i' = i)) as [->|Hi'].
        -- rewrite lookup_delete_eq. by rewrite decide_True.
        -- rewrite lookup_delete_ne by done. rewrite decide_False; [done|].
           by intros [_ ?].
      * rewrite decide_False; [done|]. by intros [? _].
Qed.

Lemma delete_unchanged s m reply :
  reply = false
  ∨ point_data s !! marker_set m ≫= (λ obs, find_marker obs m) = None →
  (delete_point_observation m reply s).1 = s
  ∧ (delete_point_observation m reply s).2 ≠ Done.
Proof.
  unfold delete_point_observation.
  destruct (point_data s !! marker_set m) as [obs|]; simpl; [|done].
  destruct (find_marker obs m); [|done].
  intros [->|?]; done.
Qed.

Lemma delete_well_formed s m reply :
  well_formed s → well_formed (delete_point_observation m reply s).1.
Proof.
  intros Hwf.
  destruct (point_data s !! marker_set m ≫= (λ obs, find_marker obs m))
    as [i|] eqn:Hfind.
  2:{ by rewrite (proj1 (delete_unchanged s m reply (or_intror Hfind))). }
  destruct reply.
  2:{ by rewrite (proj1 (delete_unchanged s m false (or_introl eq_refl))). }
  destruct (point_data s !! marker_set m) as [obs|] eqn:Ht; [|done].
  simpl in Hfind.
  destruct (delete_found s m i obs Ht Hfind)
    as (s' & -> & Hnext & Hcnt & Hpd & Hact' & Hobs).
  simpl. pose proof (well_formed_markers_ok s Hwf) as Hmk.
  destruct Hwf as [Hids Hact Hne _ _].
  eapply (markers_ok_removed _ (observation s')) in Hmk as [Hm Hu]; [|exact Hobs].
  rewrite <- Hcnt in Hm.
  split; [| | |exact Hm|exact Hu].
  - intros t'. rewrite Hpd, Hnext. intros Hs. apply Hids.
    destruct (decide (t' = marker_set m)) as [->|Hn]; [by eexists|].
    case_decide.
    + by rewrite lookup_delete_ne in Hs.
    + by rewrite lookup_insert_ne in Hs.
  - rewrite Hpd, Hact'.
    destruct (decide (size (delete i obs) = 0)) as [Hsz|Hsz].
    + destruct (decide (active_point_set_index s = marker_set m)) as [Ha|Ha].
      * left. by rewrite decide_True.
      * rewrite decide_False by (by intros [_ ?]).
        destruct Hact as [?|Hs]; [by left|right].
        by rewrite lookup_delete_ne.
    + rewrite decide_False by (by intros [? _]).
      destruct Hact as [?|Hs]; [by left|right].
      destruct (decide (active_point_set_index s = marker_set m)) as [->|Hn].
      * rewrite lookup_insert_eq. by eexists.
      * by rewrite lookup_insert_ne.
  - intros t' obs'. rewrite Hpd.
    destruct (decide (size (delete i obs) = 0)) as [Hsz|Hsz].
    + destruct (decide (t' = marker_set m)) as [->|Hn].
      * by rewrite lookup_delete_eq.
      * rewrite lookup_delete_ne by done. apply Hne.
    + destruct (decide (t' = marker_set m)) as [->|Hn].
      * rewrite lookup_insert_eq. intros [= <-] Hemp. apply Hsz.
        rewrite Hemp. apply map_size_empty.
      * rewrite lookup_insert_ne by done. apply Hne.
Qed.

(** *** [finalize_marker_move] *)

Lemma move_found s m i obs p :
  point_data s !! marker_set m = Some obs →
  find_marker obs m = Some i →
  ∃ s', finalize_marker_move m p s = (s', Done)
    ∧ next_point_set_id s' = next_point_set_id s
    ∧ markers_created s' = markers_created s
    ∧ active_point_set_index s' = active_point_set_index s
    ∧ point_data s' = <[marker_set m := <[i := (p, m)]> obs]> (point_data s)
    ∧ ∀ t' i', observation s' t' i'
        = if decide (t' = marker_set m ∧ i' = i) then Some (p, m)
          else observation s t' i'.
Proof.
  intros Ht Hf. unfold finalize_marker_move. rewrite Ht. simpl. rewrite Hf.
  eexists. split; [done|]. simpl. split_and!; try done.
  intros t' i'. unfold observation. simpl. rewrite lookup_insert_observation.
  destruct (decide (t' = marker_set m)) as [->|Hn].
  - rewrite Ht. simpl. destruct (decide (i' = i)) as [->|Hi'].
    + rewrite lookup_insert_eq. by rewrite decide_True.
    + rewrite lookup_insert_ne by done. rewrite decide_False; [done|].
      by intros [_ ?].
  - rewrite decide_False; [done|]. by intros [? _].
Qed.

Lemma move_well_formed s m p :
  well_formed s → well_formed (finalize_marker_move m p s).1.
Proof.
  intros Hwf.
  destruct (point_data s !! marker_set m) as [obs|] eqn:Ht.
  2:{ unfold finalize_marker_move. by rewrite Ht. }
  destruct (find_marker obs m) as [i|] eqn:Hfind.
  2:{ unfold finalize_marker_move. rewrite Ht. simpl. by rewrite Hfind. }
  destruct (move_found s m i obs p Ht Hfind)
    as (s' & -> & Hnext & Hcnt & Hact' & Hpd & Hobs).
  simpl. pose proof (well_formed_markers_ok s Hwf) as Hmk.
  destruct Hwf as [Hids Hact Hne _ _].
  apply find_marker_Some in Hfind as [c Hc].
  eapply (markers_ok_moved _ (observation s') _ (marker_set m) i c p m)
    in Hmk as [Hm Hu]; [|apply observation_Some; eauto|exact Hobs].
  rewrite <- Hcnt in Hm.
  split; [| | |exact Hm|exact Hu].
  - intros t'. rewrite Hpd, Hnext. intros Hs. apply Hids.
    destruct (decide (t' = marker_set m)) as [->|Hn]; [by eexists|].
    by rewrite lookup_insert_ne in Hs.
  - rewrite Hpd, Hact'. destruct Hact as [?|Hs]; [by left|right].
    destruct (decide (active_point_set_index s = marker_set m)) as [->|Hn].
    + rewrite lookup_insert_eq. by eexists.
    + by rewrite lookup_insert_ne.
  - intros t' obs'. rewrite Hpd.
    destruct (decide (t' = marker_set m)) as [->|Hn].
    + rewrite lookup_insert_eq. intros [= <-]. apply insert_non_empty.
    + rewrite lookup_insert_ne by done. apply Hne.
Qed.

(** The observations of the sample store. *)
Lemma sample_state_observations t i x :
  observation sample_state t i = Some x →
  (t = 0%Z ∧ i = 0 ∧ x = (sample_point, {| marker_uid := 0; marker_set := 0 |}))
  ∨ (t = 0%Z ∧ i = 1
     ∧ x = ({| qx := 11; qy := 21 |}, {| marker_uid := 1; marker_set := 0 |}))
  ∨ (t = 1%Z ∧ i = 1
     ∧ x = ({| qx := 12; qy := 22 |}, {| marker_uid := 2; marker_set := 1 |})).
Proof.
  unfold observation, sample_state. simpl.
  intros (obs & Ht & Hi)%bind_Some.
  apply lookup_insert_Some in Ht as [[<- <-]|[Hne Ht]].
  - apply lookup_insert_Some in Hi as [[<- <-]|[Hne Hi]]; [by left|].
    apply lookup_singleton_Some in Hi as [<- <-]. by right; left.
  - apply lookup_singleton_Some in Ht as [<- <-].
    apply lookup_singleton_Some in Hi as [<- <-]. by right; right.
Qed.

Lemma sample_state_well_formed : well_formed sample_state.
Proof.
  split.
  - intros t [obs Ht]. unfold sample_state in *. simpl in *.
    apply lookup_insert_Some in Ht as [[<- _]|[_ Ht]]; [lia|].
    apply lookup_singleton_Some in Ht as [<- _]. lia.
  - right. by eexists.
  - intros t obs Ht. unfold sample_state in Ht. simpl in Ht.
    apply lookup_insert_Some in Ht as [[_ <-]|[_ Ht]]; [apply insert_non_empty|].
    apply lookup_singleton_Some in Ht as [_ <-]. apply map_non_empty_singleton.
  - intros t i c m Hobs.
    apply sample_state_observations in Hobs
      as [(-> & -> & [= -> ->])|[(-> & -> & [= -> ->])|(-> & -> & [= -> ->])]];
      simpl; split; (done || lia).
  - intros t i c m t' i' c' m' H1 H2.
    apply sample_state_observations in H1
      as [(-> & -> & [= -> ->])|[(-> & -> & [= -> ->])|(-> & -> & [= -> ->])]];
      apply sample_state_observations in H2
        as [(-> & -> & [= -> ->])|[(-> & -> & [= -> ->])|(-> & -> & [= -> ->])]];
      simpl; intros ?; (done || lia).
Qed.

(** In a well-formed store the search loop finds the image of a stored
    marker, and no other. *)
Lemma find_marker_stored s t i c m :
  well_formed s → observation s t i = Some (c, m) →
  marker_set m = t
  ∧ ∃ obs, point_data s !! t = Some obs ∧ find_marker obs m = Some i.
Proof.
  intros Hwf Hobs. pose proof (wf_marker s Hwf t i c m Hobs) as [Hset _].
  split; [done|]. pose proof Hobs as (obs & Ht & Hi)%observation_Some.
  exists obs. split; [done|].
  destruct (find_marker obs m) as [j|] eqn:Hf.
  - apply find_marker_Some in Hf as [c' Hj].
    assert (observation s t j = Some (c', m)) as Hobs'.
    { apply observation_Some. eauto. }
    by destruct (wf_unique s Hwf t j c' m t i c m Hobs' Hobs eq_refl) as [_ ->].
  - by apply (find_marker_None obs m i c) in Hf.
Qed.

(** X4. In a well-formed store, the confirmed deletion of a stored marker
    removes the observation that holds it and no other; the set stays in the
    store exactly when it has another observation; the id counter is not
    changed and the store stays well formed. *)
Theorem marker_delete_removes_its_observation s t i c m :
  well_formed s → observation s t i = Some (c, m) →
  ∃ s',
    delete_point_observation m true s = (s', Done)
    ∧ (∀ t' i', observation s' t' i'
         = if decide (t' = t ∧ i' = i) then None else observation s t' i')
    ∧ (is_Some (point_data s' !! t)
       ↔ ∃ j, j ≠ i ∧ is_Some (observation s t j))
    ∧ next_point_set_id s' = next_point_set_id s
    ∧ well_formed s'.
Proof.
  intros Hwf Hobs.
  destruct (find_marker_stored s t i c m Hwf Hobs) as (<- & obs & Ht & Hf).
  destruct (delete_found s m i obs Ht Hf)
    as (s' & Hdel & Hnext & _ & Hpd & _ & Hobs').
  exists s'. split_and!; try done.
  - rewrite Hpd. destruct (decide (size (delete i obs) = 0)) as [Hsz|Hsz].
    + rewrite lookup_delete_eq. split; [by intros []|].
      intros (j & Hj & x & Hx). apply map_size_empty_iff in Hsz.
      apply observation_Some in Hx as (obs' & Ht' & Hx).
      rewrite Ht in Ht'. injection Ht' as <-.
      rewrite <- (lookup_delete_ne obs i j), Hsz, lookup_empty in Hx by done.
      done.
    + rewrite lookup_insert_eq. split; [intros _|by eexists].
      assert (delete i obs ≠ ∅) as Hne.
      { intros He. apply Hsz. rewrite He. apply map_size_empty. }
      apply map_choose in Hne as (j & x & Hj).
      apply lookup_delete_Some in Hj as [Hij Hj].
      exists j. split; [done|]. exists x. apply observation_Some. eauto.
  - pose proof (delete_well_formed s m true Hwf) as Hwf'.
    by rewrite Hdel in Hwf'.
Qed.

Lemma marker_delete_removes_its_observation_witness :
  ∃ s',
    delete_point_observation {| marker_uid := 1; marker_set := 0 |} true
      sample_state = (s', Done)
    ∧ (∀ t' i', observation s' t' i'
         = if decide (t' = 0%Z ∧ i' = 1) then None
           else observation sample_state t' i')
    ∧ (is_Some (point_data s' !! 0%Z)
       ↔ ∃ j, j ≠ 1 ∧ is_Some (observation sample_state 0 j))
    ∧ next_point_set_id s' = next_point_set_id sample_state
    ∧ well_formed s'.
Proof.
  apply (marker_delete_removes_its_observation sample_state 0 1
           {| qx := 11; qy := 21 |} {| marker_uid := 1; marker_set := 0 |}).
  - exact sample_state_well_formed.
  - reflexivity.
Defined.

(** X5. In a well-formed store, the end of a drag of a stored marker gives
    the observation that holds the marker the final position, with the same
    marker, and changes nothing else: no other observation, not the id
    counter, not the active set. *)
Theorem marker_move_updates_its_observation s t i c m p :
  well_formed s → observation s t i = Some (c, m) →
  ∃ s',
    finalize_marker_move m p s = (s', Done)
    ∧ (∀ t' i', observation s' t' i'
         = if decide (t' = t ∧ i' = i) then Some (p, m) else observation s t' i')
    ∧ next_point_set_id s' = next_point_set_id s
    ∧ active_point_set_index s' = active_point_set_index s
    ∧ well_formed s'.
Proof.
  intros Hwf Hobs.
  destruct (find_marker_stored s t i c m Hwf Hobs) as (<- & obs & Ht & Hf).
  destruct (move_found s m i obs p Ht Hf)
    as (s' & Hmove & Hnext & _ & Hact & _ & Hobs').
  exists s'. split_and!; try done.
  pose proof (move_well_formed s m p Hwf) as Hwf'.
  by rewrite Hmove in Hwf'.
Qed.

Lemma marker_move_updates_its_observation_witness :
  ∃ s',
    finalize_marker_move {| marker_uid := 2; marker_set := 1 |} sample_point
      sample_state = (s', Done)
    ∧ (∀ t' i', observation s' t' i'
         = if decide (t' = 1%Z ∧ i' = 1)
           then Some (sample_point, {| marker_uid := 2; marker_set := 1 |})
           else observation sample_state t' i')
    ∧ next_point_set_id s' = next_point_set_id sample_state
    ∧ active_point_set_index s' = active_point_set_index sample_state
    ∧ well_formed s'.
Proof.
  apply (marker_move_updates_its_observation sample_state 1 1
           {| qx := 12; qy := 22 |} {| marker_uid := 2; marker_set := 1 |}).
  - exact sample_state_well_formed.
  - reflexivity.
Defined.

Lemma NoDup_omap_strong {A B} (f : A → option B) (l : list A) :
  NoDup l →
  (∀ x y z, x ∈ l → y ∈ l → f x = Some z → f y = Some z → x = y) →
  NoDup (omap f l).
Proof.
  induction 1 as [|a l Ha Hl IH]; intros Hinj; [constructor|].
  cbn [omap list_omap]. 
  assert (NoDup (omap f l)) as IH'.
  { apply IH. intros x y z Hx Hy. apply Hinj; by right. }
  destruct (f a) as [b|] eqn:Hfa; [|done].
  constructor; [|done].
  intros (y & Hy & Hfy)%list_elem_of_omap.
  apply Ha. rewrite (Hinj a y b); [done|by left|by right|done|done].
Qed.

Lemma elem_of_get_markers_for_image s i m :
  m ∈ get_markers_for_image i s ↔ ∃ t c, observation s t i = Some (c, m).
Proof.
  unfold get_markers_for_image. rewrite list_elem_of_omap. split.
  - intros ([t obs] & Hin%elem_of_map_to_list & Hm). simpl in Hm.
    apply fmap_Some in Hm as ([c m'] & Hi & ->). simpl.
    exists t, c. apply observation_Some. eauto.
  - intros (t & c & (obs & Ht & Hi)%observation_Some).
    exists (t, obs). split; [by apply elem_of_map_to_list|].
    simpl. by rewrite Hi.
Qed.

(** X6. In a well-formed store, the markers [get_markers_for_image]
    returns for an image are exactly the markers of the observations stored
    for that image, each of them once. *)
Theorem markers_for_image_exact s i :
  well_formed s →
  (∀ m, m ∈ get_markers_for_image i s
        ↔ ∃ t c, observation s t i = Some (c, m))
  ∧ NoDup (get_markers_for_image i s).
Proof.
  intros Hwf. split; [intros; apply elem_of_get_markers_for_image|].
  unfold get_markers_for_image.
  apply NoDup_omap_strong; [apply NoDup_map_to_list|].
  intros [t obs] [t' obs'] m Hx%elem_of_map_to_list Hy%elem_of_map_to_list.
  simpl. intros ([c m1] & Hi & ->)%fmap_Some ([c' m2] & Hi' & Hm)%fmap_Some.
  simpl in Hm. subst m2.
  assert (observation s t i = Some (c, m1)) as H1 by (apply observation_Some; eauto).
  assert (observation s t' i = Some (c', m1)) as H2 by (apply observation_Some; eauto).
  destruct (wf_unique s Hwf _ _ _ _ _ _ _ _ H1 H2 eq_refl) as [<- _].
  rewrite Hx in Hy. by injection Hy as <-.
Qed.

Lemma markers_for_image_exact_witness :
  (∀ m, m ∈ get_markers_for_image 1 sample_state
        ↔ ∃ t c, observation sample_state t 1 = Some (c, m))
  ∧ NoDup (get_markers_for_image 1 sample_state).
Proof.
  apply (markers_for_image_exact sample_state 1).
  exact sample_state_well_formed.
Defined.

End Session.
End StoreSessionFacts.

(** ** Marker construction and the handlers that reach it *)

Module PointHandlingFacts.
Import MarkerWidget PointHandling.

Section Handlers.
Implicit Types (w : Window) (names : gmap Z string) (t : Z) (i : nat)
  (c : QPointF).

(** The constructor returns for a number, raises for a string; the caller
    passes a string. *)
Lemma marker_constructor_cases names (uid : nat) c t :
  create_marker_item names uid c t = Raise "TypeError"
  ∧ (∀ size, (∀ s, size ≠ PyStr s) →
       CrosshairMarker_init uid c t size
       = Return {| marker_uid := uid; marker_set := t |})
  ∧ (∀ s, CrosshairMarker_init uid c t (PyStr s) = Raise "TypeError")
  ∧ CrosshairMarker_init uid c t MARKER_SIZE
    = Return {| marker_uid := uid; marker_set := t |}.
Proof.
  split_and!.
  - reflexivity.
  - intros [x|n|s] Hsize; [reflexivity..|]. by destruct (Hsize s).
  - reflexivity.
  - reflexivity.
Qed.

Lemma create_new_point_set_raises i c w :
  create_new_point_set i c w
  = (with_store w
       {| Store.point_data := Store.point_data (store w);
          Store.next_point_set_id := (Store.next_point_set_id (store w) + 1)%Z;
          Store.active_point_set_index := Store.active_point_set_index (store w);
          Store.markers_created := Store.markers_created (store w) |},
     Raise "TypeError").
Proof. reflexivity. Qed.

Lemma add_point_to_set_cases t i c w :
  add_point_to_set t i c w
  = (w, match Store.point_data (store w) !! t with
        | None => Return Store.NonExistentSet
        | Some observations =>
            match observations !! i with
            | Some _ => Return Store.AlreadyHasPoint
            | None => Raise "TypeError"
            end
        end).
Proof.
  unfold add_point_to_set.
  destruct (Store.point_data (store w) !! t) as [obs|]; [|done].
  by destruct (obs !! i).
Qed.

(** X7. The marker that [create_marker_item] asks for is never made: the
    call passes the name of the set, a string, where the constructor of
    [CrosshairMarker] takes the size, and the constructor divides the size
    by 2.0, which raises [TypeError] for a string (with a number, as the
    default size is, it returns).  So no call of [create_new_point_set] or
    [add_point_to_set] stores an observation: [create_new_point_set] uses
    up an id (the counter is incremented before the marker is asked for)
    and raises [TypeError], with the point data, the active set and the
    names as they were; [add_point_to_set] leaves the window as it was and
    ends with the non-existent-set message, with the already-has-a-point
    message, or, when both checks pass, with [TypeError]. *)
Theorem point_creation_stores_nothing t i c w :
  (∀ names uid,
     create_marker_item names uid c t = Raise "TypeError"
     ∧ (∀ name, CrosshairMarker_init uid c t (PyStr name) = Raise "TypeError")
     ∧ CrosshairMarker_init uid c t MARKER_SIZE
       = Return {| marker_uid := uid; marker_set := t |})
  ∧ (∃ w',
       create_new_point_set i c w = (w', Raise "TypeError")
       ∧ Store.point_data (store w') = Store.point_data (store w)
       ∧ Store.next_point_set_id (store w')
         = (Store.next_point_set_id (store w) + 1)%Z
       ∧ Store.active_point_set_index (store w')
         = Store.active_point_set_index (store w)
       ∧ point_set_names w' = point_set_names w)
  ∧ (add_point_to_set t i c w).1 = w
  ∧ ((add_point_to_set t i c w).2 = Return Store.NonExistentSet
     ↔ Store.point_data (store w) !! t = None)
  ∧ ((add_point_to_set t i c w).2 = Return Store.AlreadyHasPoint
     ↔ is_Some (Store.observation (store w) t i))
  ∧ ((add_point_to_set t i c w).2 = Raise "TypeError"
     ↔ is_Some (Store.point_data (store w) !! t)
       ∧ Store.observation (store w) t i = None)
  ∧ (add_point_to_set t i c w).2 ≠ Return Store.Done.
Proof.
  split.
  { intros names uid.
    by destruct (marker_constructor_cases names uid c t) as (? & _ & ? & ?). }
  split.
  { eexists. rewrite create_new_point_set_raises. by split_and!. }
  rewrite add_point_to_set_cases. unfold Store.observation. simpl.
  destruct (Store.point_data (store w) !! t) as [obs|]; simpl.
  - destruct (obs !! i) as [x|]; simpl.
    + split; [done|]. split; [done|]. split; [split; [by eexists|done]|].
      split; [|done]. split; [done|]. by intros [_ ?].
    + split; [done|]. split; [done|]. split; [split; [done|by intros []]|].
      split; [|done]. split; [intros _; split; [by eexists|done]|done].
  - split; [done|]. split; [done|]. split; [split; [done|by intros []]|].
    split; [|done]. split; [done|]. by intros [[] _].
Qed.

Lemma handle_scene_click_cases add_tool current_image inside c w :
  handle_scene_click add_tool current_image inside c w
  = if negb add_tool then (w, ToolNotChecked)
    else match current_image with
         | None => (w, LoadImageFirst)
         | Some i =>
             if negb inside then (w, OutsideImage)
             else if decide (Store.active_point_set_index (store w) = (-1)%Z
                             ∨ is_Some (Store.observation (store w)
                                          (Store.active_point_set_index (store w)) i))
             then ((create_new_point_set i c w).1, ClickRaised "TypeError")
             else if decide (is_Some (Store.point_data (store w)
                                        !! Store.active_point_set_index (store w)))
             then (w, ClickRaised "TypeError")
             else (w, Placed Store.NonExistentSet)
         end.
Proof.
  unfold handle_scene_click. destruct add_tool; [|done].
  destruct current_image as [i|]; [|done]. destruct inside; [|done].
  cbn [negb]. rewrite create_new_point_set_raises, add_point_to_set_cases.
  unfold Store.observation.
  destruct (decide (Store.active_point_set_index (store w) = (-1)%Z)) as [Ha|Ha].
  { by rewrite decide_True by (by left). }
  destruct (decide (Store.active_point_set_index (store w) = (-1)%Z ∨ _))
    as [[?|[x Hx]]|Hno]; [done| |].
  - apply bind_Some in Hx as (obs & Hobs & Hi). rewrite Hobs. simpl.
    by rewrite Hi.
  - destruct (decide (is_Some _)) as [[obs Hobs]|Hn].
    + rewrite Hobs. simpl. destruct (obs !! i) as [x|] eqn:Hi; [|done].
      destruct Hno. right. exists x. by rewrite Hobs.
    + apply eq_None_not_Some in Hn. rewrite Hn. simpl. by rewrite lookup_empty.
Qed.

(** X8. A click on the scene never stores an observation, whatever the
    tool, the displayed image and the active set: the store's point data,
    the active set and the names are as before.  A click that reaches the
    placement (add tool checked, an image displayed, the click inside it)
    ends with [TypeError]; the only other end is the non-existent-set
    message, when the active set is not in the store.  The id counter grows
    by one exactly when the click was going to create a set: no set is
    active, or the active set already has a point in the image. *)
Theorem scene_click_stores_no_observation add_tool current_image inside c w :
  Store.point_data (store (handle_scene_click add_tool current_image inside c w).1)
  = Store.point_data (store w)
  ∧ Store.active_point_set_index
      (store (handle_scene_click add_tool current_image inside c w).1)
    = Store.active_point_set_index (store w)
  ∧ point_set_names (handle_scene_click add_tool current_image inside c w).1
    = point_set_names w
  ∧ (handle_scene_click add_tool current_image inside c w).2 ≠ Placed Store.Done
  ∧ (∀ i, add_tool = true → current_image = Some i → inside = true →
       ((handle_scene_click add_tool current_image inside c w).2
          = ClickRaised "TypeError"
        ∨ ((handle_scene_click add_tool current_image inside c w).2
             = Placed Store.NonExistentSet
           ∧ Store.active_point_set_index (store w) ≠ (-1)%Z
           ∧ Store.point_data (store w)
               !! Store.active_point_set_index (store w) = None))
       ∧ Store.next_point_set_id
           (store (handle_scene_click add_tool current_image inside c w).1)
         = (Store.next_point_set_id (store w)
            + if decide (Store.active_point_set_index (store w) = (-1)%Z
                         ∨ is_Some (Store.observation (store w)
                                      (Store.active_point_set_index (store w)) i))
              then 1 else 0)%Z)
  ∧ (add_tool = false ∨ current_image = None ∨ inside = false →
     (handle_scene_click add_tool current_image inside c w).1 = w).
Proof.
  rewrite handle_scene_click_cases.
  destruct add_tool; cbn [negb].
  2:{ split_and!; first [done|intros [?|[?|?]]; done|intros; done]. }
  destruct current_image as [i|].
  2:{ split_and!; first [done|intros [?|[?|?]]; done|intros; done]. }
  destruct inside; cbn [negb].
  2:{ split_and!; first [done|intros [?|[?|?]]; done|intros; done]. }
  rewrite create_new_point_set_raises.
  destruct (decide (Store.active_point_set_index (store w) = (-1)%Z ∨ _))
    as [Hcreate|Hadd].
  - simpl. split_and!; try done.
    + intros i' _ [= <-] _. rewrite decide_True by done. split; [by left|done].
    + intros [?|[?|?]]; done.
  - destruct (decide (is_Some _)) as [Hs|Hn].
    + simpl. split_and!; try done.
      intros i' _ [= <-] _. rewrite decide_False by done.
      split; [by left|lia].
    + simpl. split_and!; try done.
      intros i' _ [= <-] _. rewrite decide_False by done. split; [|lia].
      right. split_and!; [done| |].
      * intros Ha. apply Hadd. by left.
      * by apply eq_None_not_Some.
Qed.

Lemma point_set_list_empty s :
  Store.point_data s = ∅ → Store.point_set_list s = [].
Proof.
  intros He. unfold Store.point_set_list, SolverInput.sorted_set_ids.
  rewrite He, dom_empty_L, elements_empty. reflexivity.
Qed.

Lemma handle_new_project w e :
  Store.point_data (store w) = ∅ →
  Store.active_point_set_index (store w) = (-1)%Z →
  Store.point_data (store (handle w e)) = ∅
  ∧ Store.active_point_set_index (store (handle w e)) = (-1)%Z
  ∧ point_set_names (handle w e) = point_set_names w
  ∧ Store.markers_created (store (handle w e)) = Store.markers_created (store w)
  ∧ Store.next_point_set_id (store (handle w e))
    = (Store.next_point_set_id (store w)
       + if reaches_placement e then 1 else 0)%Z.
Proof.
  intros Hpd Hact. destruct e as [add_tool ci inside c|dt m r|m c|row]; simpl.
  - rewrite handle_scene_click_cases.
    destruct add_tool; cbn [negb]; [|split_and!; (done || (simpl; lia))].
    destruct ci as [i|]; [|split_and!; (done || (simpl; lia))].
    destruct inside; cbn [negb]; [|split_and!; (done || (simpl; lia))].
    rewrite decide_True by (by left). rewrite create_new_point_set_raises.
    simpl. by split_and!.
  - unfold Store.handle_marker_action. destruct dt; [|split_and!; (done || (simpl; lia))].
    unfold Store.delete_point_observation. rewrite Hpd, lookup_empty. simpl.
    split_and!; (done || (simpl; lia)).
  - unfold Store.finalize_marker_move. rewrite Hpd, lookup_empty. simpl.
    split_and!; (done || (simpl; lia)).
  - rewrite point_set_list_empty by done.
    assert (row ≫= ([] !!.) = @None Z) as -> by (by destruct row).
    unfold Store.on_point_set_selection_changed. simpl.
    rewrite decide_False by (by rewrite Hact; intros []).
    split_and!; (done || (simpl; lia)).
Qed.

(** X9. In a project that starts empty, whatever the user does (clicks on
    the scene, clicks on markers, marker drags, selections in the list), the
    store never holds a point set: the point data stay empty, no set is
    active, no marker object exists; the id counter equals the number of
    clicks that reached the placement of a point. *)
Theorem session_store_stays_empty (events : list Event) :
  Store.point_data (store (session events)) = ∅
  ∧ Store.active_point_set_index (store (session events)) = (-1)%Z
  ∧ point_set_names (session events) = ∅
  ∧ Store.markers_created (store (session events)) = 0
  ∧ Store.next_point_set_id (store (session events))
    = Z.of_nat (placing_clicks events).
Proof.
  unfold session.
  assert (∀ w,
    Store.point_data (store w) = ∅ →
    Store.active_point_set_index (store w) = (-1)%Z →
    Store.point_data (store (foldl handle w events)) = ∅
    ∧ Store.active_point_set_index (store (foldl handle w events)) = (-1)%Z
    ∧ point_set_names (foldl handle w events) = point_set_names w
    ∧ Store.markers_created (store (foldl handle w events))
      = Store.markers_created (store w)
    ∧ Store.next_point_set_id (store (foldl handle w events))
      = (Store.next_point_set_id (store w) + Z.of_nat (placing_clicks events))%Z)
    as Hgen.
  { induction events as [|e events IH]; intros w Hpd Hact.
    { simpl. split_and!; (done || lia). }
    destruct (handle_new_project w e Hpd Hact) as (Hpd1 & Hact1 & Hn1 & Hm1 & Hc1).
    destruct (IH (handle w e) Hpd1 Hact1) as (Hpd2 & Hact2 & Hn2 & Hm2 & Hc2).
    cbn [foldl]. split_and!; [done|done|congruence|congruence|].
    rewrite Hc2, Hc1. cbn [placing_clicks foldr].
    fold (placing_clicks events).
    destruct (reaches_placement e); lia. }
  destruct (Hgen new_project eq_refl eq_refl) as (? & ? & ? & ? & Hc).
  split_and!; try done; rewrite Hc; simpl; lia.
Qed.

End Handlers.
End PointHandlingFacts.

(** ** The dimensions the database build reads *)

Module DimensionCheckFacts.
Import SolverInput DimensionCheck.

Section Cache.
Variable QPixmap : string → option (Z * Z).
Implicit Types (paths : list string) (dims : gmap nat (Z * Z)) (i j k : nat)
  (pd : gmap Z (gmap nat (QPointF * CrosshairMarker))).

Lemma load_dimensions_for_image_available paths i dims :
  load_dimensions_for_image QPixmap paths i dims
  = (match dims !! i, available QPixmap paths dims i with
     | None, Some d => <[i := d]> dims
     | _, _ => dims
     end, available QPixmap paths dims i).
Proof.
  unfold load_dimensions_for_image, available.
  destruct (dims !! i) as [d|]; [done|].
  destruct (paths !! i) as [path|]; simpl; [|done].
  destruct (String.prefix _ path); [done|]. by destruct (QPixmap path).
Qed.

Lemma available_cached paths dims i d :
  dims !! i = Some d → available QPixmap paths dims i = Some d.
Proof. intros Hd. unfold available. by rewrite Hd. Qed.

Lemma available_insert_ne paths dims i d j :
  i ≠ j →
  available QPixmap paths (<[i := d]> dims) j = available QPixmap paths dims j.
Proof. intros. unfold available. by rewrite lookup_insert_ne. Qed.

(** The loop over indices without repetition: what the cache holds
    afterwards, and where the loop stops. *)
Lemma verify_from_spec paths l dims :
  NoDup l →
  (∀ j d, dims !! j = Some d →
     (verify_from QPixmap paths l dims).1 !! j = Some d)
  ∧ (∀ j d, (verify_from QPixmap paths l dims).1 !! j = Some d →
       available QPixmap paths dims j = Some d
       ∧ (dims !! j = Some d ∨ j ∈ l))
  ∧ match (verify_from QPixmap paths l dims).2 with
    | None => ∀ j, j ∈ l → is_Some ((verify_from QPixmap paths l dims).1 !! j)
    | Some k =>
        ∃ l1 l2, l = l1 ++ k :: l2
          ∧ available QPixmap paths dims k = None
          ∧ ∀ j, j ∈ l1 → is_Some ((verify_from QPixmap paths l dims).1 !! j)
    end.
Proof.
  revert dims. induction l as [|idx rest IH]; intros dims Hnd.
  { simpl. split_and!; [done| |by intros ? ?%elem_of_nil].
    intros j d Hj. split; [by apply available_cached|by left]. }
  apply NoDup_cons in Hnd as [Hidx Hnd]. cbn [verify_from].
  destruct (decide (is_Some (dims !! idx))) as [[d0 Hc]|Hnc].
  - destruct (IH dims Hnd) as (Hkeep & Hsrc & Hend). split_and!.
    + done.
    + intros j d Hj. destruct (Hsrc j d Hj) as [Ha [?|?]].
      * split; [done|by left].
      * split; [done|]. right. by right.
    + destruct (verify_from QPixmap paths rest dims).2 as [k|].
      * destruct Hend as (l1 & l2 & -> & Hk & Hl1).
        exists (idx :: l1), l2. split_and!; [done|done|].
        intros j [->|Hj]%elem_of_cons; [|by apply Hl1].
        rewrite (Hkeep idx d0 Hc). by eexists.
      * intros j [->|Hj]%elem_of_cons; [|by apply Hend].
        rewrite (Hkeep idx d0 Hc). by eexists.
  - apply eq_None_not_Some in Hnc.
    rewrite load_dimensions_for_image_available, Hnc.
    destruct (available QPixmap paths dims idx) as [d|] eqn:Hav.
    + destruct (IH (<[idx := d]> dims) Hnd) as (Hkeep & Hsrc & Hend).
      assert (∀ j, j ≠ idx →
                available QPixmap paths (<[idx := d]> dims) j
                = available QPixmap paths dims j) as Hne.
      { intros j Hj. by apply available_insert_ne. }
      split_and!.
      * intros j d' Hj. apply Hkeep.
        rewrite lookup_insert_ne; [done|]. intros <-. congruence.
      * intros j d' Hj. destruct (Hsrc j d' Hj) as [Ha Hor].
        destruct (decide (j = idx)) as [->|Hji].
        -- rewrite (available_cached _ _ _ d) in Ha by apply lookup_insert_eq.
           injection Ha as <-. split; [done|]. right. left.
        -- rewrite Hne in Ha by done. split; [done|].
           rewrite lookup_insert_ne in Hor by done.
           destruct Hor as [?|?]; [by left|]. right. by right.
      * destruct (verify_from QPixmap paths rest (<[idx := d]> dims)).2 as [k|].
        -- destruct Hend as (l1 & l2 & -> & Hk & Hl1).
           exists (idx :: l1), l2. split_and!; [done| |].
           ++ rewrite <- (Hne k); [done|]. intros ->. apply Hidx.
              apply elem_of_app. right. left.
           ++ intros j [->|Hj]%elem_of_cons; [|by apply Hl1].
              rewrite (Hkeep idx d) by apply lookup_insert_eq. by eexists.
        -- intros j [->|Hj]%elem_of_cons; [|by apply Hend].
           rewrite (Hkeep idx d) by apply lookup_insert_eq. by eexists.
    + simpl. split_and!; [done| |].
      * intros j d Hj. split; [by apply available_cached|by left].
      * exists [], rest. split_and!; [done|done|by intros ? ?%elem_of_nil].
Qed.

(** A split of [range(n)] at one of its elements. *)
Lemma seq_split_at n l1 k l2 :
  seq 0 n = l1 ++ k :: l2 → k < n ∧ ∀ j, j ∈ l1 ↔ j < k.
Proof.
  intros Hl.
  assert (seq 0 n !! length l1 = Some k) as Hk.
  { rewrite Hl. by rewrite list_lookup_middle. }
  apply lookup_seq in Hk as [Hk Hlt]. simpl in Hk. subst k.
  split; [done|]. intros j. split.
  - intros [m Hm]%list_elem_of_lookup.
    pose proof (lookup_lt_Some _ _ _ Hm) as Hml.
    assert (seq 0 n !! m = Some j) as Hs.
    { rewrite Hl. by rewrite lookup_app_l. }
    apply lookup_seq in Hs as [-> _]. done.
  - intros Hj. apply list_elem_of_lookup. exists j.
    assert (seq 0 n !! j = Some j) as Hs by (apply lookup_seq; lia).
    rewrite Hl in Hs. by rewrite lookup_app_l in Hs.
Qed.

(** X22. The loop of [run_calibration] that verifies the image dimensions
    gets through exactly when every image has dimensions available: in the
    cache, or else a path that is no synthetic placeholder and whose pixmap
    loads.  Otherwise it stops at the first image that has none.  The loop
    never changes an entry the cache had; what it adds are the sizes of the
    pixmaps it read; and the images it got past (all of them when it gets
    through) have their available dimensions in the cache afterwards. *)
Theorem dimension_check_spec paths dims :
  let n := length paths in
  let r := verify_image_dimensions QPixmap paths dims in
  (r.2 = None ↔ ∀ i, i < n → is_Some (available QPixmap paths dims i))
  ∧ (∀ k, r.2 = Some k ↔
          k < n ∧ available QPixmap paths dims k = None
          ∧ ∀ i, i < k → is_Some (available QPixmap paths dims i))
  ∧ (∀ i d, dims !! i = Some d → r.1 !! i = Some d)
  ∧ (∀ i d, r.1 !! i = Some d →
       available QPixmap paths dims i = Some d
       ∧ (dims !! i = Some d ∨ i < n))
  ∧ (∀ i, i < n → (r.2 = None ∨ ∃ k, r.2 = Some k ∧ i < k) →
       r.1 !! i = available QPixmap paths dims i
       ∧ is_Some (r.1 !! i)).
Proof.
  intros n r. subst r. unfold verify_image_dimensions. fold n.
  destruct (verify_from_spec paths (seq 0 n) dims (NoDup_seq 0 n))
    as (Hkeep & Hsrc & Hend).
  assert (∀ i, is_Some ((verify_from QPixmap paths (seq 0 n) dims).1 !! i) →
               (verify_from QPixmap paths (seq 0 n) dims).1 !! i
               = available QPixmap paths dims i) as Hval.
  { intros i [d Hd]. rewrite Hd. by destruct (Hsrc i d Hd) as [-> _]. }
  assert (∀ i, is_Some ((verify_from QPixmap paths (seq 0 n) dims).1 !! i) →
               is_Some (available QPixmap paths dims i)) as Hav.
  { intros i Hs. by rewrite <- Hval. }
  destruct (verify_from QPixmap paths (seq 0 n) dims).2 as [k|] eqn:Hr.
  - destruct Hend as (l1 & l2 & Hl & Hk & Hl1).
    apply seq_split_at in Hl as [Hkn Hin].
    split_and!.
    + split; [done|]. intros Hall. destruct (Hall k Hkn) as [? ?]. congruence.
    + intros k'. split.
      * intros [= <-]. split_and!; [done..|].
        intros i Hi. apply Hav, Hl1, Hin, Hi.
      * intros (Hk'n & Hk' & Hbefore). f_equal.
        destruct (Nat.lt_trichotomy k k') as [Hlt|[?|Hlt]]; [|done|].
        -- destruct (Hbefore k Hlt) as [? ?]. congruence.
        -- assert (is_Some (available QPixmap paths dims k')) as [? ?]
             by (apply Hav, Hl1, Hin, Hlt). congruence.
    + done.
    + intros i d Hd. destruct (Hsrc i d Hd) as [Ha [?|Hi%elem_of_seq]].
      * split; [done|by left].
      * split; [done|]. right. lia.
    + intros i Hi [?|(k' & [= <-] & Hik)]; [done|].
      assert (is_Some ((verify_from QPixmap paths (seq 0 n) dims).1 !! i)) as Hs
        by (apply Hl1, Hin, Hik).
      split; [by apply Hval|done].
  - split_and!.
    + split; [|done]. intros _ i Hi. apply Hav, Hend, elem_of_seq. lia.
    + intros k. split; [done|]. intros (Hkn & Hk & _).
      assert (is_Some (available QPixmap paths dims k)) as [? ?]
        by (apply Hav, Hend, elem_of_seq; lia). congruence.
    + done.
    + intros i d Hd. destruct (Hsrc i d Hd) as [Ha [?|Hi%elem_of_seq]].
      * split; [done|by left].
      * split; [done|]. right. lia.
    + intros i Hi _.
      assert (is_Some ((verify_from QPixmap paths (seq 0 n) dims).1 !! i)) as Hs
        by (apply Hend, elem_of_seq; lia).
      split; [by apply Hval|done].
Qed.

(** X23. With the cache as a dimension check that got through leaves it,
    the database build finds dimensions for every image: a call that gets
    as far as the open database and whose writes return gives [True]
    exactly when the available dimensions of every image (cached before the
    check, or else the size of its pixmap) have a positive width and a
    positive height, and in no case fails for a missing dimension; and when
    it returns [True], the camera of every image has the image's available
    dimensions. *)
Theorem database_build_after_dimension_check (env : DatabaseEnvironment)
    pd paths dims (old : list (list (Z * nat))) :
  (verify_image_dimensions QPixmap paths dims).2 = None →
  (∀ i, i < length paths →
     (verify_image_dimensions QPixmap paths dims).1 !! i
     = available QPixmap paths dims i
     ∧ is_Some (available QPixmap paths dims i))
  ∧ ((∃ db, (populate_colmap_database_call env pd
               (verify_image_dimensions QPixmap paths dims).1 (length paths)
               old).2 = PopulateTrue db)
     ↔ database_opened env ∧ writes_return env = true
       ∧ ∀ i, i < length paths →
           ∃ w h, available QPixmap paths dims i = Some (w, h)
                  ∧ (0 < w)%Z ∧ (0 < h)%Z)
  ∧ (∀ db, (populate_colmap_database_call env pd
              (verify_image_dimensions QPixmap paths dims).1 (length paths)
              old).2 = PopulateTrue db →
       ∀ i, i < length paths →
         ∃ w h, available QPixmap paths dims i = Some (w, h)
                ∧ (0 < w)%Z ∧ (0 < h)%Z
                ∧ db_cameras db !! i =
                    Some (i, {| model := SIMPLE_PINHOLE; width := w; height := h;
                                params := [(1.2 * IZR (Z.max w h))%R;
                                           (IZR w / 2)%R; (IZR h / 2)%R] |})).
Proof.
  intros Hpass. unfold verify_image_dimensions in *.
  set (n := length paths) in *.
  destruct (verify_from_spec paths (seq 0 n) dims (NoDup_seq 0 n))
    as (_ & Hsrc & Hend).
  rewrite Hpass in Hend.
  set (dims' := (verify_from QPixmap paths (seq 0 n) dims).1) in *.
  assert (∀ i, i < n → dims' !! i = available QPixmap paths dims i) as Hval.
  { intros i Hi. destruct (Hend i) as [d Hd]; [apply elem_of_seq; lia|].
    rewrite Hd. by destruct (Hsrc i d Hd) as [-> _]. }
  destruct (SolverInputFacts.populate_cameras pd dims' n) as [Hfail Hok].
  split_and!.
  - intros i Hi. split; [by apply Hval|].
    rewrite <- Hval by done. apply Hend, elem_of_seq. lia.
  - split.
    + intros [db Hdb].
      apply SolverInputFacts.populate_call_True in Hdb as (Hopen & Hw & Hbody).
      split_and!; [done..|]. intros i Hi.
      destruct (Hok db Hbody i Hi) as (cam & Hcam & _).
      apply SolverInputFacts.make_camera_Some in Hcam
        as (w & h & Hd & ? & ? & _).
      exists w, h. by rewrite <- Hval.
    + intros (Hopen & Hw & Hall).
      assert (is_Some (populate_colmap_database pd dims' n).2) as [db Hdb].
      { apply not_eq_None_Some. intros (i & Hi & Hnone)%Hfail.
        destruct (Hall i Hi) as (w & h & Hd & ? & ?).
        assert (is_Some (make_camera dims' i)) as [? ?]; [|congruence].
        eexists. apply SolverInputFacts.make_camera_Some.
        exists w, h. rewrite Hval by done. split_and!; [done..|]. reflexivity. }
      exists db. by apply SolverInputFacts.populate_call_True.
  - intros db Hdb i Hi.
    apply SolverInputFacts.populate_call_True in Hdb as (_ & _ & Hbody).
    destruct (Hok db Hbody i Hi) as (cam & Hcam & Hl).
    apply SolverInputFacts.make_camera_Some in Hcam as (w & h & Hd & Hw & Hh & ->).
    exists w, h. rewrite <- Hval by done. done.
Qed.

End Cache.

Lemma database_build_after_dimension_check_witness :
  (∀ i, i < length sample_paths →
     (verify_image_dimensions sample_pixmap sample_paths sample_cache).1 !! i
     = available sample_pixmap sample_paths sample_cache i
     ∧ is_Some (available sample_pixmap sample_paths sample_cache i))
  ∧ ((∃ db, (populate_colmap_database_call sample_environment sample_point_data
               (verify_image_dimensions sample_pixmap sample_paths sample_cache).1
               (length sample_paths) []).2 = PopulateTrue db)
     ↔ database_opened sample_environment
       ∧ writes_return sample_environment = true
       ∧ ∀ i, i < length sample_paths →
           ∃ w h, available sample_pixmap sample_paths sample_cache i = Some (w, h)
                  ∧ (0 < w)%Z ∧ (0 < h)%Z)
  ∧ (∀ db, (populate_colmap_database_call sample_environment sample_point_data
              (verify_image_dimensions sample_pixmap sample_paths sample_cache).1
              (length sample_paths) []).2 = PopulateTrue db →
       ∀ i, i < length sample_paths →
         ∃ w h, available sample_pixmap sample_paths sample_cache i = Some (w, h)
                ∧ (0 < w)%Z ∧ (0 < h)%Z
                ∧ db_cameras db !! i =
                    Some (i, {| model := SIMPLE_PINHOLE; width := w; height := h;
                                params := [(1.2 * IZR (Z.max w h))%R;
                                           (IZR w / 2)%R; (IZR h / 2)%R] |})).
Proof.
  apply (database_build_after_dimension_check sample_pixmap sample_environment
           sample_point_data sample_paths sample_cache []).
  reflexivity.
Defined.

End DimensionCheckFacts.



(** ** Parsing the solver's output *)

Module CalibrationFacts.
Import Geometry Calibration.

Section Selection.
Implicit Types (recs : list (Z * Reconstruction)) (acc : Largest).

(** The loop keeps its accumulator, or ends on the first item whose count
    of registered images exceeds the accumulator's and everything before
    it, and is not exceeded after it. *)
Lemma largest_fold recs acc :
  (foldl largest_step acc recs = acc
   ∧ ∀ m, m ∈ recs → (Z.of_nat (num_reg_images m.2) ≤ max_reg_images acc)%Z)
  ∨ (∃ before id rec after,
       recs = before ++ (id, rec) :: after
       ∧ foldl largest_step acc recs =
           {| largest_rec_id := id;
              max_reg_images := Z.of_nat (num_reg_images rec);
              largest_rec := Some rec |}
       ∧ (max_reg_images acc < Z.of_nat (num_reg_images rec))%Z
       ∧ (∀ m, m ∈ before → num_reg_images m.2 < num_reg_images rec)
       ∧ (∀ m, m ∈ after → num_reg_images m.2 ≤ num_reg_images rec)).
Proof.
  revert acc. induction recs as [|[id rec] recs IH]; intros acc.
  { left. split; [done|]. by intros m ?%elem_of_nil. }
  simpl.
  destruct (decide (Z.of_nat (num_reg_images rec) > max_reg_images acc)%Z)
    as [Hgt|Hle].
  - assert (largest_step acc (id, rec) =
              {| largest_rec_id := id;
                 max_reg_images := Z.of_nat (num_reg_images rec);
                 largest_rec := Some rec |}) as ->.
    { unfold largest_step. simpl. by rewrite decide_True. }
    right.
    destruct (IH {| largest_rec_id := id;
                    max_reg_images := Z.of_nat (num_reg_images rec);
                    largest_rec := Some rec |})
      as [[Heq Hall]|(before & id' & rec' & after & -> & Heq & Hlt & Hb & Ha)].
    + exists [], id, rec, recs. split_and!; [done|done|lia| |].
      * by intros m ?%elem_of_nil.
      * intros m Hm. apply Hall in Hm. simpl in Hm. lia.
    + exists ((id, rec) :: before), id', rec', after. simpl in Hlt.
      split_and!; [done|done|lia| |done].
      intros m [->|Hm]%elem_of_cons; [simpl; lia|by apply Hb].
  - assert (largest_step acc (id, rec) = acc) as ->.
    { unfold largest_step. simpl. by rewrite decide_False. }
    destruct (IH acc)
      as [[Heq Hall]|(before & id' & rec' & after & -> & Heq & Hlt & Hb & Ha)].
    + left. split; [done|].
      intros m [->|Hm]%elem_of_cons; [simpl; lia|by apply Hall].
    + right. exists ((id, rec) :: before), id', rec', after.
      split_and!; [done|done|done| |done].
      intros m [->|Hm]%elem_of_cons; [simpl; lia|by apply Hb].
Qed.

Lemma find_largest_nonempty item recs :
  ∃ before id rec after,
    item :: recs = before ++ (id, rec) :: after
    ∧ find_largest (item :: recs) =
        {| largest_rec_id := id;
           max_reg_images := Z.of_nat (num_reg_images rec);
           largest_rec := Some rec |}
    ∧ (∀ m, m ∈ before → num_reg_images m.2 < num_reg_images rec)
    ∧ (∀ m, m ∈ after → num_reg_images m.2 ≤ num_reg_images rec).
Proof.
  destruct (largest_fold (item :: recs) largest_init)
    as [[_ Hall]|(before & id & rec & after & Heq & Hl & _ & Hb & Ha)].
  - specialize (Hall item ltac:(left)). simpl in Hall. lia.
  - exists before, id, rec, after. done.
Qed.

(** Two decompositions of a list around a first maximum coincide. *)
Lemma first_maximum_unique {A} (f : A → nat) (b1 b2 a1 a2 : list A) (x1 x2 : A) :
  b1 ++ x1 :: a1 = b2 ++ x2 :: a2 →
  (∀ m, m ∈ b1 → f m < f x1) → (∀ m, m ∈ a1 → f m ≤ f x1) →
  (∀ m, m ∈ b2 → f m < f x2) → (∀ m, m ∈ a2 → f m ≤ f x2) →
  b1 = b2 ∧ x1 = x2 ∧ a1 = a2.
Proof.
  revert b2. induction b1 as [|y b1 IH]; intros [|z b2]; simpl;
    intros Heq Hb1 Ha1 Hb2 Ha2; injection Heq as Hhd Htl.
  - by subst.
  - subst z a1.
    specialize (Hb2 x1 ltac:(left)).
    specialize (Ha1 x2 ltac:(apply elem_of_app; right; left)). lia.
  - subst y a2.
    specialize (Hb1 x2 ltac:(left)).
    specialize (Ha2 x1 ltac:(apply elem_of_app; right; left)). lia.
  - subst z.
    destruct (IH b2 Htl) as (-> & -> & ->); [|done| |done|done].
    + intros m Hm. apply Hb1. by right.
    + intros m Hm. apply Hb2. by right.
Qed.

(** C4 (as amended). When the solver returns no model the run ends with
    the no-reconstruction warning and leaves no calibration result.
    When it returns models, the run selects model [id] exactly when that
    model is the first one, in the iteration order of the returned
    dictionary, among those with the greatest count of registered images,
    that count is at least 2 and [id] is not -1; otherwise it ends with the
    insufficient-registered-images warning.  Point counts and the order of
    the ids play no part. *)
Theorem largest_model_selection :
  (∀ basenames all_db_images kmaps,
     parse_output (Some []) basenames all_db_images kmaps =
       Some {| selection := NoReconstructionModels;
               calibration_results := None;
               reprojection_errors_result := ∅ |})
  ∧ (∀ recs id rec,
       select_reconstruction (Some recs) = Selected id rec ↔
       ∃ before after,
         recs = before ++ (id, rec) :: after
         ∧ (∀ m, m ∈ before → num_reg_images m.2 < num_reg_images rec)
         ∧ (∀ m, m ∈ after → num_reg_images m.2 ≤ num_reg_images rec)
         ∧ 2 ≤ num_reg_images rec
         ∧ id ≠ (-1)%Z)
  ∧ (∀ recs basenames all_db_images kmaps,
       (∀ id rec, select_reconstruction (Some recs) ≠ Selected id rec) →
       ∃ failure,
         parse_output (Some recs) basenames all_db_images kmaps =
           Some {| selection := failure; calibration_results := None;
                   reprojection_errors_result := ∅ |}).
Proof.
  split_and!.
  - done.
  - intros [|item recs] id rec.
    { simpl. split; [done|]. intros (before & after & Heq & _).
      by destruct before. }
    destruct (find_largest_nonempty item recs)
      as (before & id' & rec' & after & Heq & Hl & Hb & Ha).
    unfold select_reconstruction. rewrite Hl. simpl.
    destruct (decide _) as [Hbad|Hok]; split.
    + done.
    + intros (before2 & after2 & Heq2 & Hb2 & Ha2 & Hge & Hid).
      rewrite Heq in Heq2.
      destruct (first_maximum_unique (λ m, num_reg_images m.2)
                  before before2 after after2 (id', rec') (id, rec))
        as (_ & [= -> ->] & _); [done..|].
      lia.
    + intros [= -> ->]. exists before, after. split_and!; [done..|lia|lia].
    + intros (before2 & after2 & Heq2 & Hb2 & Ha2 & Hge & Hid).
      rewrite Heq in Heq2.
      destruct (first_maximum_unique (λ m, num_reg_images m.2)
                  before before2 after after2 (id', rec') (id, rec))
        as (_ & [= -> ->] & _); [done..|].
      done.
  - intros recs basenames all_db_images kmaps Hno. unfold parse_output.
    destruct (select_reconstruction (Some recs)) as [| |n|id rec] eqn:Hsel.
    + by eexists.
    + by eexists.
    + by eexists.
    + by destruct (Hno id rec).
Qed.

(** C4 as stated fails: the two sample models have as many registered
    images, the second has more 3-D points and so comes first in the stated
    policy, yet the run selects the first. *)
Lemma tie_not_broken_by_point_count :
  select_reconstruction (Some sample_models) = Selected 0 (sample_model [])
  ∧ ∃ other, other ∈ sample_models
             ∧ spec_precedes other (0%Z, sample_model []).
Proof.
  split; [reflexivity|].
  eexists. split; [right; left|].
  right. split; [done|]. left. unfold num_points3D. simpl. lia.
Qed.
End Selection.

Section Poses.
Local Open Scope R_scope.
Implicit Types (rec : Reconstruction) (res : CalibrationResults).
Implicit Types (image : Image) (camera : Camera).

Lemma mat_vec_opp (m : Mat3) (v : Vec3) :
  mat_vec (mat_opp m) v = vec_opp (mat_vec m v).
Proof.
  destruct m as [[[[a11 a12] a13] [[a21 a22] a23]] [[a31 a32] a33]].
  destruct v as [[v1 v2] v3]. unfold mat_vec, mat_opp, vec_opp, dot.
  repeat f_equal; ring.
Qed.

Lemma store_pose_inverted img_idx image res :
  poses (store_pose img_idx image res) =
    <[img_idx := inverted_pose image]> (poses res)
  ∧ registered_indices (store_pose img_idx image res) =
      registered_indices res ++ [img_idx].
Proof.
  unfold store_pose, inverted_pose.
  destruct (cam_from_world image)
    as [[[[[r11 r12] r13] [[r21 r22] r23]] [[r31 r32] r33]] [[t1 t2] t3]].
  simpl. split; [|done]. f_equal. f_equal.
  unfold mat_vec, mat_opp, dot. simpl. repeat f_equal; ring.
Qed.

Lemma extract_image_unregistered rec res img_idx cid :
  PyDict.get cid (registered_image_ids_map rec) = None →
  extract_image rec res (img_idx, cid) = Some res.
Proof. intros Hreg. unfold extract_image. by rewrite Hreg. Qed.

Lemma extract_image_registered rec res img_idx cid image camera :
  PyDict.get cid (registered_image_ids_map rec) = Some image →
  cameras rec !! camera_id image = Some camera →
  ∃ res',
    extract_image rec res (img_idx, cid) = Some res'
    ∧ ((params_accepted camera
        ∧ poses res' = <[img_idx := inverted_pose image]> (poses res)
        ∧ registered_indices res' = registered_indices res ++ [img_idx])
       ∨ (¬ params_accepted camera
          ∧ poses res' = poses res
          ∧ registered_indices res' = registered_indices res)).
Proof.
  intros Hreg Hcam. unfold extract_image. rewrite Hreg, Hcam. simpl.
  unfold params_accepted.
  destruct (model camera) as [|other] eqn:Hmodel.
  - destruct (params camera) as [|f [|cx [|cy [|extra ps]]]] eqn:Hparams;
      eexists; (split; [reflexivity|]);
      try (right; split; [intros Hok; specialize (Hok eq_refl); simpl in Hok; lia
                         |done]).
    left. split; [done|].
    destruct (store_pose_inverted img_idx image (store_intrinsics img_idx f cx cy res))
      as [-> ->]. done.
  - eexists. split; [reflexivity|]. left. split; [done|].
    apply store_pose_inverted.
Qed.

Lemma index_maps_keys_NoDup basenames all_db_images :
  NoDup (PyDict.keys (index_maps basenames all_db_images).1).
Proof.
  unfold index_maps.
  generalize (imap (λ (idx : nat) (basename : string), (idx, basename)) basenames).
  intros l.
  assert (NoDup (PyDict.keys (@nil (nat * Z)))) as Hinit by constructor.
  revert Hinit. generalize (@nil (nat * Z)) (@nil (Z * nat)).
  induction l as [|entry l IH]; intros d1 d2 Hnd; simpl; [done|].
  destruct (PyDict.get entry.2 (name_to_id_map all_db_images)); [|by apply IH].
  apply IH. by apply PyDictFacts.set_keys_NoDup.
Qed.

Lemma poses_invariant_empty rec : poses_invariant rec [] empty_results.
Proof.
  split_and!; simpl.
  - intros i. rewrite lookup_empty. split; [by intros ?%elem_of_nil|by intros []].
  - intros i p. by rewrite lookup_empty.
  - by intros i cid image camera ?%elem_of_nil.
Qed.

Lemma poses_invariant_step rec done res img_idx cid :
  cameras_present rec →
  poses_invariant rec done res →
  ∃ res',
    extract_image rec res (img_idx, cid) = Some res'
    ∧ poses_invariant rec (done ++ [(img_idx, cid)]) res'.
Proof.
  intros Hpresent (Hreg & Hsound & Hcompl).
  destruct (PyDict.get cid (registered_image_ids_map rec)) as [image|] eqn:Himg.
  - destruct (Hpresent cid image Himg) as [camera Hcam].
    destruct (extract_image_registered rec res img_idx cid image camera Himg Hcam)
      as (res' & Hex & [(Hok & Hp & Hr)|(Hbad & Hp & Hr)]);
      exists res'; (split; [done|]); unfold poses_invariant; rewrite Hp, Hr.
    + split_and!.
      * intros i. rewrite elem_of_app, list_elem_of_singleton, Hreg.
        rewrite lookup_insert. destruct (decide (img_idx = i)) as [->|Hne].
        -- split; [by eexists|by right].
        -- split; [by intros [?|?]|by left].
      * intros i p. rewrite lookup_insert.
        destruct (decide (img_idx = i)) as [<-|Hne].
        -- intros [= <-]. exists cid, image.
           split; [apply elem_of_app; right; left|done].
        -- intros (cid' & image' & Hin & ?)%Hsound.
           exists cid', image'. split; [apply elem_of_app; by left|done].
      * intros i cid' image' camera' Hin Himg' Hcam' Hok'.
        rewrite lookup_insert. destruct (decide (img_idx = i)); [by eexists|].
        apply elem_of_app in Hin as [Hin|[= ]%list_elem_of_singleton]; [|done].
        by eapply Hcompl.
    + split_and!.
      * done.
      * intros i p (cid' & image' & Hin & ?)%Hsound.
        exists cid', image'. split; [apply elem_of_app; by left|done].
      * intros i cid' image' camera' Hin Himg' Hcam' Hok'.
        apply elem_of_app in Hin as [Hin|[= -> ->]%list_elem_of_singleton].
        -- by eapply Hcompl.
        -- rewrite Himg in Himg'. injection Himg' as <-.
           rewrite Hcam in Hcam'. injection Hcam' as <-. done.
  - exists res. split; [by apply extract_image_unregistered|].
    split_and!.
    + done.
    + intros i p (cid' & image' & Hin & ?)%Hsound.
      exists cid', image'. split; [apply elem_of_app; by left|done].
    + intros i cid' image' camera' Hin Himg' Hcam' Hok'.
      apply elem_of_app in Hin as [Hin|[= -> ->]%list_elem_of_singleton].
      * by eapply Hcompl.
      * congruence.
Qed.

Lemma poses_invariant_fold rec items done res :
  cameras_present rec →
  poses_invariant rec done res →
  ∃ res',
    foldl (λ acc item, res ← acc; extract_image rec res item) (Some res) items
      = Some res'
    ∧ poses_invariant rec (done ++ items) res'.
Proof.
  intros Hpresent. revert done res.
  induction items as [|[img_idx cid] items IH]; intros done res Hinv.
  { exists res. by rewrite app_nil_r. }
  cbn [foldl mbind option_bind].
  destruct (poses_invariant_step rec done res img_idx cid Hpresent Hinv)
    as (res1 & -> & Hinv1).
  destruct (IH _ _ Hinv1) as (res' & Hfold & Hinv').
  exists res'. split; [done|]. by rewrite <- app_assoc in Hinv'.
Qed.

(** C6. The pose block turns the world-to-camera pose [(R_w2c, t)] of an
    image into [R_c2w = R_w2c] transposed and centre [-(R_c2w . t)] and
    stores exactly these under the image's index: for
    [R_w2c = ((r11, r12, r13), (r21, r22, r23), (r31, r32, r33))] and
    [t = (t1, t2, t3)] the stored rotation is
    [((r11, r21, r31), (r12, r22, r32), (r13, r23, r33))] and the stored
    centre is [(-(r11 t1 + r21 t2 + r31 t3), -(r12 t1 + r22 t2 + r32 t3),
    -(r13 t1 + r23 t2 + r33 t3))].  After the extraction loop, every index
    of [registered_indices] holds the pose so inverted of the registered
    solver image it stands for, and every registered image whose camera
    passes the parameter check of the intrinsics block is in
    [registered_indices]. *)
Theorem pose_inverted_to_camera_to_world rec basenames all_db_images :
  cameras_present rec →
  let idx_to_id := (index_maps basenames all_db_images).1 in
  let registered := registered_image_ids_map rec in
  (∀ img_idx image res0 r11 r12 r13 r21 r22 r23 r31 r32 r33 t1 t2 t3,
     cam_from_world image =
       {| rotation_matrix := ((r11, r12, r13), (r21, r22, r23), (r31, r32, r33));
          translation := (t1, t2, t3) |} →
     inverted_pose image =
       {| pose_R := ((r11, r21, r31), (r12, r22, r32), (r13, r23, r33));
          pose_t := (- (r11 * t1 + r21 * t2 + r31 * t3),
                     - (r12 * t1 + r22 * t2 + r32 * t3),
                     - (r13 * t1 + r23 * t2 + r33 * t3)) |}
     ∧ poses (store_pose img_idx image res0) !! img_idx =
         Some {| pose_R := ((r11, r21, r31), (r12, r22, r32), (r13, r23, r33));
                 pose_t := (- (r11 * t1 + r21 * t2 + r31 * t3),
                            - (r12 * t1 + r22 * t2 + r32 * t3),
                            - (r13 * t1 + r23 * t2 + r33 * t3)) |}
     ∧ registered_indices (store_pose img_idx image res0)
       = registered_indices res0 ++ [img_idx])
  ∧ ∃ res,
      extract_images rec idx_to_id = Some res
      ∧ (∀ img_idx, img_idx ∈ registered_indices res →
           ∃ cid image,
             PyDict.get img_idx idx_to_id = Some cid
             ∧ PyDict.get cid registered = Some image
             ∧ poses res !! img_idx = Some (inverted_pose image))
      ∧ (∀ img_idx cid image camera,
           PyDict.get img_idx idx_to_id = Some cid →
           PyDict.get cid registered = Some image →
           cameras rec !! camera_id image = Some camera →
           params_accepted camera →
           img_idx ∈ registered_indices res
           ∧ poses res !! img_idx = Some (inverted_pose image)).
Proof.
  intros Hpresent idx_to_id registered. split.
  { intros img_idx image res0 r11 r12 r13 r21 r22 r23 r31 r32 r33 t1 t2 t3 Hpose.
    assert (inverted_pose image =
              {| pose_R := ((r11, r21, r31), (r12, r22, r32), (r13, r23, r33));
                 pose_t := (- (r11 * t1 + r21 * t2 + r31 * t3),
                            - (r12 * t1 + r22 * t2 + r32 * t3),
                            - (r13 * t1 + r23 * t2 + r33 * t3)) |}) as Hinv.
    { unfold inverted_pose. by rewrite Hpose. }
    destruct (store_pose_inverted img_idx image res0) as [Hp Hr].
    split_and!; [done| |done].
    by rewrite Hp, lookup_insert_eq, Hinv. }
  pose proof (index_maps_keys_NoDup basenames all_db_images) as Hnd.
  fold idx_to_id in Hnd.
  destruct (poses_invariant_fold rec idx_to_id [] empty_results Hpresent
              (poses_invariant_empty rec))
    as (res & Hfold & Hreg & Hsound & Hcompl).
  simpl in Hsound, Hcompl.
  assert (∀ img_idx, img_idx ∈ registered_indices res →
           ∃ cid image,
             PyDict.get img_idx idx_to_id = Some cid
             ∧ PyDict.get cid registered = Some image
             ∧ poses res !! img_idx = Some (inverted_pose image)) as Hs.
  { intros img_idx [p Hp]%Hreg.
    destruct (Hsound img_idx p Hp) as (cid & image & Hin & Himg & ->).
    exists cid, image. split_and!; [|done..].
    by apply PyDictFacts.get_elem_NoDup. }
  exists res. split_and!; [exact Hfold|exact Hs|].
  intros img_idx cid image camera Hget Himg Hcam Hok.
  assert (img_idx ∈ registered_indices res) as Hin.
  { apply Hreg. eapply Hcompl; [|done..].
    by apply PyDictFacts.get_Some_elem. }
  split; [done|].
  destruct (Hs img_idx Hin) as (cid' & image' & Hget' & Himg' & Hp).
  rewrite Hget in Hget'. injection Hget' as <-.
  fold registered in Himg. rewrite Himg in Himg'. by injection Himg' as <-.
Qed.

Lemma sample_cameras_present : cameras_present sample_reconstruction.
Proof.
  intros cid image. unfold registered_image_ids_map. simpl.
  destruct (decide (1%Z = cid)); [|done]. intros [= <-]. simpl.
  rewrite lookup_singleton_eq. by eexists.
Qed.

Lemma pose_inverted_to_camera_to_world_witness :
  let idx_to_id := (index_maps sample_basenames sample_db_images).1 in
  let registered := registered_image_ids_map sample_reconstruction in
  (∀ img_idx image res0 r11 r12 r13 r21 r22 r23 r31 r32 r33 t1 t2 t3,
     cam_from_world image =
       {| rotation_matrix := ((r11, r12, r13), (r21, r22, r23), (r31, r32, r33));
          translation := (t1, t2, t3) |} →
     inverted_pose image =
       {| pose_R := ((r11, r21, r31), (r12, r22, r32), (r13, r23, r33));
          pose_t := (- (r11 * t1 + r21 * t2 + r31 * t3),
                     - (r12 * t1 + r22 * t2 + r32 * t3),
                     - (r13 * t1 + r23 * t2 + r33 * t3)) |}
     ∧ poses (store_pose img_idx image res0) !! img_idx =
         Some {| pose_R := ((r11, r21, r31), (r12, r22, r32), (r13, r23, r33));
                 pose_t := (- (r11 * t1 + r21 * t2 + r31 * t3),
                            - (r12 * t1 + r22 * t2 + r32 * t3),
                            - (r13 * t1 + r23 * t2 + r33 * t3)) |}
     ∧ registered_indices (store_pose img_idx image res0)
       = registered_indices res0 ++ [img_idx])
  ∧ ∃ res,
      extract_images sample_reconstruction idx_to_id = Some res
      ∧ (∀ img_idx, img_idx ∈ registered_indices res →
           ∃ cid image,
             PyDict.get img_idx idx_to_id = Some cid
             ∧ PyDict.get cid registered = Some image
             ∧ poses res !! img_idx = Some (inverted_pose image))
      ∧ (∀ img_idx cid image camera,
           PyDict.get img_idx idx_to_id = Some cid →
           PyDict.get cid registered = Some image →
           cameras sample_reconstruction !! camera_id image = Some camera →
           params_accepted camera →
           img_idx ∈ registered_indices res
           ∧ poses res !! img_idx = Some (inverted_pose image)).
Proof.
  apply (pose_inverted_to_camera_to_world
           sample_reconstruction sample_basenames sample_db_images).
  exact sample_cameras_present.
Defined.

(** On the sample, image 0 is registered with the inverted pose. *)
Example sample_pose :
  ∃ res, extract_images sample_reconstruction
           (index_maps sample_basenames sample_db_images).1 = Some res
         ∧ registered_indices res = [0%nat]
         ∧ poses res !! 0%nat = Some {| pose_R := ((0, 1, 0), (-1, 0, 0), (0, 0, 1));
                                     pose_t := (-2, 1, -3) |}.
Proof.
  eexists. split; [reflexivity|]. split; [reflexivity|].
  simpl. rewrite lookup_insert_eq. f_equal. f_equal.
  unfold mat_vec, mat_opp, vec_opp, dot. repeat f_equal; ring.
Qed.
End Poses.

Section Reprojection.
Local Open Scope R_scope.
Implicit Types (rec : Reconstruction) (camera : Camera) (pose : Rigid3d).
Implicit Types (errs : gmap Z (gmap nat ReprojectionError)).

Lemma reprojection_error_behind camera pose wp obs X Y Z :
  rigid_apply pose wp = (X, Y, Z) → Z <= 1e-6 →
  reprojection_error camera pose wp obs = None.
Proof.
  intros Hp Hz. unfold reprojection_error. rewrite Hp.
  destruct (Rlt_dec 1e-6 Z); [lra|done].
Qed.

Lemma reprojection_error_pinhole camera pose wp obs X Y Z f cx cy :
  rigid_apply pose wp = (X, Y, Z) → 1e-6 < Z →
  model camera = SIMPLE_PINHOLE → params camera = [f; cx; cy] →
  reprojection_error camera pose wp obs =
    Some {| dx := obs.1 - (f * X / Z + cx);
            dy := obs.2 - (f * Y / Z + cy);
            magnitude := sqrt ((obs.1 - (f * X / Z + cx)) ^ 2
                               + (obs.2 - (f * Y / Z + cy)) ^ 2) |}.
Proof.
  intros Hp Hz Hm Hps. unfold reprojection_error. rewrite Hp, Hm, Hps.
  destruct (Rlt_dec 1e-6 Z); [|lra].
  assert (f * (X / Z) = f * X / Z) as -> by (field; lra).
  assert (f * (Y / Z) = f * Y / Z) as -> by (field; lra).
  do 2 f_equal. f_equal. ring.
Qed.

Lemma reprojection_error_other_model camera pose wp obs :
  model camera ≠ SIMPLE_PINHOLE →
  reprojection_error camera pose wp obs = None.
Proof.
  intros Hm. unfold reprojection_error.
  destruct (rigid_apply pose wp) as [[X Y] Z].
  destruct (Rlt_dec 1e-6 Z); [|done]. by destruct (model camera).
Qed.

Lemma store_error_lookup errs img_idx set_id e :
  store_error img_idx errs (set_id, e) !! set_id ≫= (.!! img_idx) = Some e.
Proof.
  unfold store_error. simpl. rewrite lookup_insert_eq. simpl.
  by rewrite lookup_insert_eq.
Qed.

Lemma store_error_lookup_other errs img_idx set_id e t i :
  (t, i) ≠ (set_id, img_idx) →
  store_error img_idx errs (set_id, e) !! t ≫= (.!! i) = errs !! t ≫= (.!! i).
Proof.
  intros Hne. unfold store_error. simpl.
  destruct (decide (set_id = t)) as [->|Ht].
  - rewrite lookup_insert_eq. simpl.
    rewrite lookup_insert_ne by congruence.
    by destruct (errs !! t).
  - by rewrite lookup_insert_ne.
Qed.

Lemma observation_error_Some rec set_ids camera image point2D t e :
  observation_error rec set_ids camera image point2D = Some (t, e) →
  ∃ point3D,
    PyDict.get (point3D_id point2D) (points3D rec) = Some point3D
    ∧ PyDict.get (point3D_id point2D) set_ids = Some t
    ∧ reprojection_error camera (cam_from_world image) (xyz point3D) (xy point2D)
        = Some e.
Proof.
  unfold observation_error. destruct (decide _); [|done].
  destruct (PyDict.get _ (points3D rec)) as [point3D|]; [|done].
  destruct (PyDict.get _ set_ids) as [t'|]; [|done].
  destruct (reprojection_error _ _ _ _) as [e'|] eqn:He; [|done].
  simpl. intros [= -> ->]. by exists point3D.
Qed.

(** The set id recorded for a 3-D point is the one its track resolves to. *)
Lemma map_points_set_ids rec kmaps id_to_idx p3d_id t :
  PyDict.get p3d_id (colmap_point3D_id_to_set_id (map_points rec kmaps id_to_idx))
    = Some t →
  ∃ point3D,
    (p3d_id, point3D) ∈ points3D rec
    ∧ find_set_id (keypoint_idx_to_set_id_map kmaps) id_to_idx
                  (track_elements point3D) = Some t.
Proof.
  unfold map_points, PyDict.items.
  set (inv := keypoint_idx_to_set_id_map kmaps).
  assert (∀ l st,
    (∀ p t, PyDict.get p (colmap_point3D_id_to_set_id st) = Some t →
            ∃ point3D, (p, point3D) ∈ points3D rec
                       ∧ find_set_id inv id_to_idx (track_elements point3D) = Some t) →
    (∀ x, x ∈ l → x ∈ points3D rec) →
    ∀ p t, PyDict.get p (colmap_point3D_id_to_set_id
                           (foldl (point_step inv id_to_idx) st l)) = Some t →
           ∃ point3D, (p, point3D) ∈ points3D rec
                      ∧ find_set_id inv id_to_idx (track_elements point3D) = Some t)
    as Hgen.
  { induction l as [|[p0 point0] l IH]; intros st Hst Hsub; [done|].
    cbn [foldl]. apply IH; [|intros x Hx; apply Hsub; by right].
    unfold point_step.
    destruct (find_set_id inv id_to_idx (track_elements point0)) as [t0|] eqn:Hfind;
      simpl; [|done].
    intros p t'. destruct (decide (p = p0)) as [->|Hne].
    - rewrite PyDictFacts.get_set_eq. intros [= <-].
      exists point0. split; [apply Hsub; left|done].
    - rewrite PyDictFacts.get_set_ne by done. apply Hst. }
  apply Hgen; [|done]. simpl. done.
Qed.

Lemma observation_error_linked rec set_ids camera image point2D point3D t :
  point3D_id point2D ≠ (-1)%Z →
  PyDict.get (point3D_id point2D) (points3D rec) = Some point3D →
  PyDict.get (point3D_id point2D) set_ids = Some t →
  observation_error rec set_ids camera image point2D
  = (λ e, (t, e)) <$>
      reprojection_error camera (cam_from_world image) (xyz point3D) (xy point2D).
Proof.
  intros Hne Hp3 Hset. unfold observation_error.
  rewrite decide_True by done. by rewrite Hp3, Hset.
Qed.

Lemma observation_error_inv rec set_ids camera image point2D t e :
  observation_error rec set_ids camera image point2D = Some (t, e) →
  point3D_id point2D ≠ (-1)%Z
  ∧ ∃ point3D,
      PyDict.get (point3D_id point2D) (points3D rec) = Some point3D
      ∧ PyDict.get (point3D_id point2D) set_ids = Some t
      ∧ reprojection_error camera (cam_from_world image) (xyz point3D) (xy point2D)
          = Some e.
Proof.
  intros Hobs. split.
  - unfold observation_error in Hobs. by destruct (decide _).
  - by apply observation_error_Some in Hobs.
Qed.

(** An error that was computed is the pinhole error of a point in front of
    a simple pinhole camera. *)
Lemma reprojection_error_inv camera pose wp obs e :
  reprojection_error camera pose wp obs = Some e →
  ∃ X Y Z f cx cy,
    rigid_apply pose wp = (X, Y, Z) ∧ 1e-6 < Z
    ∧ model camera = SIMPLE_PINHOLE ∧ params camera = [f; cx; cy]
    ∧ e = {| dx := obs.1 - (f * X / Z + cx);
             dy := obs.2 - (f * Y / Z + cy);
             magnitude := sqrt ((obs.1 - (f * X / Z + cx)) ^ 2
                                + (obs.2 - (f * Y / Z + cy)) ^ 2) |}.
Proof.
  intros He.
  destruct (rigid_apply pose wp) as [[X Y] Z] eqn:Hp.
  destruct (Rlt_dec 1e-6 Z) as [Hz|Hz].
  2:{ rewrite (reprojection_error_behind camera pose wp obs X Y Z) in He;
        [done|done|lra]. }
  destruct (model camera) as [|other] eqn:Hm.
  2:{ rewrite reprojection_error_other_model in He; [done|by rewrite Hm]. }
  destruct (params camera) as [|f [|cx [|cy [|extra ps]]]] eqn:Hps;
    try (unfold reprojection_error in He; rewrite Hp, Hm, Hps in He;
         by destruct (Rlt_dec 1e-6 Z)).
  rewrite (reprojection_error_pinhole camera pose wp obs X Y Z f cx cy) in He
    by done.
  injection He as <-. by exists X, Y, Z, f, cx, cy.
Qed.

(** The entry under [(t, j)] after the loop over the observations of one
    image. *)
Lemma image_errors_lookup rec set_ids img_idx camera image errs t j :
  image_errors rec set_ids img_idx camera image errs !! t ≫= (.!! j)
  = if decide (j = img_idx) then
      match last (image_entries rec set_ids camera image t) with
      | Some e => Some e
      | None => errs !! t ≫= (.!! j)
      end
    else errs !! t ≫= (.!! j).
Proof.
  unfold image_errors, image_entries. generalize (points2D image) as l.
  intros l. revert errs. induction l as [|point2D l IH]; intros errs.
  { simpl. by destruct (decide _). }
  cbn [foldl omap list_omap]. rewrite IH.
  destruct (decide (j = img_idx)) as [->|Hj].
  - destruct (observation_error rec set_ids camera image point2D)
      as [[t' e']|] eqn:Hobs; [|done].
    destruct (decide (t' = t)) as [->|Ht].
    + rewrite last_cons, store_error_lookup. by destruct (last _).
    + rewrite store_error_lookup_other by congruence. done.
  - destruct (observation_error rec set_ids camera image point2D)
      as [[t' e']|]; [|done].
    rewrite store_error_lookup_other by congruence. done.
Qed.

Lemma reprojection_errors_lookup rec set_ids items errs :
  cameras_present rec →
  NoDup (PyDict.keys items) →
  ∃ errs',
    foldl (λ acc item, errs ← acc; reproject_image rec set_ids errs item)
          (Some errs) items = Some errs'
    ∧ ∀ t i, errs' !! t ≫= (.!! i)
             = match expected_entry rec set_ids items t i with
               | Some e => Some e
               | None => errs !! t ≫= (.!! i)
               end.
Proof.
  intros Hpresent. revert errs.
  induction items as [|[img_idx cid] items IH]; intros errs Hnd.
  { exists errs. split; [done|]. intros t i. done. }
  unfold PyDict.keys in *. rewrite fmap_cons in Hnd.
  apply NoDup_cons in Hnd as [Hfresh Hnd]. simpl in Hfresh.
  assert (PyDict.get img_idx items = None) as Hnone.
  { by apply PyDictFacts.get_None. }
  cbn [foldl mbind option_bind]. unfold reproject_image at 2.
  destruct (PyDict.get cid (registered_image_ids_map rec)) as [image|] eqn:Himg.
  - destruct (Hpresent cid image Himg) as [camera Hcam]. rewrite Hcam.
    cbn [mbind option_bind].
    destruct (IH (image_errors rec set_ids img_idx camera image errs) Hnd)
      as (errs' & Hfold & Hlook).
    exists errs'. split; [done|]. intros t i. rewrite Hlook.
    unfold expected_entry. cbn [PyDict.get].
    destruct (decide (img_idx = i)) as [<-|Hne].
    + rewrite Hnone. cbn [mbind option_bind]. rewrite Himg.
      cbn [mbind option_bind]. rewrite Hcam. cbn [mbind option_bind].
      rewrite image_errors_lookup. by rewrite decide_True.
    + rewrite image_errors_lookup. rewrite decide_False by done. done.
  - destruct (IH errs Hnd) as (errs' & Hfold & Hlook).
    exists errs'. split; [done|]. intros t i. rewrite Hlook.
    unfold expected_entry. cbn [PyDict.get].
    destruct (decide (img_idx = i)) as [<-|Hne]; [|done].
    rewrite Hnone. cbn [mbind option_bind]. by rewrite Himg.
Qed.

Lemma omap_all_None {A B} (f : A → option B) (l : list A) :
  (∀ x, x ∈ l → f x = None) → omap f l = [].
Proof.
  induction l as [|x l IH]; intros Hall; [done|].
  cbn [omap list_omap]. rewrite (Hall x) by left.
  apply IH. intros y Hy. apply Hall. by right.
Qed.

(** The errors of the observations of an image around one of them. *)
Lemma image_entries_split rec set_ids camera image t before point2D after :
  points2D image = before ++ point2D :: after →
  image_entries rec set_ids camera image t
  = omap (λ p, match observation_error rec set_ids camera image p with
               | Some (t', e) => if decide (t' = t) then Some e else None
               | None => None
               end) before
    ++ match observation_error rec set_ids camera image point2D with
       | Some (t', e) => if decide (t' = t) then [e] else []
       | None => []
       end
    ++ omap (λ p, match observation_error rec set_ids camera image p with
                  | Some (t', e) => if decide (t' = t) then Some e else None
                  | None => None
                  end) after.
Proof.
  intros Hsplit. unfold image_entries. rewrite Hsplit, omap_app.
  f_equal. cbn [omap list_omap].
  destruct (observation_error rec set_ids camera image point2D) as [[t' e]|]; [|done].
  by destruct (decide (t' = t)).
Qed.

(** C5 (as amended). The run computes the errors without raising.  For
    an observation of a registered image that the solver links to a 3-D
    point mapped to a set id: when the camera-space depth is at most 1e-6
    the observation is skipped, and so it is when the camera is not a
    simple pinhole; when the depth exceeds 1e-6 and the camera is a simple
    pinhole with parameters [f, cx, cy], an entry is stored under (set id,
    image index), and it is [(dx, dy) = observed - (f X / Z + cx, f Y / Z +
    cy)] with magnitude the Euclidean norm of [(dx, dy)] unless a later
    observation of the image wrote over it.  Conversely every entry the run
    leaves is the error so computed of such an observation: a pair without
    one has no entry.  The set id of a 3-D point is the one its track
    resolves to. *)
Theorem reprojection_error_entries rec kmaps basenames all_db_images :
  cameras_present rec →
  let idx_to_id := (index_maps basenames all_db_images).1 in
  let id_to_idx := (index_maps basenames all_db_images).2 in
  let set_ids := colmap_point3D_id_to_set_id (map_points rec kmaps id_to_idx) in
  ∃ errs,
    reprojection_errors rec set_ids idx_to_id = Some errs
    ∧ (∀ img_idx cid image camera before point2D after point3D set_id X Y Z,
         PyDict.get img_idx idx_to_id = Some cid →
         PyDict.get cid (registered_image_ids_map rec) = Some image →
         cameras rec !! camera_id image = Some camera →
         points2D image = before ++ point2D :: after →
         point3D_id point2D ≠ (-1)%Z →
         PyDict.get (point3D_id point2D) (points3D rec) = Some point3D →
         PyDict.get (point3D_id point2D) set_ids = Some set_id →
         rigid_apply (cam_from_world image) (xyz point3D) = (X, Y, Z) →
         (Z <= 1e-6 →
          observation_error rec set_ids camera image point2D = None)
         ∧ (model camera ≠ SIMPLE_PINHOLE →
            observation_error rec set_ids camera image point2D = None)
         ∧ (1e-6 < Z →
            ∀ f cx cy,
              model camera = SIMPLE_PINHOLE → params camera = [f; cx; cy] →
              is_Some (errs !! set_id ≫= (.!! img_idx))
              ∧ ((∀ later e, later ∈ after →
                    observation_error rec set_ids camera image later
                    ≠ Some (set_id, e)) →
                 errs !! set_id ≫= (.!! img_idx) =
                   Some {| dx := (xy point2D).1 - (f * X / Z + cx);
                           dy := (xy point2D).2 - (f * Y / Z + cy);
                           magnitude :=
                             sqrt (((xy point2D).1 - (f * X / Z + cx)) ^ 2
                                   + ((xy point2D).2 - (f * Y / Z + cy)) ^ 2) |})))
    ∧ (∀ set_id img_idx e,
         errs !! set_id ≫= (.!! img_idx) = Some e →
         ∃ cid image camera point2D point3D X Y Z f cx cy,
           PyDict.get img_idx idx_to_id = Some cid
           ∧ PyDict.get cid (registered_image_ids_map rec) = Some image
           ∧ cameras rec !! camera_id image = Some camera
           ∧ point2D ∈ points2D image
           ∧ point3D_id point2D ≠ (-1)%Z
           ∧ PyDict.get (point3D_id point2D) (points3D rec) = Some point3D
           ∧ PyDict.get (point3D_id point2D) set_ids = Some set_id
           ∧ rigid_apply (cam_from_world image) (xyz point3D) = (X, Y, Z)
           ∧ 1e-6 < Z
           ∧ model camera = SIMPLE_PINHOLE ∧ params camera = [f; cx; cy]
           ∧ e = {| dx := (xy point2D).1 - (f * X / Z + cx);
                    dy := (xy point2D).2 - (f * Y / Z + cy);
                    magnitude :=
                      sqrt (((xy point2D).1 - (f * X / Z + cx)) ^ 2
                            + ((xy point2D).2 - (f * Y / Z + cy)) ^ 2) |})
    ∧ (∀ p3d_id set_id,
         PyDict.get p3d_id set_ids = Some set_id →
         resolved rec kmaps id_to_idx p3d_id set_id).
Proof.
  intros Hpresent idx_to_id id_to_idx set_ids.
  pose proof (index_maps_keys_NoDup basenames all_db_images) as Hnd.
  fold idx_to_id in Hnd.
  destruct (reprojection_errors_lookup rec set_ids idx_to_id ∅ Hpresent Hnd)
    as (errs & Hrun & Hlook).
  assert (∀ t i, errs !! t ≫= (.!! i) = expected_entry rec set_ids idx_to_id t i)
    as Hentry.
  { intros t i. rewrite Hlook, lookup_empty. simpl.
    by destruct (expected_entry rec set_ids idx_to_id t i). }
  exists errs. split; [exact Hrun|]. split; [|split].
  - intros img_idx cid image camera before point2D after point3D set_id X Y Z
      Hidx Himg Hcam Hsplit Hne Hp3 Hset Hpose.
    rewrite (observation_error_linked rec set_ids camera image point2D point3D set_id)
      by done.
    split; [|split].
    + intros Hz.
      by rewrite (reprojection_error_behind camera _ _ _ X Y Z).
    + intros Hm. by rewrite reprojection_error_other_model.
    + intros Hz f cx cy Hm Hps.
      assert (observation_error rec set_ids camera image point2D
              = Some (set_id,
                      {| dx := (xy point2D).1 - (f * X / Z + cx);
                         dy := (xy point2D).2 - (f * Y / Z + cy);
                         magnitude :=
                           sqrt (((xy point2D).1 - (f * X / Z + cx)) ^ 2
                                 + ((xy point2D).2 - (f * Y / Z + cy)) ^ 2) |}))
        as Hobs.
      { rewrite (observation_error_linked rec set_ids camera image point2D
                   point3D set_id) by done.
        by rewrite (reprojection_error_pinhole camera _ _ _ X Y Z f cx cy). }
      rewrite Hentry. unfold expected_entry.
      rewrite Hidx. cbn [mbind option_bind]. rewrite Himg.
      cbn [mbind option_bind]. rewrite Hcam. cbn [mbind option_bind].
      rewrite (image_entries_split rec set_ids camera image set_id
                 before point2D after Hsplit), Hobs.
      rewrite decide_True by done. split.
      * rewrite last_app. cbn [app].
        rewrite last_cons. destruct (last (omap _ after)); by eexists.
      * intros Hlast.
        assert (omap (λ p, match observation_error rec set_ids camera image p with
                           | Some (t', e) =>
                               if decide (t' = set_id) then Some e else None
                           | None => None
                           end) after = []) as ->.
        { apply omap_all_None. intros p Hp.
          destruct (observation_error rec set_ids camera image p)
            as [[t' e]|] eqn:Hpe; [|done].
          destruct (decide (t' = set_id)) as [->|]; [|done].
          by destruct (Hlast p e Hp). }
        by rewrite last_app.
  - intros set_id img_idx e. rewrite Hentry. unfold expected_entry.
    destruct (PyDict.get img_idx idx_to_id) as [cid|] eqn:Hidx; [|done].
    cbn [mbind option_bind].
    destruct (PyDict.get cid (registered_image_ids_map rec)) as [image|] eqn:Himg;
      [|done].
    cbn [mbind option_bind].
    destruct (cameras rec !! camera_id image) as [camera|] eqn:Hcam; [|done].
    cbn [mbind option_bind]. intros Hlast.
    apply last_Some_elem_of in Hlast. unfold image_entries in Hlast.
    apply list_elem_of_omap in Hlast as (point2D & Hin & Hsome).
    destruct (observation_error rec set_ids camera image point2D)
      as [[t' e']|] eqn:Hobs; [|done].
    destruct (decide (t' = set_id)) as [->|]; [|done].
    injection Hsome as ->.
    apply observation_error_inv in Hobs as (Hne & point3D & Hp3 & Hset & Herr).
    apply reprojection_error_inv in Herr
      as (X & Y & Z & f & cx & cy & Hpose & Hz & Hm & Hps & ->).
    exists cid, image, camera, point2D, point3D, X, Y, Z, f, cx, cy.
    done.
  - intros p3d_id set_id. apply map_points_set_ids.
Qed.

Lemma reprojection_error_entries_witness :
  let rec := sample_reconstruction in
  let kmaps := SolverInput.keypoint_maps SolverInput.sample_point_data 2 in
  let idx_to_id := (index_maps sample_basenames sample_db_images).1 in
  let id_to_idx := (index_maps sample_basenames sample_db_images).2 in
  let set_ids := colmap_point3D_id_to_set_id (map_points rec kmaps id_to_idx) in
  ∃ errs,
    reprojection_errors rec set_ids idx_to_id = Some errs
    ∧ (∀ img_idx cid image camera before point2D after point3D set_id X Y Z,
         PyDict.get img_idx idx_to_id = Some cid →
         PyDict.get cid (registered_image_ids_map rec) = Some image →
         cameras rec !! camera_id image = Some camera →
         points2D image = before ++ point2D :: after →
         point3D_id point2D ≠ (-1)%Z →
         PyDict.get (point3D_id point2D) (points3D rec) = Some point3D →
         PyDict.get (point3D_id point2D) set_ids = Some set_id →
         rigid_apply (cam_from_world image) (xyz point3D) = (X, Y, Z) →
         (Z <= 1e-6 →
          observation_error rec set_ids camera image point2D = None)
         ∧ (model camera ≠ SIMPLE_PINHOLE →
            observation_error rec set_ids camera image point2D = None)
         ∧ (1e-6 < Z →
            ∀ f cx cy,
              model camera = SIMPLE_PINHOLE → params camera = [f; cx; cy] →
              is_Some (errs !! set_id ≫= (.!! img_idx))
              ∧ ((∀ later e, later ∈ after →
                    observation_error rec set_ids camera image later
                    ≠ Some (set_id, e)) →
                 errs !! set_id ≫= (.!! img_idx) =
                   Some {| dx := (xy point2D).1 - (f * X / Z + cx);
                           dy := (xy point2D).2 - (f * Y / Z + cy);
                           magnitude :=
                             sqrt (((xy point2D).1 - (f * X / Z + cx)) ^ 2
                                   + ((xy point2D).2 - (f * Y / Z + cy)) ^ 2) |})))
    ∧ (∀ set_id img_idx e,
         errs !! set_id ≫= (.!! img_idx) = Some e →
         ∃ cid image camera point2D point3D X Y Z f cx cy,
           PyDict.get img_idx idx_to_id = Some cid
           ∧ PyDict.get cid (registered_image_ids_map rec) = Some image
           ∧ cameras rec !! camera_id image = Some camera
           ∧ point2D ∈ points2D image
           ∧ point3D_id point2D ≠ (-1)%Z
           ∧ PyDict.get (point3D_id point2D) (points3D rec) = Some point3D
           ∧ PyDict.get (point3D_id point2D) set_ids = Some set_id
           ∧ rigid_apply (cam_from_world image) (xyz point3D) = (X, Y, Z)
           ∧ 1e-6 < Z
           ∧ model camera = SIMPLE_PINHOLE ∧ params camera = [f; cx; cy]
           ∧ e = {| dx := (xy point2D).1 - (f * X / Z + cx);
                    dy := (xy point2D).2 - (f * Y / Z + cy);
                    magnitude :=
                      sqrt (((xy point2D).1 - (f * X / Z + cx)) ^ 2
                            + ((xy point2D).2 - (f * Y / Z + cy)) ^ 2) |})
    ∧ (∀ p3d_id set_id,
         PyDict.get p3d_id set_ids = Some set_id →
         resolved rec kmaps id_to_idx p3d_id set_id).
Proof.
  apply (reprojection_error_entries sample_reconstruction
           (SolverInput.keypoint_maps SolverInput.sample_point_data 2)
           sample_basenames sample_db_images).
  exact sample_cameras_present.
Defined.

Lemma unlinked_cameras_present : cameras_present unlinked_reconstruction.
Proof.
  intros cid image Hget. apply PyDictFacts.get_Some_elem in Hget.
  unfold registered_image_ids_map in Hget. simpl in Hget.
  repeat (apply elem_of_cons in Hget as [[= _ ->]|Hget];
          [simpl; rewrite lookup_singleton_eq; by eexists|]).
  by apply elem_of_nil in Hget.
Qed.

(** C5 as stated fails, twice.  (1) A track marked in three registered
    images, its 3-D point linked by the solver to the keypoints of the
    first and third image only: the 3-D point is resolved to the track, the
    track is observed in the second image, the point lies at depth
    5 > 1e-6 in front of its simple pinhole camera, and no entry is stored
    for the second image (the first has one).  (2) The sample image seen by
    a camera of another model has an observation of a 3-D point mapped to
    set 0, at depth 8 > 1e-6, and no entry is stored. *)
Lemma unlinked_or_other_model_not_projected :
  (let rec := unlinked_reconstruction in
   let kmaps := SolverInput.keypoint_maps unlinked_point_data 3 in
   let idx_to_id := (index_maps unlinked_basenames unlinked_db_images).1 in
   let id_to_idx := (index_maps unlinked_basenames unlinked_db_images).2 in
   let set_ids := colmap_point3D_id_to_set_id (map_points rec kmaps id_to_idx) in
   resolved rec kmaps id_to_idx 7 0
   ∧ PyDict.get 7%Z set_ids = Some 0%Z
   ∧ SolverInput.observed unlinked_point_data 1 0
   ∧ PyDict.get 1%nat idx_to_id = Some 2%Z
   ∧ PyDict.get 2%Z (registered_image_ids_map rec)
     = Some (unlinked_image 2 30 40 (-1))
   ∧ cameras rec !! 1%Z = Some sample_camera
   ∧ model sample_camera = SIMPLE_PINHOLE
   ∧ params sample_camera = [1000; 960; 540]
   ∧ rigid_apply unlinked_pose (0, 0, 5) = (0, 0, 5)
   ∧ 1e-6 < 5
   ∧ ∃ errs,
       reprojection_errors rec set_ids idx_to_id = Some errs
       ∧ errs !! 0%Z ≫= (.!! 1%nat) = None
       ∧ is_Some (errs !! 0%Z ≫= (.!! 0%nat)))
  ∧ rigid_apply (cam_from_world sample_image) (0, 0, 5) = (1, 2, 8)
  ∧ 1e-6 < 8
  ∧ PyDict.get 1%Z (registered_image_ids_map sample_reconstruction_other)
      = Some sample_image
  ∧ PyDict.get 7%Z [(7%Z, 0%Z)] = Some 0%Z
  ∧ reprojection_errors sample_reconstruction_other [(7%Z, 0%Z)] [(0%nat, 1%Z)]
      = Some ∅.
Proof.
  split.
  { assert (rigid_apply unlinked_pose (0, 0, 5) = (0, 0, 5)) as Hpose.
    { unfold rigid_apply, mat_vec, vec_add, dot. simpl. repeat f_equal; ring. }
    assert (colmap_point3D_id_to_set_id
              (map_points unlinked_reconstruction
                 (SolverInput.keypoint_maps unlinked_point_data 3)
                 (index_maps unlinked_basenames unlinked_db_images).2)
            = [(7%Z, 0%Z)]) as Hids by (vm_compute; reflexivity).
    cbv zeta. rewrite Hids.
    split_and!.
    - eexists. split; [left|]. vm_compute. reflexivity.
    - reflexivity.
    - vm_compute. by eexists.
    - reflexivity.
    - reflexivity.
    - reflexivity.
    - reflexivity.
    - reflexivity.
    - exact Hpose.
    - lra.
    - destruct (reprojection_errors_lookup unlinked_reconstruction [(7%Z, 0%Z)]
                  (index_maps unlinked_basenames unlinked_db_images).1 ∅
                  unlinked_cameras_present
                  (index_maps_keys_NoDup unlinked_basenames unlinked_db_images))
        as (errs & Hrun & Hlook).
      exists errs. split; [exact Hrun|]. rewrite !Hlook, !lookup_empty.
      split.
      + reflexivity.
      + assert (expected_entry unlinked_reconstruction [(7%Z, 0%Z)]
                  (index_maps unlinked_basenames unlinked_db_images).1 0 0
                = reprojection_error sample_camera unlinked_pose (0, 0, 5) (10, 20))
          as ->.
        { assert ((index_maps unlinked_basenames unlinked_db_images).1
                  = [(0%nat, 1%Z); (1%nat, 2%Z); (2%nat, 3%Z)]) as ->
            by (vm_compute; reflexivity).
          unfold expected_entry.
          assert (PyDict.get 0%nat [(0%nat, 1%Z); (1%nat, 2%Z); (2%nat, 3%Z)]
                  = Some 1%Z) as -> by reflexivity.
          cbn [mbind option_bind].
          assert (PyDict.get 1%Z (registered_image_ids_map unlinked_reconstruction)
                  = Some (unlinked_image 1 10 20 7)) as -> by reflexivity.
          cbn [mbind option_bind unlinked_image camera_id unlinked_reconstruction
               cameras].
          rewrite lookup_singleton_eq. cbn [mbind option_bind].
          unfold image_entries, observation_error.
          cbn -[reprojection_error].
          repeat (case_decide; [|done]).
          by destruct (reprojection_error _ _ _ _). }
        rewrite (reprojection_error_pinhole _ _ _ _ 0 0 5 1000 960 540);
          [by eexists|done|lra|done|done]. }
  split_and!.
  - unfold rigid_apply, mat_vec, vec_add, dot. simpl. repeat f_equal; ring.
  - lra.
  - reflexivity.
  - reflexivity.
  - unfold reprojection_errors, reproject_image, image_errors, observation_error.
    cbn -[reprojection_error]. case_decide; [|done].
    cbn -[reprojection_error]. rewrite lookup_singleton_eq.
    cbn -[reprojection_error]. repeat (case_decide; [|done]).
    rewrite reprojection_error_other_model; done.
Qed.
End Reprojection.

Section Coverage.
Implicit Types (rec : Reconstruction) (res : CalibrationResults).
Implicit Types (pd : gmap Z (gmap nat (QPointF * CrosshairMarker))).

(** *** Track elements and set ids *)

(** What one track element gives in the scan of [find_set_id]. *)
Lemma find_set_id_cons inverse_maps id_to_idx el rest :
  find_set_id inverse_maps id_to_idx (el :: rest)
  = match PyDict.get (track_image_id el) id_to_idx
            ≫= (λ img, inverse_maps !! img
                         ≫= (λ inverse_map, PyDict.get (point2D_idx el) inverse_map)) with
    | Some set_id => Some set_id
    | None => find_set_id inverse_maps id_to_idx rest
    end.
Proof.
  simpl. destruct (PyDict.get (track_image_id el) id_to_idx) as [img|]; [|done].
  simpl. destruct (inverse_maps !! img) as [m|]; [|done]. simpl.
  by destruct (PyDict.get (point2D_idx el) m).
Qed.

Lemma resolve_step pd n id_to_idx el t :
  PyDict.get (track_image_id el) id_to_idx
    ≫= (λ img, keypoint_idx_to_set_id_map (SolverInput.keypoint_maps pd n) !! img
                 ≫= (λ inverse_map, PyDict.get (point2D_idx el) inverse_map))
  = Some t
  ↔ resolves pd n id_to_idx el t.
Proof.
  unfold resolves.
  destruct (PyDict.get (track_image_id el) id_to_idx) as [img|]; simpl.
  2:{ split; [done|]. by intros (? & ? & _). }
  unfold keypoint_idx_to_set_id_map. rewrite list_lookup_fmap.
  destruct (decide (img < n)) as [Hlt|Hge].
  - rewrite SolverInputFacts.keypoint_maps_lookup by done. simpl.
    rewrite <- SolverInputFacts.keypoint_map_inverse.
    unfold SolverInput.keypoint_index. split.
    + intros Hk. by exists img.
    + by intros (? & [= <-] & _ & Hk).
  - rewrite lookup_ge_None_2.
    2:{ unfold SolverInput.keypoint_maps. rewrite length_fmap, length_seq. lia. }
    simpl. split; [done|]. intros (? & [= <-] & ? & _). lia.
Qed.

Lemma find_set_id_first pd n id_to_idx elements t :
  find_set_id (keypoint_idx_to_set_id_map (SolverInput.keypoint_maps pd n))
              id_to_idx elements = Some t
  ↔ ∃ before el after,
      elements = before ++ el :: after
      ∧ resolves pd n id_to_idx el t
      ∧ ∀ el' t', el' ∈ before → ¬ resolves pd n id_to_idx el' t'.
Proof.
  induction elements as [|el rest IH].
  { split; [done|]. intros (before & el & after & Heq & _).
    by destruct before. }
  rewrite find_set_id_cons.
  destruct (PyDict.get (track_image_id el) id_to_idx ≫= _) as [t0|] eqn:Hstep.
  - apply resolve_step in Hstep. split.
    + intros [= <-]. exists [], el, rest. split_and!; [done..|].
      by intros ? ? ?%elem_of_nil.
    + intros ([|b before] & el' & after & Heq & Hres & Hbefore).
      * injection Heq as <- <-. destruct Hstep as (img & Hg & _ & Hk).
        destruct Hres as (img' & Hg' & _ & Hk').
        rewrite Hg in Hg'. injection Hg' as <-. f_equal.
        by eapply SolverInputFacts.keypoint_map_injective.
      * injection Heq as <- _. destruct (Hbefore el t0); [left|done].
  - rewrite IH. split.
    + intros (before & el' & after & -> & Hres & Hbefore).
      exists (el :: before), el', after. split_and!; [done..|].
      intros el'' t' [->|Hin]%elem_of_cons; [|by apply Hbefore].
      intros Hr%resolve_step. congruence.
    + intros ([|b before] & el' & after & Heq & Hres & Hbefore).
      * injection Heq as <- <-. apply resolve_step in Hres. congruence.
      * injection Heq as <- ->. exists before, el', after.
        split_and!; [done..|]. intros el'' t' Hin. apply Hbefore. by right.
Qed.

Lemma find_set_id_None pd n id_to_idx elements :
  find_set_id (keypoint_idx_to_set_id_map (SolverInput.keypoint_maps pd n))
              id_to_idx elements = None
  ↔ ∀ el t, el ∈ elements → ¬ resolves pd n id_to_idx el t.
Proof.
  induction elements as [|el rest IH].
  { split; [|done]. by intros _ ? ? ?%elem_of_nil. }
  rewrite find_set_id_cons.
  destruct (PyDict.get (track_image_id el) id_to_idx ≫= _) as [t0|] eqn:Hstep.
  - apply resolve_step in Hstep. split; [done|].
    intros Hall. destruct (Hall el t0); [left|done].
  - rewrite IH. split.
    + intros Hall el' t [->|Hin]%elem_of_cons; [|by apply Hall].
      intros Hr%resolve_step. congruence.
    + intros Hall el' t Hin. apply Hall. by right.
Qed.

(** X10. Mapping a 3-D point back to a point set inverts the solver-input
    build: the set id found for a track is the set whose keypoint, in the
    keypoint map built for the image, is the keypoint of the first track
    element that refers to a keypoint of a known image; that set has an
    observation in that image; and nothing is found exactly when no element
    refers to such a keypoint. *)
Theorem set_id_of_first_resolving_element pd n id_to_idx elements :
  (∀ t,
     find_set_id (keypoint_idx_to_set_id_map (SolverInput.keypoint_maps pd n))
                 id_to_idx elements = Some t
     ↔ ∃ before el after,
         elements = before ++ el :: after
         ∧ resolves pd n id_to_idx el t
         ∧ ∀ el' t', el' ∈ before → ¬ resolves pd n id_to_idx el' t')
  ∧ (find_set_id (keypoint_idx_to_set_id_map (SolverInput.keypoint_maps pd n))
                 id_to_idx elements = None
     ↔ ∀ el t, el ∈ elements → ¬ resolves pd n id_to_idx el t)
  ∧ (∀ el t, resolves pd n id_to_idx el t →
       ∃ img, PyDict.get (track_image_id el) id_to_idx = Some img
              ∧ SolverInput.observed pd img t).
Proof.
  split_and!.
  - intros t. apply find_set_id_first.
  - apply find_set_id_None.
  - intros el t (img & Hg & _ & Hk). exists img. split; [done|].
    apply SolverInputFacts.keypoint_map_get_is_Some. by exists (point2D_idx el).
Qed.

(** *** The two index maps *)

Lemma index_maps_snoc basenames basename all_db_images :
  index_maps (basenames ++ [basename]) all_db_images
  = match PyDict.get basename (name_to_id_map all_db_images) with
    | Some colmap_id =>
        (PyDict.set (length basenames) colmap_id (index_maps basenames all_db_images).1,
         PyDict.set colmap_id (length basenames) (index_maps basenames all_db_images).2)
    | None => index_maps basenames all_db_images
    end.
Proof.
  unfold index_maps. rewrite imap_app, foldl_app. simpl.
  by rewrite Nat.add_0_r.
Qed.

Lemma index_maps_spec basenames all_db_images :
  (∀ idx cid,
     PyDict.get idx (index_maps basenames all_db_images).1 = Some cid
     ↔ ∃ basename, basenames !! idx = Some basename
         ∧ PyDict.get basename (name_to_id_map all_db_images) = Some cid)
  ∧ (∀ cid idx,
       PyDict.get cid (index_maps basenames all_db_images).2 = Some idx →
       PyDict.get idx (index_maps basenames all_db_images).1 = Some cid)
  ∧ (∀ idx cid,
       PyDict.get idx (index_maps basenames all_db_images).1 = Some cid →
       ∃ idx', PyDict.get cid (index_maps basenames all_db_images).2 = Some idx'
               ∧ idx ≤ idx').
Proof.
  induction basenames as [|b bs (Ha & Hb & Hc)] using rev_ind.
  { split_and!; try done. intros idx cid. split; [done|]. by intros (? & ? & _). }
  rewrite index_maps_snoc.
  assert (∀ idx cid, PyDict.get idx (index_maps bs all_db_images).1 = Some cid →
                     idx < length bs) as Hlt.
  { intros idx cid (name & Hl & _)%Ha. by eapply lookup_lt_Some. }
  destruct (PyDict.get b (name_to_id_map all_db_images)) as [c|] eqn:Hget; simpl.
  - split_and!.
    + intros idx cid. destruct (decide (idx = length bs)) as [->|Hne].
      * rewrite PyDictFacts.get_set_eq. split.
        -- intros [= <-]. exists b. split; [|done].
           by rewrite lookup_app_r, Nat.sub_diag by lia.
        -- intros (name & Hl & Hn).
           rewrite lookup_app_r, Nat.sub_diag in Hl by lia.
           injection Hl as <-. congruence.
      * rewrite PyDictFacts.get_set_ne by done. rewrite Ha.
        split; intros (name & Hl & Hn); exists name; (split; [|done]).
        -- rewrite lookup_app_l; [done|]. by eapply lookup_lt_Some.
        -- apply lookup_app_Some in Hl as [Hl|[Hge Hl]]; [done|].
           apply list_lookup_singleton_Some in Hl as [Hz _]. lia.
    + intros cid idx. destruct (decide (cid = c)) as [->|Hne].
      * rewrite PyDictFacts.get_set_eq. intros [= <-].
        by rewrite PyDictFacts.get_set_eq.
      * rewrite PyDictFacts.get_set_ne by done. intros Hr%Hb.
        rewrite PyDictFacts.get_set_ne; [done|].
        apply Hlt in Hr. lia.
    + intros idx cid. destruct (decide (idx = length bs)) as [->|Hne].
      * rewrite PyDictFacts.get_set_eq. intros [= <-].
        exists (length bs). by rewrite PyDictFacts.get_set_eq.
      * rewrite PyDictFacts.get_set_ne by done. intros Hf.
        destruct (decide (cid = c)) as [->|Hnec].
        -- exists (length bs). rewrite PyDictFacts.get_set_eq.
           split; [done|]. apply Hlt in Hf. lia.
        -- rewrite PyDictFacts.get_set_ne by done. by apply Hc.
  - split_and!; [|done..].
    intros idx cid. rewrite Ha.
    split; intros (name & Hl & Hn); exists name; (split; [|done]).
    + rewrite lookup_app_l; [done|]. by eapply lookup_lt_Some.
    + apply lookup_app_Some in Hl as [Hl|[Hge Hl]]; [done|].
      apply list_lookup_singleton_Some in Hl as [_ <-]. congruence.
Qed.

(** X11. The two index maps built from the image paths and the database
    agree: an image index is mapped to a solver image id exactly when the
    database has an image named by the base name of its path, and then to
    the id the database gives for that name; every entry of the reverse
    map is an entry of the forward map read backwards; and every id in the
    forward map is in the reverse map, which gives the last image index
    mapped to it. *)
Theorem index_maps_agree basenames all_db_images :
  (∀ idx cid,
     PyDict.get idx (index_maps basenames all_db_images).1 = Some cid
     ↔ ∃ basename, basenames !! idx = Some basename
         ∧ PyDict.get basename (name_to_id_map all_db_images) = Some cid)
  ∧ (∀ cid idx,
       PyDict.get cid (index_maps basenames all_db_images).2 = Some idx →
       PyDict.get idx (index_maps basenames all_db_images).1 = Some cid)
  ∧ (∀ idx cid,
       PyDict.get idx (index_maps basenames all_db_images).1 = Some cid →
       ∃ idx', PyDict.get cid (index_maps basenames all_db_images).2 = Some idx'
               ∧ idx ≤ idx'
               ∧ ∀ idx'', PyDict.get idx'' (index_maps basenames all_db_images).1
                            = Some cid → idx'' ≤ idx').
Proof.
  destruct (index_maps_spec basenames all_db_images) as (Ha & Hb & Hc).
  split_and!; [done..|].
  intros idx cid (idx' & Hr & Hle)%Hc. exists idx'. split_and!; [done..|].
  intros idx'' (idx3 & Hr3 & Hle3)%Hc. rewrite Hr in Hr3. by injection Hr3 as <-.
Qed.

(** *** 3-D points and their ids *)

Lemma map_points_fold inverse_maps id_to_idx (l : list (Z * Point3D)) st :
  points_list (foldl (point_step inverse_maps id_to_idx) st l)
  = points_list st ++ ((λ item, xyz item.2) <$> l)
  ∧ point_ids_list (foldl (point_step inverse_maps id_to_idx) st l)
    = point_ids_list st
      ++ ((λ item, find_set_id inverse_maps id_to_idx (track_elements item.2)) <$> l).
Proof.
  revert st. induction l as [|[p3d_id point3d] l IH]; intros st.
  { simpl. by rewrite !app_nil_r. }
  cbn [foldl]. rewrite !fmap_cons. cbn [snd].
  destruct (IH (point_step inverse_maps id_to_idx st (p3d_id, point3d))) as [-> ->].
  unfold point_step.
  destruct (find_set_id inverse_maps id_to_idx (track_elements point3d));
    simpl; by rewrite <- !app_assoc.
Qed.

(** X12. The lists [points_3d] and [point_ids] of a calibration result
    correspond index by index to the 3-D points of the reconstruction, in
    its iteration order: entry k holds the coordinates of the k-th point
    and the set id its track resolves to, [None] when it resolves to none;
    no point is left out. *)
Theorem points_and_ids_correspond rec kmaps id_to_idx :
  length (points_list (map_points rec kmaps id_to_idx)) = length (points3D rec)
  ∧ length (point_ids_list (map_points rec kmaps id_to_idx)) = length (points3D rec)
  ∧ ∀ k p3d_id point3D,
      points3D rec !! k = Some (p3d_id, point3D) →
      points_list (map_points rec kmaps id_to_idx) !! k = Some (xyz point3D)
      ∧ point_ids_list (map_points rec kmaps id_to_idx) !! k
        = Some (find_set_id (keypoint_idx_to_set_id_map kmaps) id_to_idx
                            (track_elements point3D)).
Proof.
  unfold map_points, PyDict.items.
  destruct (map_points_fold (keypoint_idx_to_set_id_map kmaps) id_to_idx
              (points3D rec)
              {| points_list := []; point_ids_list := [];
                 colmap_point3D_id_to_set_id := [] |}) as [-> ->].
  simpl. rewrite !length_fmap. split_and!; [done..|].
  intros k p3d_id point3D Hk. rewrite !list_lookup_fmap, Hk. done.
Qed.


(** *** Intrinsics *)

(** The intrinsics block stores [K] for image [i]: a registered image of a
    simple pinhole camera with three parameters. *)
Lemma extract_image_cases rec res img_idx cid res' :
  extract_image rec res (img_idx, cid) = Some res' →
  (∃ image camera f cx cy,
     PyDict.get cid (registered_image_ids_map rec) = Some image
     ∧ cameras rec !! camera_id image = Some camera
     ∧ model camera = SIMPLE_PINHOLE ∧ params camera = [f; cx; cy]
     ∧ intrinsics res' = <[img_idx := ((f, 0, cx), (0, f, cy), (0, 0, 1))%R]> (intrinsics res)
     ∧ poses res' = <[img_idx := inverted_pose image]> (poses res)
     ∧ registered_indices res' = registered_indices res ++ [img_idx])
  ∨ ((¬ ∃ image camera f cx cy,
        PyDict.get cid (registered_image_ids_map rec) = Some image
        ∧ cameras rec !! camera_id image = Some camera
        ∧ model camera = SIMPLE_PINHOLE ∧ params camera = [f; cx; cy])
     ∧ intrinsics res' = intrinsics res
     ∧ ((poses res' = poses res ∧ registered_indices res' = registered_indices res)
        ∨ (∃ p, poses res' = <[img_idx := p]> (poses res)
                ∧ registered_indices res' = registered_indices res ++ [img_idx]))).
Proof.
  unfold extract_image.
  destruct (PyDict.get cid (registered_image_ids_map rec)) as [image|] eqn:Himg.
  2:{ intros [= <-]. right. split_and!; [|done|by left].
      by intros (? & ? & ? & ? & ? & ? & _). }
  destruct (cameras rec !! camera_id image) as [camera|] eqn:Hcam; [|done]. simpl.
  destruct (model camera) as [|other] eqn:Hmodel.
  - destruct (params camera) as [|f [|cx [|cy [|extra ps]]]] eqn:Hparams;
      intros [= <-].
    4:{ left. exists image, camera, f, cx, cy. split_and!; try done.
        - by destruct (store_pose_inverted img_idx image
                         (store_intrinsics img_idx f cx cy res)) as [-> _].
      }
    all: right; (split_and!; [|done|by left]);
      intros (image' & camera' & f' & cx' & cy' & [= <-] & Hc & _ & Hp);
      rewrite Hcam in Hc; injection Hc as <-; by rewrite Hparams in Hp.
  - intros [= <-]. right. split_and!; [|done|].
    + intros (image' & camera' & f' & cx' & cy' & [= <-] & Hc & Hm & _).
      rewrite Hcam in Hc. injection Hc as <-. by rewrite Hmodel in Hm.
    + right. exists (inverted_pose image). apply store_pose_inverted.
Qed.

Lemma intrinsics_fold rec (items done : list (nat * Z)) res res' :
  NoDup (PyDict.keys (done ++ items)) →
  ((∀ i K, intrinsics res !! i = Some K ↔
      ∃ cid image camera f cx cy,
        (i, cid) ∈ done
        ∧ PyDict.get cid (registered_image_ids_map rec) = Some image
        ∧ cameras rec !! camera_id image = Some camera
        ∧ model camera = SIMPLE_PINHOLE ∧ params camera = [f; cx; cy]
        ∧ K = ((f, 0, cx), (0, f, cy), (0, 0, 1))%R)
   ∧ (∀ i, is_Some (intrinsics res !! i) → is_Some (poses res !! i))
   ∧ NoDup (registered_indices res)
   ∧ (∀ i, i ∈ registered_indices res → i ∈ PyDict.keys done)) →
  foldl (λ acc item, r ← acc; extract_image rec r item) (Some res) items = Some res' →
  (∀ i K, intrinsics res' !! i = Some K ↔
      ∃ cid image camera f cx cy,
        (i, cid) ∈ done ++ items
        ∧ PyDict.get cid (registered_image_ids_map rec) = Some image
        ∧ cameras rec !! camera_id image = Some camera
        ∧ model camera = SIMPLE_PINHOLE ∧ params camera = [f; cx; cy]
        ∧ K = ((f, 0, cx), (0, f, cy), (0, 0, 1))%R)
  ∧ (∀ i, is_Some (intrinsics res' !! i) → is_Some (poses res' !! i))
  ∧ NoDup (registered_indices res')
  ∧ (∀ i, i ∈ registered_indices res' → i ∈ PyDict.keys (done ++ items)).
Proof.
  revert done res. induction items as [|[img_idx cid] items IH]; intros done res Hnd Hinv.
  { simpl. intros [= <-]. by rewrite app_nil_r. }
  cbn [foldl mbind option_bind].
  destruct (extract_image rec res (img_idx, cid)) as [res1|] eqn:Hstep.
  2:{ intros Hf. exfalso. clear -Hf. induction items; simpl in Hf; [done|auto]. }
  intros Hfold.
  replace (done ++ (img_idx, cid) :: items) with ((done ++ [(img_idx, cid)]) ++ items)
    in * by (by rewrite <- app_assoc).
  apply (IH (done ++ [(img_idx, cid)]) res1); [done| |done].
  clear IH Hfold. destruct Hinv as (Hk & Hp & Hr & Hsub).
  assert (img_idx ∉ PyDict.keys done) as Hfresh.
  { unfold PyDict.keys in *. rewrite !fmap_app in Hnd.
    apply NoDup_app in Hnd as [Hnd _]. apply NoDup_app in Hnd as (_ & Hdis & _).
    intros Hin. apply (Hdis _ Hin). simpl. left. }
  assert (∀ i c, (i, c) ∈ done → i ≠ img_idx) as Hdone.
  { intros i c Hin ->. apply Hfresh. unfold PyDict.keys.
    apply list_elem_of_fmap. by exists (img_idx, c). }
  apply extract_image_cases in Hstep
    as [(image & camera & f & cx & cy & Himg & Hcam & Hm & Hps & -> & -> & ->)
       |(Hno & -> & Hposes)].
  - split_and!.
    + intros i K. destruct (decide (i = img_idx)) as [->|Hne].
      * rewrite lookup_insert_eq. split.
        -- intros [= <-]. exists cid, image, camera, f, cx, cy.
           split_and!; try done. apply elem_of_app. right. left.
        -- intros (cid' & image' & camera' & f' & cx' & cy' & Hin & Hi & Hc & _ & Hp' & ->).
           apply elem_of_app in Hin as [Hin|Hin%list_elem_of_singleton].
           { by destruct (Hdone _ _ Hin). }
           injection Hin as <-. rewrite Himg in Hi. injection Hi as <-.
           rewrite Hcam in Hc. injection Hc as <-.
           rewrite Hps in Hp'. by injection Hp' as <- <- <-.
      * rewrite lookup_insert_ne by done. rewrite Hk.
        split; intros (cid' & image' & camera' & f' & cx' & cy' & Hin & Hrest);
          exists cid', image', camera', f', cx', cy'; (split; [|done]).
        -- apply elem_of_app. by left.
        -- apply elem_of_app in Hin as [Hin|Hin%list_elem_of_singleton]; [done|].
           by injection Hin as -> _.
    + intros i. destruct (decide (i = img_idx)) as [->|Hne].
      * rewrite !lookup_insert_eq. by eexists.
      * rewrite !lookup_insert_ne by done. apply Hp.
    + apply NoDup_app. split_and!; [done| |apply NoDup_singleton].
      intros i Hi ->%list_elem_of_singleton. by apply Hfresh, Hsub.
    + intros i [Hi| ->%list_elem_of_singleton]%elem_of_app;
        unfold PyDict.keys; rewrite fmap_app, elem_of_app.
      * left. by apply Hsub.
      * right. simpl. left.
  - assert (∀ i, i ∈ registered_indices res ++ [img_idx] →
                 i ∈ PyDict.keys (done ++ [(img_idx, cid)])) as Hsub'.
    { intros i [Hi| ->%list_elem_of_singleton]%elem_of_app;
        unfold PyDict.keys; rewrite fmap_app, elem_of_app.
      - left. by apply Hsub.
      - right. simpl. left. }
    assert (∀ i K, intrinsics res !! i = Some K ↔
      ∃ cid0 image camera f cx cy,
        (i, cid0) ∈ done ++ [(img_idx, cid)]
        ∧ PyDict.get cid0 (registered_image_ids_map rec) = Some image
        ∧ cameras rec !! camera_id image = Some camera
        ∧ model camera = SIMPLE_PINHOLE ∧ params camera = [f; cx; cy]
        ∧ K = ((f, 0, cx), (0, f, cy), (0, 0, 1))%R) as Hk'.
    { intros i K. rewrite Hk.
      split; intros (cid' & image' & camera' & f' & cx' & cy' & Hin & Hi & Hc & Hm & Hp' & HK);
        exists cid', image', camera', f', cx', cy'; (split; [|done]).
      - apply elem_of_app. by left.
      - apply elem_of_app in Hin as [Hin|Hin%list_elem_of_singleton]; [done|].
        injection Hin as -> ->. destruct Hno. by exists image', camera', f', cx', cy'. }
    destruct Hposes as [[-> ->]|(p & -> & ->)].
    + split_and!; [done..|].
      intros i Hi. apply Hsub'. apply elem_of_app. by left.
    + split_and!; [done| | |done].
      * intros i Hi%Hp. destruct (decide (i = img_idx)) as [->|Hne].
        -- rewrite lookup_insert_eq. by eexists.
        -- by rewrite lookup_insert_ne.
      * apply NoDup_app. split_and!; [done| |apply NoDup_singleton].
        intros i Hi ->%list_elem_of_singleton. by apply Hfresh, Hsub.
Qed.

(** X13. After the extraction loop, [intrinsics] holds a matrix for an image
    index exactly when the index is mapped to a registered image whose
    camera is a simple pinhole camera with three parameters (f, cx, cy),
    and the matrix is then [[f, 0, cx], [0, f, cy], [0, 0, 1]]; every index
    with intrinsics also has a pose and is listed in [registered_indices],
    which lists no index twice. *)
Theorem intrinsics_of_pinhole_images rec basenames all_db_images :
  cameras_present rec →
  ∃ res,
    extract_images rec (index_maps basenames all_db_images).1 = Some res
    ∧ (∀ i K, intrinsics res !! i = Some K ↔
         ∃ cid image camera f cx cy,
           PyDict.get i (index_maps basenames all_db_images).1 = Some cid
           ∧ PyDict.get cid (registered_image_ids_map rec) = Some image
           ∧ cameras rec !! camera_id image = Some camera
           ∧ model camera = SIMPLE_PINHOLE ∧ params camera = [f; cx; cy]
           ∧ K = ((f, 0, cx), (0, f, cy), (0, 0, 1))%R)
    ∧ (∀ i, is_Some (intrinsics res !! i) →
         is_Some (poses res !! i) ∧ i ∈ registered_indices res)
    ∧ NoDup (registered_indices res).
Proof.
  intros Hpresent.
  pose proof (index_maps_keys_NoDup basenames all_db_images) as Hnd.
  destruct (poses_invariant_fold rec (index_maps basenames all_db_images).1 []
              empty_results Hpresent (poses_invariant_empty rec))
    as (res & Hfold & Hreg & _ & _).
  exists res. split; [exact Hfold|].
  destruct (intrinsics_fold rec (index_maps basenames all_db_images).1 []
              empty_results res) as (Hk & Hp & Hr & _); [done| |exact Hfold|].
  { simpl. split_and!.
    - intros i K. rewrite lookup_empty. split; [done|].
      by intros (? & ? & ? & ? & ? & ? & ?%elem_of_nil & _).
    - intros i. rewrite lookup_empty. by intros [].
    - constructor.
    - by intros i ?%elem_of_nil. }
  simpl in Hk. split_and!; [|by intros i Hi%Hp; split; [|apply Hreg]|done].
  intros i K. rewrite Hk.
  split; intros (cid & image & camera & f & cx & cy & Hin & Hrest);
    exists cid, image, camera, f, cx, cy; (split; [|done]).
  - by apply PyDictFacts.get_elem_NoDup.
  - by apply PyDictFacts.get_Some_elem.
Qed.

Lemma intrinsics_of_pinhole_images_witness :
  ∃ res,
    extract_images sample_reconstruction
      (index_maps sample_basenames sample_db_images).1 = Some res
    ∧ (∀ i K, intrinsics res !! i = Some K ↔
         ∃ cid image camera f cx cy,
           PyDict.get i (index_maps sample_basenames sample_db_images).1 = Some cid
           ∧ PyDict.get cid (registered_image_ids_map sample_reconstruction) = Some image
           ∧ cameras sample_reconstruction !! camera_id image = Some camera
           ∧ model camera = SIMPLE_PINHOLE ∧ params camera = [f; cx; cy]
           ∧ K = ((f, 0, cx), (0, f, cy), (0, 0, 1))%R)
    ∧ (∀ i, is_Some (intrinsics res !! i) →
         is_Some (poses res !! i) ∧ i ∈ registered_indices res)
    ∧ NoDup (registered_indices res).
Proof.
  apply (intrinsics_of_pinhole_images sample_reconstruction sample_basenames
           sample_db_images).
  exact sample_cameras_present.
Defined.

(** *** The stored pose as a transform *)

Local Open Scope R_scope.

Lemma orthogonal_entries a b c d e f g h i :
  orthogonal ((a, b, c), (d, e, f), (g, h, i)) →
  (a * a + b * b + c * c = 1 ∧ a * d + b * e + c * f = 0 ∧ a * g + b * h + c * i = 0
   ∧ d * d + e * e + f * f = 1 ∧ d * g + e * h + f * i = 0
   ∧ g * g + h * h + i * i = 1)
  ∧ (a * a + d * d + g * g = 1 ∧ a * b + d * e + g * h = 0 ∧ a * c + d * f + g * i = 0
     ∧ b * b + e * e + h * h = 1 ∧ b * c + e * f + h * i = 0
     ∧ c * c + f * f + i * i = 1).
Proof.
  unfold orthogonal, mat_mul, transpose, identity, dot. simpl.
  intros [H1 H2]. injection H1 as ? ? ? ? ? ? ? ? ?.
  injection H2 as ? ? ? ? ? ? ? ? ?. split_and!; lra.
Qed.

(** X14. When the solver's rotation is a rotation matrix (its transpose is
    its inverse), the pose stored for an image is the inverse of the
    image's world-to-camera transform: applying one after the other, in
    either order, gives the point back; the stored translation is the
    camera centre, the point the world-to-camera transform sends to the
    origin; and the stored rotation is again a rotation matrix. *)
Theorem stored_pose_inverts_world_to_camera img_idx image res :
  orthogonal (rotation_matrix (cam_from_world image)) →
  ∃ p,
    poses (store_pose img_idx image res) !! img_idx = Some p
    ∧ (∀ x, pose_apply p (rigid_apply (cam_from_world image) x) = x)
    ∧ (∀ y, rigid_apply (cam_from_world image) (pose_apply p y) = y)
    ∧ rigid_apply (cam_from_world image) (pose_t p) = (0, 0, 0)
    ∧ orthogonal (pose_R p).
Proof.
  intros Horth. eexists. split.
  { unfold store_pose. simpl. apply lookup_insert_eq. }
  destruct (cam_from_world image) as [[[[[a b] c] [[d e] f]] [[g h] i]] [[t1 t2] t3]].
  simpl in Horth.
  pose proof (orthogonal_entries _ _ _ _ _ _ _ _ _ Horth)
    as [(R1 & R2 & R3 & R4 & R5 & R6) (C1 & C2 & C3 & C4 & C5 & C6)].
  unfold pose_apply, rigid_apply, vec_add, mat_vec, mat_opp, vec_opp, transpose, dot.
  simpl. split_and!.
  - intros [[x1 x2] x3]. f_equal; [f_equal|].
    + transitivity ((a * a + d * d + g * g) * x1 + (a * b + d * e + g * h) * x2
                    + (a * c + d * f + g * i) * x3); [ring|].
      rewrite C1, C2, C3. ring.
    + transitivity ((a * b + d * e + g * h) * x1 + (b * b + e * e + h * h) * x2
                    + (b * c + e * f + h * i) * x3); [ring|].
      rewrite C2, C4, C5. ring.
    + transitivity ((a * c + d * f + g * i) * x1 + (b * c + e * f + h * i) * x2
                    + (c * c + f * f + i * i) * x3); [ring|].
      rewrite C3, C5, C6. ring.
  - intros [[y1 y2] y3]. f_equal; [f_equal|].
    + transitivity ((a * a + b * b + c * c) * (y1 - t1) + (a * d + b * e + c * f) * (y2 - t2)
                    + (a * g + b * h + c * i) * (y3 - t3) + t1); [ring|].
      rewrite R1, R2, R3. ring.
    + transitivity ((a * d + b * e + c * f) * (y1 - t1) + (d * d + e * e + f * f) * (y2 - t2)
                    + (d * g + e * h + f * i) * (y3 - t3) + t2); [ring|].
      rewrite R2, R4, R5. ring.
    + transitivity ((a * g + b * h + c * i) * (y1 - t1) + (d * g + e * h + f * i) * (y2 - t2)
                    + (g * g + h * h + i * i) * (y3 - t3) + t3); [ring|].
      rewrite R3, R5, R6. ring.
  - f_equal; [f_equal|].
    + transitivity (- (a * a + b * b + c * c) * t1 - (a * d + b * e + c * f) * t2
                    - (a * g + b * h + c * i) * t3 + t1); [ring|].
      rewrite R1, R2, R3. ring.
    + transitivity (- (a * d + b * e + c * f) * t1 - (d * d + e * e + f * f) * t2
                    - (d * g + e * h + f * i) * t3 + t2); [ring|].
      rewrite R2, R4, R5. ring.
    + transitivity (- (a * g + b * h + c * i) * t1 - (d * g + e * h + f * i) * t2
                    - (g * g + h * h + i * i) * t3 + t3); [ring|].
      rewrite R3, R5, R6. ring.
  - unfold orthogonal, mat_mul, transpose, identity, dot. simpl.
    split; repeat f_equal; lra.
Qed.

Lemma stored_pose_inverts_world_to_camera_witness :
  ∃ p,
    poses (store_pose 0 sample_image empty_results) !! 0%nat = Some p
    ∧ (∀ x, pose_apply p (rigid_apply (cam_from_world sample_image) x) = x)
    ∧ (∀ y, rigid_apply (cam_from_world sample_image) (pose_apply p y) = y)
    ∧ rigid_apply (cam_from_world sample_image) (pose_t p) = (0, 0, 0)
    ∧ orthogonal (pose_R p).
Proof.
  apply (stored_pose_inverts_world_to_camera 0 sample_image empty_results).
  unfold orthogonal, mat_mul, transpose, identity, dot. simpl.
  split; repeat f_equal; lra.
Defined.

(** *** The magnitude of a reprojection error *)

(** X15. A stored reprojection error has a magnitude that is the length of
    its vector: it is not negative, its square is dx^2 + dy^2, neither
    component exceeds it in absolute value, and it is zero exactly when the
    observed pixel is the projected pixel (f X/Z + cx, f Y/Z + cy). *)
Theorem reprojection_magnitude_is_length camera pose wp obs e :
  reprojection_error camera pose wp obs = Some e →
  ∃ X Y Z f cx cy,
    rigid_apply pose wp = (X, Y, Z) ∧ 1e-6 < Z ∧ params camera = [f; cx; cy]
    ∧ 0 <= magnitude e
    ∧ magnitude e * magnitude e = dx e * dx e + dy e * dy e
    ∧ Rabs (dx e) <= magnitude e ∧ Rabs (dy e) <= magnitude e
    ∧ (magnitude e = 0 ↔ obs = (f * (X / Z) + cx, f * (Y / Z) + cy)).
Proof.
  unfold reprojection_error.
  destruct (rigid_apply pose wp) as [[X Y] Z].
  destruct (Rlt_dec 1e-6 Z) as [Hz|]; [|done].
  destruct (model camera); [|done].
  destruct (params camera) as [|f [|cx [|cy [|extra ps]]]]; try done.
  intros [= <-]. simpl. exists X, Y, Z, f, cx, cy.
  set (ex := obs.1 - (f * (X / Z) + cx)). set (ey := obs.2 - (f * (Y / Z) + cy)).
  assert (0 <= ex * ex + ey * ey) as Hnn by nra.
  split_and!; try done.
  - apply sqrt_pos.
  - by apply sqrt_sqrt.
  - rewrite <- (sqrt_Rsqr_abs ex). apply sqrt_le_1; unfold Rsqr; nra.
  - rewrite <- (sqrt_Rsqr_abs ey). apply sqrt_le_1; unfold Rsqr; nra.
  - split.
    + intros H0%sqrt_eq_0; [|done].
      assert (ex = 0 ∧ ey = 0) as [Hx Hy] by (split; nra).
      unfold ex, ey in *. destruct obs as [o1 o2]. simpl in *. f_equal; lra.
    + intros ->. unfold ex, ey. simpl.
      replace (_ * _ + _ * _) with 0 by ring. apply sqrt_0.
Qed.

Lemma reprojection_magnitude_is_length_witness :
  ∃ X Y Z f cx cy,
    rigid_apply (cam_from_world sample_image) (0, 0, 5) = (X, Y, Z)
    ∧ 1e-6 < Z ∧ params sample_camera = [f; cx; cy]
    ∧ 0 <= magnitude {| dx := -125; dy := -250; magnitude := sqrt (-125 * -125 + -250 * -250) |}
    ∧ sqrt (-125 * -125 + -250 * -250) * sqrt (-125 * -125 + -250 * -250)
      = -125 * -125 + -250 * -250
    ∧ Rabs (-125) <= sqrt (-125 * -125 + -250 * -250)
    ∧ Rabs (-250) <= sqrt (-125 * -125 + -250 * -250)
    ∧ (sqrt (-125 * -125 + -250 * -250) = 0
       ↔ (960, 540) = (f * (X / Z) + cx, f * (Y / Z) + cy)).
Proof.
  apply (reprojection_magnitude_is_length sample_camera (cam_from_world sample_image)
           (0, 0, 5) (960, 540)
           {| dx := -125; dy := -250; magnitude := sqrt (-125 * -125 + -250 * -250) |}).
  unfold reprojection_error, rigid_apply, vec_add, mat_vec, dot. simpl.
  destruct (Rlt_dec 1e-6 _) as [_|Hn]; [|exfalso; apply Hn; lra].
  f_equal. assert (∀ a b a' b', a = a' → b = b' →
    {| dx := a; dy := b; magnitude := sqrt (a * a + b * b) |}
    = {| dx := a'; dy := b'; magnitude := sqrt (a' * a' + b' * b') |}) as Heq
    by (by intros ? ? ? ? -> ->).
  apply Heq; lra.
Defined.

End Coverage.
End CalibrationFacts.

(** ** glTF export *)

Module GltfFacts.
Import Gltf.

Section Perspective.
Local Open Scope R_scope.

Lemma atan_27_50_bounds : 0.4945 < atan (27 / 50) < 0.4970.
Proof.
  assert (0 < 27 / 50 < 1) as Hx by lra.
  rewrite (atan_eq_ps_atan _ Hx). unfold ps_atan.
  destruct (Ratan.in_int (27 / 50)) as [h|h]; [|exfalso; apply h; lra].
  destruct (ps_atan_exists_1 (27 / 50) h) as [v Hv].
  assert (0 <= 27 / 50 <= 1) as H01 by lra.
  pose proof (alternated_series_ineq (Ratan_seq (27 / 50)) v 1
                (Ratan_seq_decreasing _ H01) (Ratan_seq_converging _ H01) Hv)
    as [Hlo Hhi].
  unfold sum_f_R0, tg_alt, Ratan_seq in Hlo, Hhi. simpl in Hlo, Hhi.
  lra.
Qed.

Lemma PI_gt_3 : 3 < PI.
Proof. pose proof PI2_3_2. lra. Qed.

Lemma perspective_regular (w h : Z) (fx fy : R) :
  (0 < w)%Z → (0 < h)%Z → 1e-9 <= fx → 1e-9 <= fy →
  yfov (perspective w h fx fy) = spec_yfov h fy
  ∧ aspectRatio (perspective w h fx fy) = spec_aspect_ratio w h fx fy.
Proof.
  intros Hw Hh Hfx Hfy.
  assert (1 <= IZR h) as Hh1 by (apply (IZR_le 1); lia).
  unfold perspective, spec_yfov, spec_aspect_ratio. simpl.
  rewrite (Rabs_pos_eq fy) by lra. rewrite (Rabs_pos_eq fx) by lra.
  rewrite (Rabs_pos_eq (IZR h * fx)) by nra.
  destruct (Rlt_dec fy 1e-9); [lra|].
  destruct (Rlt_dec fx 1e-9); [lra|].
  destruct (Rlt_dec (IZR h * fx) 1e-9); [nra|].
  done.
Qed.

Lemma camera_definition_pinhole (w h : Z) (fx fy cx cy : R) :
  (0 < w)%Z → (0 < h)%Z →
  camera_definition (pinhole_K fx fy cx cy) (Some (w, h)) =
    Some (perspective w h fx fy).
Proof.
  intros Hw Hh. unfold camera_definition, pinhole_K. simpl.
  destruct (decide _) as [[?|?]|_]; [lia..|done].
Qed.

Lemma sample_perspective_values :
  Rabs (yfov (perspective 1920 1080 1000 1000) - 0.99) < 0.005
  ∧ Rabs (aspectRatio (perspective 1920 1080 1000 1000) - 1.778) < 0.0005.
Proof.
  destruct (perspective_regular 1920 1080 1000 1000) as [-> ->]; [lia|lia|lra|lra|].
  unfold spec_yfov, spec_aspect_ratio.
  replace (1080 / 2 / 1000) with (27 / 50) by lra.
  pose proof atan_27_50_bounds as [Hlo Hhi]. pose proof PI_gt_3 as Hpi.
  rewrite (Rmax_left (2 * atan (27 / 50))) by lra.
  rewrite Rmin_left by lra.
  rewrite Rmax_right by lra.
  split; apply Rabs_def1; lra.
Qed.

(** C7 (as amended). For an exported camera with focal lengths [fx],
    [fy] of at least 1e-9 and positive image dimensions, the export computes
    [yfov = 2 atan((height / 2) / fy)] clamped to [1e-6, pi - 1e-6] and
    [aspectRatio = (width fy) / (height fx)] floored at 1e-6; for
    [f = 1000, cx = 960, cy = 540] and a 1920 x 1080 image, [yfov] is within
    0.005 of 0.99 and [aspectRatio] within 0.0005 of 1.778. *)
Theorem camera_perspective_from_intrinsics (w h : Z) (fx fy cx cy : R) :
  (0 < w)%Z → (0 < h)%Z → 1e-9 <= fx → 1e-9 <= fy →
  (∃ p,
     camera_definition (pinhole_K fx fy cx cy) (Some (w, h)) = Some p
     ∧ yfov p = Rmin (Rmax (2 * atan ((IZR h / 2) / fy)) 1e-6) (PI - 1e-6)
     ∧ aspectRatio p = Rmax 1e-6 ((IZR w * fy) / (IZR h * fx)))
  ∧ (∃ p,
       camera_definition (pinhole_K 1000 1000 960 540) (Some (1920, 1080)%Z) = Some p
       ∧ Rabs (yfov p - 0.99) < 0.005
       ∧ Rabs (aspectRatio p - 1.778) < 0.0005).
Proof.
  intros Hw Hh Hfx Hfy. split.
  - exists (perspective w h fx fy).
    split; [by apply camera_definition_pinhole|].
    by apply perspective_regular.
  - exists (perspective 1920 1080 1000 1000).
    split; [apply camera_definition_pinhole; lia|].
    apply sample_perspective_values.
Qed.

Lemma camera_perspective_from_intrinsics_witness :
  (∃ p,
     camera_definition (pinhole_K 1000 1000 960 540) (Some (1920, 1080)%Z) = Some p
     ∧ yfov p = Rmin (Rmax (2 * atan ((IZR 1080 / 2) / 1000)) 1e-6) (PI - 1e-6)
     ∧ aspectRatio p = Rmax 1e-6 ((IZR 1920 * 1000) / (IZR 1080 * 1000)))
  ∧ (∃ p,
       camera_definition (pinhole_K 1000 1000 960 540) (Some (1920, 1080)%Z) = Some p
       ∧ Rabs (yfov p - 0.99) < 0.005
       ∧ Rabs (aspectRatio p - 1.778) < 0.0005).
Proof.
  apply (camera_perspective_from_intrinsics 1920 1080 1000 1000 960 540);
    [lia|lia|lra|lra].
Defined.

(** C7 as stated fails: a positive, finite focal length [fx = 1e-10]
    with [fy = 1000] and a 1920 x 1080 image is exported with the aspect
    ratio [width / height], not [(width fy) / (height fx)] floored. *)
Lemma tiny_focal_length_aspect_ratio :
  0 < 1e-10
  ∧ camera_definition (pinhole_K 1e-10 1000 960 540) (Some (1920, 1080)%Z)
      = Some (perspective 1920 1080 1e-10 1000)
  ∧ aspectRatio (perspective 1920 1080 1e-10 1000) = 1920 / 1080
  ∧ aspectRatio (perspective 1920 1080 1e-10 1000)
      ≠ spec_aspect_ratio 1920 1080 1e-10 1000.
Proof.
  assert (aspectRatio (perspective 1920 1080 1e-10 1000) = 1920 / 1080) as Ha.
  { unfold perspective. simpl.
    rewrite (Rabs_pos_eq 1e-10) by lra.
    destruct (Rlt_dec 1e-10 1e-9); [|lra].
    rewrite Rmax_right by lra. done. }
  split_and!; [lra|apply camera_definition_pinhole; lia|done|].
  rewrite Ha. unfold spec_aspect_ratio.
  rewrite Rmax_right.
  - intros Heq.
    assert (1920 * 1000 / (1080 * 1e-10) = 1920 / 1080 * 1e13) as Hbig by (field; lra).
    rewrite Hbig in Heq. lra.
  - assert (1920 * 1000 / (1080 * 1e-10) = 1920 / 1080 * 1e13) as -> by (field; lra).
    lra.
Qed.
End Perspective.
Section CameraNodes.
Local Open Scope R_scope.
Implicit Types (x : Float) (l : list Float).

Lemma is_finite_Finite x : is_finite x = true → ∃ r, x = Finite r.
Proof. destruct x; [by eexists|done..]. Qed.

Lemma any_nan_or_inf_false l :
  any_nan_or_inf l = false ↔ Forall (λ x, is_finite x = true) l.
Proof.
  induction l as [|x l IH].
  - split; [constructor|done].
  - rewrite Forall_cons, <- IH. unfold any_nan_or_inf. cbn [existsb].
    destruct x, (existsb isnan l), (existsb isinf l); simpl;
      intuition congruence.
Qed.

Lemma any_nan_or_inf_app l1 l2 :
  any_nan_or_inf l1 || any_nan_or_inf l2 = false ↔
  Forall (λ x, is_finite x = true) (l1 ++ l2).
Proof.
  rewrite Forall_app, <- !any_nan_or_inf_false.
  destruct (any_nan_or_inf l1), (any_nan_or_inf l2); simpl; split;
    (by intros [? ?]) || done.
Qed.

(** A 3 x 3 array with a 3-vector, all entries finite, is transformed. *)
Lemma camera_node_matrix_finite
    (r11 r12 r13 r21 r22 r23 r31 r32 r33 t1 t2 t3 : R) :
  is_Some (camera_node_matrix
    [[Finite r11; Finite r12; Finite r13];
     [Finite r21; Finite r22; Finite r23];
     [Finite r31; Finite r32; Finite r33]]
    [Finite t1; Finite t2; Finite t3]).
Proof. by eexists. Qed.
Lemma camera_node_matrix_is_Some (pose_R : list (list Float)) (pose_t : list Float) :
  is_Some (camera_node_matrix pose_R pose_t) ↔
  shape_3x3 pose_R ∧ length pose_t = 3%nat
  ∧ Forall (λ x, is_finite x = true) (concat pose_R ++ pose_t).
Proof.
  split.
  - intros [m Hm]. unfold camera_node_matrix in Hm.
    destruct pose_R as [|[|r11 [|r12 [|r13 [|? ?]]]] pose_R]; try done.
    destruct pose_R as [|[|r21 [|r22 [|r23 [|? ?]]]] pose_R]; try done.
    destruct pose_R as [|[|r31 [|r32 [|r33 [|? ?]]]] pose_R]; try done.
    destruct pose_R as [|? ?]; try done.
    destruct pose_t as [|t1 [|t2 [|t3 [|? ?]]]]; try done.
    destruct (any_nan_or_inf _ || any_nan_or_inf _) eqn:Hfin; [done|].
    apply any_nan_or_inf_app in Hfin.
    split_and!; [split; [done|by repeat constructor]|done|exact Hfin].
  - intros ([Hlen Hrows] & Ht & Hfin).
    destruct pose_R as [|a [|b [|c [|? ?]]]]; simpl in Hlen; try lia.
    apply Forall_cons in Hrows as [Ha Hrows].
    apply Forall_cons in Hrows as [Hb Hrows].
    apply Forall_cons in Hrows as [Hc _].
    destruct a as [|r11 [|r12 [|r13 [|? ?]]]]; simpl in Ha; try lia.
    destruct b as [|r21 [|r22 [|r23 [|? ?]]]]; simpl in Hb; try lia.
    destruct c as [|r31 [|r32 [|r33 [|? ?]]]]; simpl in Hc; try lia.
    destruct pose_t as [|t1 [|t2 [|t3 [|? ?]]]]; simpl in Ht; try lia.
    simpl in Hfin.
    repeat match type of Hfin with
           | Forall _ (_ :: _) =>
               let Hx := fresh "Hx" in
               apply Forall_cons in Hfin as [Hx Hfin];
               apply is_finite_Finite in Hx as [? ->]
           end.
    apply camera_node_matrix_finite.
Qed.

(** The cast keeps NaN and the infinities, and a value within the range
    of float32. *)
Lemma float32_not_finite x :
  isnan x = true ∨ isinf x = true → float32 x = x.
Proof. destruct x; simpl; intros [?|?]; done. Qed.

Lemma float32_in_range (r : R) :
  Rabs r < FLOAT32_OVERFLOW → float32 (Finite r) = Finite r.
Proof.
  intros Hr. unfold float32.
  destruct (Rle_dec FLOAT32_OVERFLOW (Rabs r)); [lra|done].
Qed.

Lemma concat_float32 (rows : list (list Float)) :
  concat ((λ r : list Float, float32 <$> r) <$> rows) = float32 <$> concat rows.
Proof.
  induction rows as [|r l IH]; [done|].
  rewrite fmap_cons. cbn [concat]. by rewrite IH, fmap_app.
Qed.

Lemma np_array_2d_concat rows array :
  np_array_2d rows = Some array → concat array = float32 <$> concat rows.
Proof.
  unfold np_array_2d. destruct rows as [|row rest]; [by intros [= <-]|].
  destruct (forallb _ rest); [|done]. intros Heq.
  injection Heq as Heq. rewrite <- Heq. apply (concat_float32 (row :: rest)).
Qed.

(** C8 (as amended). A camera pose that holds a NaN or an infinity is not
    converted: the conversion of its nested lists gives no transform (the
    node is skipped, or [np.array] raises), the transform test on its
    arrays gives none, and no camera node is emitted for its image.
    Orthonormality of the rotation is not examined. *)
Theorem camera_pose_rejects_non_finite
    (pose_R : list (list Float)) (pose_t : list Float) :
  (∃ x, x ∈ concat pose_R ++ pose_t ∧ (isnan x = true ∨ isinf x = true)) →
  (∀ matrix, convert_camera_pose pose_R pose_t ≠ Transformed matrix)
  ∧ camera_node_matrix pose_R pose_t = None
  ∧ ∀ poses cams img_idx,
      poses !! img_idx =
        Some {| pose_dict_R := pose_R; pose_dict_t := pose_t |} →
      camera_node poses cams img_idx = None
      ∧ ∀ registered node,
          node ∈ camera_nodes poses cams registered →
          node_img_idx node ≠ img_idx.
Proof.
  intros (x & Hin & Hbad).
  assert (camera_node_matrix pose_R pose_t = None) as Hnone.
  { apply eq_None_not_Some.
    intros (_ & _ & Hfin)%camera_node_matrix_is_Some.
    eapply Forall_forall in Hfin; [|exact Hin].
    destruct x, Hbad; done. }
  split.
  { intros matrix. unfold convert_camera_pose.
    destruct (np_array_2d pose_R) as [array|] eqn:Harr; [|done].
    destruct (camera_node_matrix array (np_array_1d pose_t)) as [m|] eqn:Hm;
      [|done].
    exfalso.
    assert (is_Some (camera_node_matrix array (np_array_1d pose_t))) as Hs
      by (by eexists).
    apply camera_node_matrix_is_Some in Hs as (_ & _ & Hfin).
    rewrite (np_array_2d_concat pose_R array Harr) in Hfin.
    unfold np_array_1d in Hfin. rewrite <- fmap_app in Hfin.
    rewrite Forall_fmap, Forall_forall in Hfin.
    specialize (Hfin x Hin). simpl in Hfin.
    rewrite float32_not_finite in Hfin by done.
    destruct x, Hbad; done. }
  split; [done|].
  intros poses cams img_idx Hpose.
  assert (camera_node poses cams img_idx = None) as Hnode.
  { unfold camera_node. rewrite Hpose.
    destruct (cams !! img_idx); simpl; [|done]. by rewrite Hnone. }
  split; [done|].
  intros registered node (idx' & _ & Hsome)%list_elem_of_omap Heq.
  assert (node_img_idx node = idx') as Hidx.
  { unfold camera_node in Hsome.
    destruct (cams !! idx') as [ci|]; [|done].
    destruct (poses !! idx') as [pd|]; [|done].
    cbn [mbind option_bind] in Hsome.
    destruct (camera_node_matrix (pose_dict_R pd) (pose_dict_t pd)); [|done].
    cbn [mbind option_bind] in Hsome. by injection Hsome as <-. }
  congruence.
Qed.

Lemma camera_pose_rejects_non_finite_witness :
  (∀ matrix,
     convert_camera_pose
       [[NaN; Finite 0; Finite 0]; [Finite 0; Finite 1; Finite 0];
        [Finite 0; Finite 0; Finite 1]]
       [Finite 0; Finite 0; PosInf] ≠ Transformed matrix)
  ∧ camera_node_matrix
      [[NaN; Finite 0; Finite 0]; [Finite 0; Finite 1; Finite 0];
       [Finite 0; Finite 0; Finite 1]]
      [Finite 0; Finite 0; PosInf] = None
  ∧ ∀ poses cams img_idx,
      poses !! img_idx =
        Some {| pose_dict_R :=
                  [[NaN; Finite 0; Finite 0]; [Finite 0; Finite 1; Finite 0];
                   [Finite 0; Finite 0; Finite 1]];
                pose_dict_t := [Finite 0; Finite 0; PosInf] |} →
      camera_node poses cams img_idx = None
      ∧ ∀ registered node,
          node ∈ camera_nodes poses cams registered →
          node_img_idx node ≠ img_idx.
Proof.
  apply (camera_pose_rejects_non_finite
           [[NaN; Finite 0; Finite 0]; [Finite 0; Finite 1; Finite 0];
            [Finite 0; Finite 0; Finite 1]]
           [Finite 0; Finite 0; PosInf]).
  exists NaN. split; [simpl; left|by left].
Defined.

(** C8 as stated fails: twice the identity is not orthonormal within any
    tolerance below 3, and the pose holding it is converted. *)
Lemma non_orthonormal_rotation_accepted :
  (∃ matrix,
     convert_camera_pose doubled_identity [Finite 0; Finite 0; Finite 0]
     = Transformed matrix)
  ∧ is_Some (camera_node_matrix doubled_identity [Finite 0; Finite 0; Finite 0])
  ∧ ∃ m, as_real_matrix doubled_identity = Some m
         ∧ ∀ tol, tol < 3 → ¬ orthonormal_within tol m.
Proof.
  split.
  { unfold convert_camera_pose, np_array_2d, np_array_1d, doubled_identity.
    cbn [forallb length Nat.eqb andb fmap list_fmap].
    rewrite !float32_in_range
      by (unfold FLOAT32_OVERFLOW; rewrite Rabs_pos_eq by lra; lra).
    by eexists. }
  split; [by eexists|].
  eexists. split; [reflexivity|].
  intros tol Htol (H1 & _). unfold Geometry.dot in H1.
  rewrite Rabs_pos_eq in H1 by lra. lra.
Qed.

(** The transform of the identity pose at the origin. *)
Example identity_pose_transform :
  ∃ m, camera_node_matrix
         [[Finite 1; Finite 0; Finite 0];
          [Finite 0; Finite 1; Finite 0];
          [Finite 0; Finite 0; Finite 1]]
         [Finite 0; Finite 0; Finite 0] = Some m
       ∧ Forall2 (λ x r, x = Finite r) m
           [1; 0; 0; 0;  0; 0; 1; 0;  0; -1; 0; 0;  0; 0; 0; 1].
Proof.
  eexists. split; [reflexivity|].
  simpl. repeat (constructor; [f_equal; lra|]). constructor.
Qed.
End CameraNodes.

Section Scene.
Local Open Scope R_scope.
Implicit Types (results : Results) (dims : gmap Z (Z * Z)).

(** X16. The node matrix of a camera with finite pose (R, t) is the 4 x 4
    transform, column-major, whose rotation block has the columns
    (r11, r31, -r21), (-r12, -r32, r22), (-r13, -r33, r23), whose
    translation is (t1, t3, -t2) and whose last row is (0, 0, 0, 1): the
    world axes go from (x, y, z) to (x, z, -y), the camera's y and z axes
    are reversed. *)
Theorem camera_node_matrix_axes
    (r11 r12 r13 r21 r22 r23 r31 r32 r33 t1 t2 t3 : R) :
  camera_node_matrix
    [[Finite r11; Finite r12; Finite r13];
     [Finite r21; Finite r22; Finite r23];
     [Finite r31; Finite r32; Finite r33]]
    [Finite t1; Finite t2; Finite t3]
  = Some [Finite r11; Finite r31; Finite (- r21); Finite 0;
          Finite (- r12); Finite (- r32); Finite r22; Finite 0;
          Finite (- r13); Finite (- r33); Finite r23; Finite 0;
          Finite t1; Finite t3; Finite (- t2); Finite 1].
Proof.
  unfold camera_node_matrix. simpl.
  f_equal. repeat (apply (f_equal2 cons); [f_equal; ring|]). done.
Qed.

(** *** Camera definitions and the nodes that refer to them *)

Lemma camera_definition_step_sound results dims st img_idx :
  definitions_sound results dims st →
  definitions_sound results dims (camera_definition_step results dims st img_idx)
  ∧ (length (gltf_cameras (camera_definition_step results dims st img_idx))
     ≤ S (length (gltf_cameras st)))%nat
  ∧ (∀ i, is_Some (img_idx_to_gltf_cam_idx st !! i) →
          is_Some (img_idx_to_gltf_cam_idx
                     (camera_definition_step results dims st img_idx) !! i))
  ∧ (∀ pose K camera,
       res_poses results !! img_idx = Some pose →
       res_intrinsics results !! img_idx = Some (Some K) →
       camera_definition K (dims !! img_idx) = Some camera →
       is_Some (img_idx_to_gltf_cam_idx
                  (camera_definition_step results dims st img_idx) !! img_idx)).
Proof.
  intros Hsound. unfold camera_definition_step.
  destruct (res_poses results !! img_idx) as [pose|] eqn:Hpose;
    [|split_and!; [done|lia|done|done]].
  destruct (res_intrinsics results !! img_idx) as [[K|]|] eqn:HK;
    [|split_and!; [done|lia|done|done]..].
  destruct (camera_definition K (dims !! img_idx)) as [camera|] eqn:Hdef.
  2:{ split_and!; [done|lia|done|]. intros ? ? ? _ [= <-]. congruence. }
  unfold definitions_sound. simpl. split_and!.
  - intros i idx. destruct (decide (i = img_idx)) as [->|Hne].
    + rewrite lookup_insert_eq. intros [= <-].
      exists pose, K, camera. split_and!; [done..|].
      by rewrite lookup_app_r, Nat.sub_diag by lia.
    + rewrite lookup_insert_ne by done. intros Hi.
      destruct (Hsound i idx Hi) as (p & K' & c & ? & ? & ? & Hc).
      exists p, K', c. split_and!; [done..|].
      rewrite lookup_app_l; [done|]. by eapply lookup_lt_Some.
  - rewrite length_app. simpl. lia.
  - intros i Hi. destruct (decide (i = img_idx)) as [->|Hne].
    + rewrite lookup_insert_eq. by eexists.
    + by rewrite lookup_insert_ne.
  - intros _ _ _ _ _ _. rewrite lookup_insert_eq. by eexists.
Qed.

Lemma camera_definitions_fold results dims (l : list Z) st :
  definitions_sound results dims st →
  definitions_sound results dims
    (foldl (camera_definition_step results dims) st l)
  ∧ (length (gltf_cameras (foldl (camera_definition_step results dims) st l))
     ≤ length (gltf_cameras st) + length l)%nat
  ∧ (∀ i, is_Some (img_idx_to_gltf_cam_idx st !! i) →
          is_Some (img_idx_to_gltf_cam_idx
                     (foldl (camera_definition_step results dims) st l) !! i))
  ∧ (∀ img_idx pose K camera,
       img_idx ∈ l →
       res_poses results !! img_idx = Some pose →
       res_intrinsics results !! img_idx = Some (Some K) →
       camera_definition K (dims !! img_idx) = Some camera →
       is_Some (img_idx_to_gltf_cam_idx
                  (foldl (camera_definition_step results dims) st l) !! img_idx)).
Proof.
  revert st. induction l as [|a l IH]; intros st Hsound.
  { simpl. split_and!; [done|lia|done|]. by intros ? ? ? ? ?%elem_of_nil. }
  cbn [foldl].
  destruct (camera_definition_step_sound results dims st a Hsound)
    as (Hs1 & Hl1 & Hk1 & Hnew).
  destruct (IH _ Hs1) as (Hs & Hl & Hk & Hall).
  split_and!; [done|simpl; lia|by intros i Hi%Hk1%Hk|].
  intros img_idx pose K camera [->|Hin]%elem_of_cons Hp HK Hdef.
  - apply Hk. by eapply Hnew.
  - by eapply Hall.
Qed.

Lemma camera_node_Some poses cams img_idx node :
  camera_node poses cams img_idx = Some node ↔
  ∃ idx pose matrix,
    cams !! img_idx = Some idx ∧ poses !! img_idx = Some pose
    ∧ camera_node_matrix (pose_dict_R pose) (pose_dict_t pose) = Some matrix
    ∧ node = {| node_img_idx := img_idx; node_camera := idx;
                node_matrix := matrix |}.
Proof.
  unfold camera_node. destruct (cams !! img_idx) as [idx|]; simpl.
  2:{ split; [done|]. by intros (? & ? & ? & ? & _). }
  destruct (poses !! img_idx) as [pose|]; simpl.
  2:{ split; [done|]. by intros (? & ? & ? & _ & ? & _). }
  destruct (camera_node_matrix (pose_dict_R pose) (pose_dict_t pose))
    as [matrix|] eqn:Hm; simpl.
  - split.
    + intros [= <-]. by exists idx, pose, matrix.
    + intros (? & ? & ? & [= <-] & [= <-] & Hm' & ->).
      rewrite Hm in Hm'. by injection Hm' as <-.
  - split; [done|]. intros (? & ? & ? & _ & [= <-] & Hm' & _). congruence.
Qed.

Lemma camera_definitions_sound results dims :
  definitions_sound results dims (camera_definitions results dims)
  ∧ (length (gltf_cameras (camera_definitions results dims))
     ≤ length (res_registered_indices results))%nat
  ∧ (∀ img_idx pose K camera,
       img_idx ∈ res_registered_indices results →
       res_poses results !! img_idx = Some pose →
       res_intrinsics results !! img_idx = Some (Some K) →
       camera_definition K (dims !! img_idx) = Some camera →
       is_Some (img_idx_to_gltf_cam_idx (camera_definitions results dims)
                  !! img_idx)).
Proof.
  destruct (camera_definitions_fold results dims (res_registered_indices results)
              {| gltf_cameras := []; img_idx_to_gltf_cam_idx := ∅ |})
    as (Hsound & Hlen & _ & Hall).
  { intros i idx. simpl. by rewrite lookup_empty. }
  done.
Qed.

Lemma camera_nodes_sound results dims node :
  node ∈ camera_nodes (res_poses results)
           (img_idx_to_gltf_cam_idx (camera_definitions results dims))
           (res_registered_indices results) →
  node_img_idx node ∈ res_registered_indices results
  ∧ ∃ pose K camera,
      res_poses results !! node_img_idx node = Some pose
      ∧ camera_node_matrix (pose_dict_R pose) (pose_dict_t pose)
        = Some (node_matrix node)
      ∧ res_intrinsics results !! node_img_idx node = Some (Some K)
      ∧ camera_definition K (dims !! node_img_idx node) = Some camera
      ∧ gltf_cameras (camera_definitions results dims) !! node_camera node
        = Some camera.
Proof.
  destruct (camera_definitions_sound results dims) as (Hsound & _ & _).
  intros (img_idx & Hin & Hnode)%list_elem_of_omap.
  apply camera_node_Some in Hnode as (idx & pose & matrix & Hidx & Hpose & Hm & ->).
  simpl. split; [done|].
  destruct (Hsound img_idx idx Hidx) as (pose' & K & camera & Hp' & HK & Hdef & Hc).
  rewrite Hpose in Hp'. injection Hp' as <-.
  by exists pose, K, camera.
Qed.

(** X17. Every camera node of the scene belongs to a registered index with
    a pose and refers to a camera definition that exists and was made for
    the same image (from its K and its dimensions); conversely every
    registered index with a finite 3 x 3 pose, intrinsics and a valid
    camera definition gets a node; and there are at most as many camera
    definitions as registered indices. *)
Theorem camera_nodes_match_definitions results dims :
  let defs := camera_definitions results dims in
  let nodes := camera_nodes (res_poses results) (img_idx_to_gltf_cam_idx defs)
                            (res_registered_indices results) in
  (∀ node, node ∈ nodes →
     node_img_idx node ∈ res_registered_indices results
     ∧ ∃ pose K camera,
         res_poses results !! node_img_idx node = Some pose
         ∧ camera_node_matrix (pose_dict_R pose) (pose_dict_t pose)
           = Some (node_matrix node)
         ∧ res_intrinsics results !! node_img_idx node = Some (Some K)
         ∧ camera_definition K (dims !! node_img_idx node) = Some camera
         ∧ gltf_cameras defs !! node_camera node = Some camera)
  ∧ (∀ img_idx pose K camera matrix,
       img_idx ∈ res_registered_indices results →
       res_poses results !! img_idx = Some pose →
       res_intrinsics results !! img_idx = Some (Some K) →
       camera_definition K (dims !! img_idx) = Some camera →
       camera_node_matrix (pose_dict_R pose) (pose_dict_t pose) = Some matrix →
       ∃ idx, {| node_img_idx := img_idx; node_camera := idx;
                 node_matrix := matrix |} ∈ nodes)
  ∧ (length (gltf_cameras defs) ≤ length (res_registered_indices results))%nat.
Proof.
  intros defs nodes.
  destruct (camera_definitions_sound results dims) as (_ & Hlen & Hall).
  split_and!; [| |exact Hlen].
  - intros node Hin. by apply camera_nodes_sound.
  - intros img_idx pose K camera matrix Hin Hpose HK Hdef Hm.
    destruct (Hall img_idx pose K camera Hin Hpose HK Hdef) as [idx Hidx].
    exists idx. apply list_elem_of_omap. exists img_idx. split; [done|].
    apply camera_node_Some. by exists idx, pose, matrix.
Qed.

(** *** Perspective cameras *)

Lemma perspective_bounds (w h : Z) (fx fy : R) :
  1e-6 <= yfov (perspective w h fx fy) <= PI - 1e-6
  ∧ 1e-6 <= aspectRatio (perspective w h fx fy)
  ∧ znear (perspective w h fx fy) = 0.01
  ∧ zfar (perspective w h fx fy) = 1000.
Proof.
  pose proof PI_gt_3 as Hpi. unfold perspective. simpl. split_and!; try done.
  - apply Rmin_glb; [apply Rmax_r|lra].
  - apply Rmin_r.
  - apply Rmax_l.
Qed.

Lemma camera_definition_perspective K dims_entry camera :
  camera_definition K dims_entry = Some camera →
  ∃ w h fx fy, camera = perspective w h fx fy.
Proof.
  unfold camera_definition.
  destruct K as [|[|k11 [|k12 [|k13 [|? ?]]]] K]; try done.
  destruct K as [|[|k21 [|k22 [|k23 [|? ?]]]] K]; try done.
  destruct K as [|[|k31 [|k32 [|k33 [|? ?]]]] K]; try done.
  destruct K as [|? ?]; try done.
  destruct (any_nan_or_inf _); [done|].
  destruct dims_entry as [[w h]|]; [|done].
  destruct k11 as [fx| | |]; try done. destruct k22 as [fy| | |]; try done.
  destruct (decide _); [done|]. intros [= <-]. by exists w, h, fx, fy.
Qed.

Lemma camera_definitions_perspective results dims :
  Forall (λ camera, ∃ w h fx fy, camera = perspective w h fx fy)
         (gltf_cameras (camera_definitions results dims)).
Proof.
  unfold camera_definitions.
  assert (Forall (λ camera, ∃ w h fx fy, camera = perspective w h fx fy)
            (gltf_cameras {| gltf_cameras := []; img_idx_to_gltf_cam_idx := ∅ |}))
    as Hinit by constructor.
  revert Hinit. generalize {| gltf_cameras := []; img_idx_to_gltf_cam_idx := ∅ |}.
  induction (res_registered_indices results) as [|a l IH]; intros st Hst; [done|].
  cbn [foldl]. apply IH. unfold camera_definition_step.
  destruct (res_poses results !! a); [|done].
  destruct (res_intrinsics results !! a) as [[K|]|]; [|done..].
  destruct (camera_definition K (dims !! a)) as [camera|] eqn:Hdef; [|done].
  simpl. apply Forall_app. split; [done|]. constructor; [|constructor].
  by eapply camera_definition_perspective.
Qed.

(** *** Point nodes *)

Lemma point_transform_finite (x y z : R) :
  fmat_vec OPENCV_TO_GLTF_ROT (Finite x, Finite y, Finite z)
  = (Finite x, Finite z, Finite (- y)).
Proof. unfold fmat_vec, fdot. simpl. repeat f_equal; ring. Qed.

Lemma fmul_zero_not_finite x :
  is_finite x = false → fmul (Finite 0) x = NaN.
Proof.
  destruct x as [r| | |]; [done|..|done]; simpl; unfold inf_times;
    by destruct (Req_dec_T 0 0).
Qed.

Lemma fadd_NaN_l x : fadd NaN x = NaN.
Proof. by destruct x. Qed.

Lemma fadd_NaN_r x : fadd x NaN = NaN.
Proof. by destruct x. Qed.

Lemma point_transform_not_finite (p : FVec3) :
  is_finite p.1.1 && is_finite p.1.2 && is_finite p.2 = false →
  ∃ q, fmat_vec OPENCV_TO_GLTF_ROT p = q
       ∧ any_nan_or_inf [q.1.1; q.1.2; q.2] = true.
Proof.
  destruct p as [[x y] z]. cbn [fst snd]. intros Hnf. eexists. split; [done|].
  unfold fmat_vec, OPENCV_TO_GLTF_ROT, fdot. cbn [fst snd].
  destruct (is_finite x) eqn:Hx.
  - destruct (is_finite y) eqn:Hy.
    + cbn [andb] in Hnf. rewrite (fmul_zero_not_finite z Hnf).
      rewrite fadd_NaN_r. done.
    + rewrite (fmul_zero_not_finite y Hy). rewrite fadd_NaN_r, fadd_NaN_l. done.
  - rewrite (fmul_zero_not_finite x Hx). rewrite !fadd_NaN_l.
    generalize (fadd (fadd (fmul (Finite 1) x) NaN) (fmul (Finite 0) z)).
    intros q1. unfold any_nan_or_inf. cbn [existsb isnan].
    by rewrite orb_true_r.
Qed.

(** The ids the point nodes are named by. *)
Lemma lookup_point_ids_to_use point_ids n i :
  (i < n)%nat →
  point_ids_to_use point_ids n !! i
  = if decide (length point_ids = n) then point_ids !! i
    else Some (Some (Z.of_nat i)).
Proof.
  intros Hi. unfold point_ids_to_use.
  destruct (decide (length point_ids ≠ n)) as [Hne|Heq].
  - rewrite decide_False by done.
    by rewrite list_lookup_fmap, lookup_seq_lt.
  - apply dec_stable in Heq. by rewrite decide_True.
Qed.

Lemma length_point_ids_to_use point_ids n :
  length (point_ids_to_use point_ids n) = n.
Proof.
  unfold point_ids_to_use. destruct (decide _) as [|Heq].
  - by rewrite length_fmap, length_seq.
  - by apply dec_stable in Heq.
Qed.

Lemma omap_point_node_zip (name : nat → option Z) (points : list FVec3)
    (k : nat) (ids : list (option Z)) :
  (∀ i, (i < length points)%nat → ids !! i = Some (name (k + i)%nat)) →
  length ids = length points →
  omap point_node (zip ids (fmat_vec OPENCV_TO_GLTF_ROT <$> points))
  = omap (λ entry : nat * FVec3,
            match entry.2 with
            | (Finite x, Finite y, Finite z) =>
                Some {| point_node_id := name entry.1;
                        point_translation :=
                          (Finite x, Finite z, Finite (- y)) |}
            | _ => None
            end)
         (imap (λ i, pair (k + i)%nat) points).
Proof.
  revert k ids. induction points as [|p points IH]; intros k ids Hids Hlen.
  { by destruct ids. }
  destruct ids as [|id ids]; [done|].
  simpl in Hlen. cbn [fmap list_fmap zip zip_with imap omap list_omap].
  assert (id = name (k + 0)%nat) as ->.
  { pose proof (Hids 0%nat ltac:(simpl; lia)) as H0. simpl in H0.
    by injection H0. }
  rewrite (IH (S k) ids).
  2:{ intros i Hi. replace (S k + i)%nat with (k + S i)%nat by lia.
      apply (Hids (S i)). simpl. lia. }
  2:{ lia. }
  assert (imap (λ i, pair (S k + i)%nat) points
          = imap ((λ i, pair (k + i)%nat) ∘ S) points) as ->.
  { apply imap_ext. intros i x _. simpl. f_equal. lia. }
  destruct p as [[x y] z].
  destruct (is_finite x && is_finite y && is_finite z) eqn:Hfin.
  - destruct x as [x| | |]; try done. destruct y as [y| | |]; try done.
    destruct z as [z| | |]; try done.
    rewrite point_transform_finite. cbn [fst snd point_node].
    unfold any_nan_or_inf. cbn [existsb isnan isinf orb]. done.
  - destruct (point_transform_not_finite (x, y, z) Hfin) as (q & -> & Hq).
    destruct q as [[q1 q2] q3]. cbn [point_node fst snd] in *. rewrite Hq.
    destruct x as [x| | |]; try done; destruct y as [y| | |]; try done;
      destruct z as [z| | |]; done.
Qed.

(** X18. The point nodes of the scene are, in the order of the points, the
    points all of whose coordinates are finite: a point (x, y, z) of the
    results gives a node at (x, z, -y), a point with a NaN or infinite
    coordinate gives none.  The node of the point at position i is named by
    point_ids[i] when point_ids has one entry per point, and by i itself
    when the lengths differ. *)
Theorem point_nodes_of_finite_points (point_ids : list (option Z))
    (points : list FVec3) :
  point_nodes point_ids (fmat_vec OPENCV_TO_GLTF_ROT <$> points)
  = omap (λ entry : nat * FVec3,
            match entry.2 with
            | (Finite x, Finite y, Finite z) =>
                Some {| point_node_id :=
                          if decide (length point_ids = length points)
                          then default None (point_ids !! entry.1)
                          else Some (Z.of_nat entry.1);
                        point_translation := (Finite x, Finite z, Finite (- y)) |}
            | _ => None
            end)
         (imap pair points).
Proof.
  unfold point_nodes. rewrite length_fmap.
  apply (omap_point_node_zip
           (λ i, if decide (length point_ids = length points)
                 then default None (point_ids !! i) else Some (Z.of_nat i))
           points 0%nat).
  - intros i Hi. rewrite lookup_point_ids_to_use by done. simpl.
    destruct (decide _) as [Heq|]; [|done].
    destruct (lookup_lt_is_Some_2 point_ids i) as [v ->]; [lia|done].
  - apply length_point_ids_to_use.
Qed.

(** All entries of a node matrix that was produced are finite. *)
Lemma camera_node_matrix_entries pose_R pose_t matrix :
  camera_node_matrix pose_R pose_t = Some matrix →
  length matrix = 16%nat ∧ Forall (λ x, is_finite x = true) matrix.
Proof.
  unfold camera_node_matrix.
  destruct pose_R as [|[|r11 [|r12 [|r13 [|? ?]]]] pose_R]; try done.
  destruct pose_R as [|[|r21 [|r22 [|r23 [|? ?]]]] pose_R]; try done.
  destruct pose_R as [|[|r31 [|r32 [|r33 [|? ?]]]] pose_R]; try done.
  destruct pose_R as [|? ?]; try done.
  destruct pose_t as [|t1 [|t2 [|t3 [|? ?]]]]; try done.
  destruct (any_nan_or_inf _ || any_nan_or_inf _); [done|].
  destruct (fmat_mul _ _) as [[[[g11 g12] g13] [[g21 g22] g23]] [[g31 g32] g33]].
  destruct (fmat_vec _ _) as [[c1 c2] c3].
  destruct (any_nan_or_inf _) eqn:Hfin; [done|].
  intros [= <-]. split; [done|]. by apply any_nan_or_inf_false.
Qed.

Lemma point_node_finite entry node :
  point_node entry = Some node →
  point_node_id node = entry.1
  ∧ point_translation node = entry.2
  ∧ any_nan_or_inf [(point_translation node).1.1; (point_translation node).1.2;
                    (point_translation node).2] = false.
Proof.
  destruct entry as [id [[x y] z]]. unfold point_node.
  destruct (any_nan_or_inf [x; y; z]) eqn:Hfin; [done|].
  by intros [= <-].
Qed.

(** X19. A scene that is exported is never empty and is well formed: it
    has at least one camera node or point node; every camera node refers to
    an existing camera definition and carries a 16-entry matrix without NaN
    or infinity; every camera definition has a field of view within
    [1e-6, pi - 1e-6], an aspect ratio of at least 1e-6 and the clipping
    planes 0.01 and 1000; every point node has finite coordinates; and the
    export has passed all its checks (library present, results valid,
    points of shape (N, 3), [save] returned). *)
Theorem exported_scene_well_formed (available : bool) (results : option Results)
    dims (save : Scene → bool) (scene : Scene) :
  export_scene_to_gltf available results dims save = Exported scene →
  (scene_camera_nodes scene ≠ [] ∨ scene_point_nodes scene ≠ [])
  ∧ Forall (λ node,
       (node_camera node < length (scene_cameras scene))%nat
       ∧ length (node_matrix node) = 16%nat
       ∧ Forall (λ x, is_finite x = true) (node_matrix node))
     (scene_camera_nodes scene)
  ∧ Forall (λ camera,
       1e-6 <= yfov camera <= PI - 1e-6 ∧ 1e-6 <= aspectRatio camera
       ∧ znear camera = 0.01 ∧ zfar camera = 1000)
     (scene_cameras scene)
  ∧ Forall (λ node,
       any_nan_or_inf [(point_translation node).1.1; (point_translation node).1.2;
                       (point_translation node).2] = false)
     (scene_point_nodes scene)
  ∧ available = true ∧ save scene = true
  ∧ ∃ r points, results = Some r
      ∧ points3d_gltf (res_points_3d r) = Some points.
Proof.
  unfold export_scene_to_gltf.
  destruct available; [|done]. simpl.
  destruct results as [r|]; [|done].
  destruct (points3d_gltf (res_points_3d r)) as [points|] eqn:Hpts; [|done].
  destruct (decide _) as [Hnone|Hsome]; [done|].
  match goal with |- context [save ?s] => set (sc := s) end.
  destruct (save sc) eqn:Hsave; [|done]. intros [= <-].
  destruct (camera_definitions_sound r dims) as (Hsound & _ & _).
  subst sc. simpl. split_and!.
  - destruct (camera_nodes _ _ _) as [|? ?]; [|by left].
    destruct (point_nodes _ _) as [|? ?]; [|by right].
    by destruct Hsome.
  - apply Forall_forall. intros node Hin.
    destruct (camera_nodes_sound r dims node Hin)
      as (_ & pose & K & camera & _ & Hm & _ & _ & Hc).
    apply camera_node_matrix_entries in Hm as [? ?].
    split_and!; [by eapply lookup_lt_Some|done..].
  - apply Forall_forall. intros camera Hin.
    pose proof (camera_definitions_perspective r dims) as Hall.
    rewrite Forall_forall in Hall.
    destruct (Hall camera Hin) as (w & h & fx & fy & ->).
    apply perspective_bounds.
  - apply Forall_forall. intros node (entry & _ & Hnode)%list_elem_of_omap.
    by apply point_node_finite in Hnode as (_ & _ & ?).
  - done.
  - done.
  - by exists r, points.
Qed.

Lemma exported_scene_well_formed_witness :
  ∃ scene,
    export_scene_to_gltf true (Some sample_results) sample_image_dimensions
      (λ _, true) = Exported scene
    ∧ (scene_camera_nodes scene ≠ [] ∨ scene_point_nodes scene ≠ [])
    ∧ Forall (λ node,
         (node_camera node < length (scene_cameras scene))%nat
         ∧ length (node_matrix node) = 16%nat
         ∧ Forall (λ x, is_finite x = true) (node_matrix node))
       (scene_camera_nodes scene)
    ∧ Forall (λ camera,
         1e-6 <= yfov camera <= PI - 1e-6 ∧ 1e-6 <= aspectRatio camera
         ∧ znear camera = 0.01 ∧ zfar camera = 1000)
       (scene_cameras scene)
    ∧ Forall (λ node,
         any_nan_or_inf [(point_translation node).1.1; (point_translation node).1.2;
                         (point_translation node).2] = false)
       (scene_point_nodes scene)
    ∧ true = true ∧ (λ _ : Scene, true) scene = true
    ∧ ∃ r points, Some sample_results = Some r
        ∧ points3d_gltf (res_points_3d r) = Some points.
Proof.
  eexists. split; [vm_compute; reflexivity|].
  apply (exported_scene_well_formed true (Some sample_results)
           sample_image_dimensions (λ _, true)).
  vm_compute. reflexivity.
Defined.

End Scene.
End GltfFacts.

(** ** The export call *)

Module ExportCallFacts.
Import ExportCall.

Section DoExport.
Local Open Scope string_scope.

Lemma point_set_names_unexpected :
  "point_set_names" ∈ do_export_keywords
  ∧ ("point_set_names" ∉ (parameters export_scene_to_gltf_signature).*1)
  ∧ var_keyword export_scene_to_gltf_signature = false.
Proof.
  split_and!; [|by apply (bool_decide_unpack _)|done].
  by apply (bool_decide_unpack _).
Qed.

Lemma bind_raises :
  bind_keywords export_scene_to_gltf_signature do_export_keywords
    = Raised "TypeError".
Proof. reflexivity. Qed.

(** C10. Whenever the checks of [_do_export] pass, its call of
    [export_scene_to_gltf] passes the keyword [point_set_names], which the
    parameter list does not have and no catch-all absorbs: the call raises
    [TypeError] before the exporter's body runs, so no file is written; and
    [_do_export] never returns success.  Without that keyword the call
    would bind. *)
Theorem do_export_raises_type_error (w : Window) (filename : string)
    (exporter : string → PyResult (bool * Message) * list string) :
  pre_checks w = None →
  do_export w filename exporter = (Raised "TypeError", [])
  ∧ ("point_set_names" ∈ do_export_keywords
     ∧ ("point_set_names" ∉ (parameters export_scene_to_gltf_signature).*1)
     ∧ var_keyword export_scene_to_gltf_signature = false)
  ∧ bind_keywords export_scene_to_gltf_signature
      (filter (λ k, k ≠ "point_set_names") do_export_keywords) = Returned ()
  ∧ (∀ w' filename' message files,
       do_export w' filename' exporter ≠ (Returned (true, message), files)).
Proof.
  intros Hchecks. split; [|split; [|split]].
  - unfold do_export. by rewrite Hchecks, bind_raises.
  - apply point_set_names_unexpected.
  - reflexivity.
  - intros w' filename' message files. unfold do_export.
    rewrite bind_raises. by destruct (pre_checks w').
Qed.

Lemma do_export_raises_type_error_witness :
  do_export sample_window "scene" (λ f, (Returned (true, FromExporter f), [f]))
    = (Raised "TypeError", [])
  ∧ ("point_set_names" ∈ do_export_keywords
     ∧ ("point_set_names" ∉ (parameters export_scene_to_gltf_signature).*1)
     ∧ var_keyword export_scene_to_gltf_signature = false)
  ∧ bind_keywords export_scene_to_gltf_signature
      (filter (λ k, k ≠ "point_set_names") do_export_keywords) = Returned ()
  ∧ (∀ w' filename' message files,
       do_export w' filename' (λ f, (Returned (true, FromExporter f), [f]))
         ≠ (Returned (true, message), files)).
Proof.
  apply (do_export_raises_type_error sample_window "scene"
           (λ f, (Returned (true, FromExporter f), [f]))).
  vm_compute. reflexivity.
Defined.

(** The suffix is added unless present, in any letter case. *)
Example with_gltf_suffix_examples :
  with_gltf_suffix "scene" = "scene.gltf"
  ∧ with_gltf_suffix "Scene.GLTF" = "Scene.GLTF".
Proof. split; reflexivity. Qed.
End DoExport.
End ExportCallFacts.

(** ** The colour of a reprojection error *)

Module ErrorColorFacts.
Import ErrorColor.

Section Interpolation.
Local Open Scope R_scope.
Implicit Types (stops : list (R * QColor)) (c : QColor).

(** Truncation keeps a value between the integers that bound it. *)
Lemma py_int_between (a b : Z) (v : R) :
  IZR a <= v <= IZR b → (a ≤ py_int v ≤ b)%Z.
Proof.
  intros [Ha Hb]. unfold py_int. destruct (Rle_dec 0 v) as [Hv|Hv].
  - destruct (base_Int_part v) as [H1 H2]. split.
    + assert (IZR a < IZR (Int_part v + 1)) as Hlt%lt_IZR by (rewrite plus_IZR; lra).
      lia.
    + apply le_IZR. lra.
  - destruct (base_Int_part (- v)) as [H1 H2]. split.
    + assert (IZR (Int_part (- v)) <= IZR (- a)) as Hle%le_IZR
        by (rewrite opp_IZR; lra).
      lia.
    + assert (IZR (- Int_part (- v) - 1) < IZR b) as Hlt%lt_IZR.
      { rewrite minus_IZR, opp_IZR. lra. }
      lia.
Qed.

Lemma channel_between (c1 c2 : Z) (factor : R) :
  0 <= factor < 1 → between c1 c2 (channel c1 c2 factor).
Proof.
  intros [H0 H1]. unfold between, channel. apply py_int_between.
  destruct (Z.le_ge_cases c1 c2) as [Hle|Hge].
  - rewrite Z.min_l, Z.max_r by lia. apply IZR_le in Hle. split; nra.
  - rewrite Z.min_r, Z.max_l by lia. apply IZR_le in Hge. split; nra.
Qed.

Lemma channel_at_stop (c1 c2 : Z) : channel c1 c2 0 = c1.
Proof.
  unfold channel. replace (IZR c1 + (IZR c2 - IZR c1) * 0) with (IZR c1) by ring.
  destruct (py_int_between c1 c1 (IZR c1)); [lra|lia].
Qed.

Lemma between_valid (a b x : Z) :
  (0 ≤ a ≤ 255)%Z → (0 ≤ b ≤ 255)%Z → between a b x → (0 ≤ x ≤ 255)%Z.
Proof. unfold between. lia. Qed.

Lemma color_between_valid c1 c2 c :
  valid_color c1 → valid_color c2 → color_between c1 c2 c → valid_color c.
Proof.
  intros (Hr1 & Hg1 & Hb1) (Hr2 & Hg2 & Hb2) (Hr & Hg & Hb).
  split; [|split];
    [exact (between_valid _ _ _ Hr1 Hr2 Hr)|exact (between_valid _ _ _ Hg1 Hg2 Hg)
    |exact (between_valid _ _ _ Hb1 Hb2 Hb)].
Qed.

(** What the loop over the pairs returns, when it returns. *)
Lemma segment_color_Some magnitude stops c :
  segment_color magnitude stops = Some c →
  ∃ before mag1 color1 mag2 color2 after,
    stops = before ++ (mag1, color1) :: (mag2, color2) :: after
    ∧ mag1 <= magnitude < mag2
    ∧ c = {| red := channel (red color1) (red color2)
                      ((magnitude - mag1) / (mag2 - mag1));
             green := channel (green color1) (green color2)
                        ((magnitude - mag1) / (mag2 - mag1));
             blue := channel (blue color1) (blue color2)
                       ((magnitude - mag1) / (mag2 - mag1)) |}.
Proof.
  induction stops as [|[mag1 color1] rest IH]; [done|].
  destruct rest as [|[mag2 color2] rest']; [done|].
  cbn [segment_color].
  destruct (Rle_dec mag1 magnitude) as [H1|H1];
    [destruct (Rlt_dec magnitude mag2) as [H2|H2]|].
  - intros [= <-]. by exists [], mag1, color1, mag2, color2, rest'.
  - intros (before & ? & ? & ? & ? & after & -> & ? & ?)%IH.
    by eexists ((mag1, color1) :: before), _, _, _, _, _.
  - intros (before & ? & ? & ? & ? & after & -> & ? & ?)%IH.
    by eexists ((mag1, color1) :: before), _, _, _, _, _.
Qed.

Lemma blend_between color1 color2 mag1 mag2 magnitude :
  mag1 <= magnitude < mag2 →
  color_between color1 color2
    {| red := channel (red color1) (red color2)
                ((magnitude - mag1) / (mag2 - mag1));
       green := channel (green color1) (green color2)
                  ((magnitude - mag1) / (mag2 - mag1));
       blue := channel (blue color1) (blue color2)
                 ((magnitude - mag1) / (mag2 - mag1)) |}.
Proof.
  intros [H1 H2].
  assert (0 <= (magnitude - mag1) / (mag2 - mag1) < 1) as Hf.
  { split.
    - apply Rmult_le_pos; [lra|]. left. apply Rinv_0_lt_compat. lra.
    - apply (Rmult_lt_reg_r (mag2 - mag1)); [lra|]. field_simplify; lra. }
  split; [|split]; simpl; by apply channel_between.
Qed.

(** X20. For a non-empty list of stops whose colours have their channels
    in 0..255, [interpolate_color] returns, for every magnitude, a colour
    with channels in 0..255 (the constructor is never given a value out of
    range); at or below the first stop it is the first colour, at or above
    the last stop (and above the first) the last colour.  On an empty list
    it raises. *)
Theorem interpolated_color_is_valid (magnitude : R) stops :
  stops ≠ [] → Forall (λ stop, valid_color stop.2) stops →
  ∃ c mag_first color_first mag_last color_last,
    interpolate_color magnitude stops = Some c
    ∧ valid_color c
    ∧ head stops = Some (mag_first, color_first)
    ∧ last stops = Some (mag_last, color_last)
    ∧ (magnitude <= mag_first → c = color_first)
    ∧ (mag_first < magnitude → mag_last <= magnitude → c = color_last)
    ∧ interpolate_color magnitude [] = None.
Proof.
  intros Hne Hvalid.
  destruct stops as [|[mag_first color_first] rest]; [done|]. clear Hne.
  destruct (last ((mag_first, color_first) :: rest))
    as [[mag_last color_last]|] eqn:Hlast.
  2:{ by apply last_None in Hlast. }
  assert (valid_color color_first) as Hvf.
  { by apply Forall_cons in Hvalid as [? _]. }
  assert (valid_color color_last) as Hvl.
  { apply last_Some in Hlast as [l' Hl']. rewrite Hl' in Hvalid.
    by apply Forall_app in Hvalid as [_ [? _]%Forall_cons]. }
  unfold interpolate_color. rewrite Hlast. cbn [head].
  destruct (Rle_dec magnitude mag_first) as [H1|H1].
  { exists color_first, mag_first, color_first, mag_last, color_last.
    split_and!; try done; intros; lra. }
  destruct (Rle_dec mag_last magnitude) as [H2|H2].
  { exists color_last, mag_first, color_first, mag_last, color_last.
    split_and!; try done; intros; lra. }
  eexists _, mag_first, color_first, mag_last, color_last.
  split; [done|]. split_and!; try done; try (intros; lra).
  destruct (segment_color magnitude ((mag_first, color_first) :: rest))
    as [c|] eqn:Hseg; [|done].
  apply segment_color_Some in Hseg
    as (before & m1 & c1 & m2 & c2 & after & Heq & Hm & ->).
  rewrite Heq in Hvalid.
  apply Forall_app in Hvalid as [_ Hv].
  apply Forall_cons in Hv as [Hv1 Hv]. apply Forall_cons in Hv as [Hv2 _].
  simpl. eapply color_between_valid; [exact Hv1|exact Hv2|].
  by apply blend_between.
Qed.

Lemma error_color_stops_valid :
  Forall (λ stop, valid_color stop.2) ERROR_COLOR_STOPS.
Proof. repeat constructor; simpl; lia. Qed.

Lemma interpolated_color_is_valid_witness :
  ∃ c mag_first color_first mag_last color_last,
    interpolate_color 2 ERROR_COLOR_STOPS = Some c
    ∧ valid_color c
    ∧ head ERROR_COLOR_STOPS = Some (mag_first, color_first)
    ∧ last ERROR_COLOR_STOPS = Some (mag_last, color_last)
    ∧ (2 <= mag_first → c = color_first)
    ∧ (mag_first < 2 → mag_last <= 2 → c = color_last)
    ∧ interpolate_color 2 [] = None.
Proof.
  apply (interpolated_color_is_valid 2 ERROR_COLOR_STOPS).
  - done.
  - exact error_color_stops_valid.
Defined.

Lemma segment_color_cons magnitude mag1 color1 mag2 color2 rest :
  segment_color magnitude ((mag1, color1) :: (mag2, color2) :: rest)
  = if Rle_dec mag1 magnitude then
      if Rlt_dec magnitude mag2 then
        Some {| red := channel (red color1) (red color2)
                         ((magnitude - mag1) / (mag2 - mag1));
                green := channel (green color1) (green color2)
                           ((magnitude - mag1) / (mag2 - mag1));
                blue := channel (blue color1) (blue color2)
                          ((magnitude - mag1) / (mag2 - mag1)) |}
      else segment_color magnitude ((mag2, color2) :: rest)
    else segment_color magnitude ((mag2, color2) :: rest).
Proof. reflexivity. Qed.

(** The pairs before the bracketing one are passed over. *)
Lemma segment_color_skip magnitude before mag1 color1 mag2 color2 after :
  Forall (λ stop, stop.1 < mag1) before →
  mag1 <= magnitude < mag2 →
  segment_color magnitude (before ++ (mag1, color1) :: (mag2, color2) :: after)
  = Some {| red := channel (red color1) (red color2)
                     ((magnitude - mag1) / (mag2 - mag1));
            green := channel (green color1) (green color2)
                       ((magnitude - mag1) / (mag2 - mag1));
            blue := channel (blue color1) (blue color2)
                      ((magnitude - mag1) / (mag2 - mag1)) |}.
Proof.
  intros Hbefore [H1 H2]. induction before as [|[a ca] before IH].
  - simpl. destruct (Rle_dec mag1 magnitude); [|lra].
    destruct (Rlt_dec magnitude mag2); [done|lra].
  - apply Forall_cons in Hbefore as [Ha Hbefore]. simpl in Ha.
    assert (∃ b cb rest,
              before ++ (mag1, color1) :: (mag2, color2) :: after
              = (b, cb) :: rest ∧ b <= mag1) as (b & cb & rest & Heq & Hb).
    { destruct before as [|[b cb] before'].
      - eexists _, _, _. split; [done|lra].
      - apply Forall_cons in Hbefore as [Hb _]. simpl in Hb.
        eexists _, _, _. split; [done|lra]. }
    cbn [app]. rewrite Heq, segment_color_cons, <- Heq.
    destruct (Rle_dec a magnitude); [|by apply IH].
    destruct (Rlt_dec magnitude b); [lra|by apply IH].
Qed.

(** X21. With stops in strictly increasing order of magnitude, a magnitude
    inside a segment [mag1, mag2) of neighbouring stops gets the colour
    interpolated linearly between the colours of these two stops, channel
    by channel, truncated to an integer: every channel lies between the
    channels of the two stops, and at mag1 itself the colour is exactly the
    colour of that stop. *)
Theorem interpolated_color_in_segment (magnitude : R)
    before mag1 color1 mag2 color2 after :
  StronglySorted Rlt
    ((before ++ (mag1, color1) :: (mag2, color2) :: after).*1) →
  mag1 <= magnitude < mag2 →
  ∃ c,
    interpolate_color magnitude
      (before ++ (mag1, color1) :: (mag2, color2) :: after) = Some c
    ∧ red c = channel (red color1) (red color2)
                ((magnitude - mag1) / (mag2 - mag1))
    ∧ green c = channel (green color1) (green color2)
                  ((magnitude - mag1) / (mag2 - mag1))
    ∧ blue c = channel (blue color1) (blue color2)
                 ((magnitude - mag1) / (mag2 - mag1))
    ∧ color_between color1 color2 c
    ∧ (magnitude = mag1 → c = color1).
Proof.
  intros Hsorted [H1 H2].
  set (blend := {| red := channel (red color1) (red color2)
                            ((magnitude - mag1) / (mag2 - mag1));
                   green := channel (green color1) (green color2)
                              ((magnitude - mag1) / (mag2 - mag1));
                   blue := channel (blue color1) (blue color2)
                             ((magnitude - mag1) / (mag2 - mag1)) |}).
  rewrite fmap_app in Hsorted. cbn [fmap list_fmap fst] in Hsorted.
  assert (Forall (λ stop, stop.1 < mag1) before) as Hbefore.
  { apply Forall_forall. intros stop Hin.
    eapply (StronglySorted_app_1_elem_of _ _ _ _ _ Hsorted).
    - apply list_elem_of_fmap. by exists stop.
    - left. }
  assert (∃ mag_last color_last,
            last (before ++ (mag1, color1) :: (mag2, color2) :: after)
            = Some (mag_last, color_last) ∧ mag2 <= mag_last)
    as (mag_last & color_last & Hlast & Hml).
  { rewrite last_app_cons, last_cons.
    destruct (last ((mag2, color2) :: after)) as [[ml cl]|] eqn:Hl.
    2:{ by apply last_None in Hl. }
    exists ml, cl. split; [done|].
    apply last_Some in Hl as [l' Hl'].
    destruct l' as [|x l'].
    - injection Hl' as <- <- _. lra.
    - injection Hl' as <- Hafter. left.
      apply StronglySorted_app_1_r in Hsorted.
      apply StronglySorted_inv in Hsorted as [Hsorted _].
      apply StronglySorted_inv in Hsorted as [_ Hall].
      rewrite Forall_forall in Hall. apply (Hall ml).
      rewrite Hafter, fmap_app. apply elem_of_app. right. left. }
  pose proof (segment_color_skip magnitude before mag1 color1 mag2 color2 after
                Hbefore (conj H1 H2)) as Hseg.
  fold blend in Hseg.
  assert (magnitude = mag1 → blend = color1) as Hexact.
  { intros ->. unfold blend.
    replace ((mag1 - mag1) / (mag2 - mag1)) with 0 by (field; lra).
    rewrite !channel_at_stop. by destruct color1. }
  assert (color_between color1 color2 blend) as Hbetween
    by (by apply blend_between).
  assert (∃ mag_first color_first rest,
            before ++ (mag1, color1) :: (mag2, color2) :: after
            = (mag_first, color_first) :: rest
            ∧ mag_first <= mag1
            ∧ (mag_first = mag1 → color_first = color1))
    as (mag_first & color_first & rest & Heq & Hfirst & Hcf).
  { destruct before as [|[a ca] before'].
    - eexists _, _, _. split; [done|]. split; [lra|done].
    - apply Forall_cons in Hbefore as [Ha _]. simpl in Ha.
      eexists _, _, _. split; [done|]. split; [lra|intros; lra]. }
  assert (interpolate_color magnitude
            (before ++ (mag1, color1) :: (mag2, color2) :: after)
          = Some (if Rle_dec magnitude mag_first then color_first else blend))
    as Hres.
  { unfold interpolate_color. rewrite Hseg, Heq. rewrite <- Heq, Hlast.
    destruct (Rle_dec magnitude mag_first); [done|].
    destruct (Rle_dec mag_last magnitude); [lra|done]. }
  eexists. split; [exact Hres|].
  destruct (Rle_dec magnitude mag_first) as [Hle|Hgt].
  - assert (magnitude = mag1) as Hm by lra.
    assert (mag_first = mag1) as Hf by lra.
    assert (color_first = blend) as ->.
    { rewrite (Hcf Hf). symmetry. exact (Hexact Hm). }
    split_and!; done.
  - split_and!; done.
Qed.

Lemma interpolated_color_in_segment_witness :
  ∃ c,
    interpolate_color 2 ERROR_COLOR_STOPS = Some c
    ∧ red c = channel 0 255 ((2 - 1) / (3 - 1))
    ∧ green c = channel 255 255 ((2 - 1) / (3 - 1))
    ∧ blue c = channel 0 0 ((2 - 1) / (3 - 1))
    ∧ color_between {| red := 0; green := 255; blue := 0 |}
                    {| red := 255; green := 255; blue := 0 |} c
    ∧ (2 = 1 → c = {| red := 0; green := 255; blue := 0 |}).
Proof.
  apply (interpolated_color_in_segment 2
           [(0, {| red := 0; green := 0; blue := 255 |})]
           1 {| red := 0; green := 255; blue := 0 |}
           3 {| red := 255; green := 255; blue := 0 |}
           [(6, {| red := 255; green := 0; blue := 0 |});
            (10, {| red := 255; green := 0; blue := 255 |})]).
  - simpl. repeat (constructor; [|repeat (constructor; [lra|]); constructor]).
    constructor.
  - lra.
Defined.

(** Half-way between green and yellow: (127, 255, 0). *)
Example color_at_two :
  interpolate_color 2 ERROR_COLOR_STOPS
  = Some {| red := 127; green := 255; blue := 0 |}.
Proof.
  unfold interpolate_color. simpl.
  destruct (Rle_dec 2 0); [lra|]. destruct (Rle_dec 10 2); [lra|].
  destruct (Rle_dec 0 2); [|lra]. destruct (Rlt_dec 2 1); [lra|].
  destruct (Rle_dec 1 2); [|lra]. destruct (Rlt_dec 2 3); [|lra].
  simpl. f_equal.
  assert (∀ a b z, (0 ≤ z)%Z →
            IZR z <= IZR a + (IZR b - IZR a) * ((2 - 1) / (3 - 1)) < IZR z + 1 →
            channel a b ((2 - 1) / (3 - 1)) = z) as Hch.
  { intros a b z Hz%IZR_le [Hl Hu]. unfold channel, py_int.
    destruct (Rle_dec 0 _) as [_|Hneg].
    - symmetry. apply Int_part_spec. lra.
    - destruct Hneg. lra. }
  rewrite (Hch 0 255 127)%Z, (Hch 255 255 255)%Z, (Hch 0 0 0)%Z; try lia; try lra.
  done.
Qed.

End Interpolation.
End ErrorColorFacts.

(** ** Project files *)

Module ProjectFileFacts.
Import MarkerWidget ProjectFile.
Local Open Scope string_scope.

(** *** Decimal notation *)



(** *** Writing *)

Section Writing.
Context {A : Type}.
Implicit Types (value : A → Json) (items : list (Z * A)).







End Writing.


(** *** Reading *)

Section Reading.
Variable int_of_str : string → option Z.
Variable strip : string → string.
Variable QPointF_of : Json → Json → PyCall QPointF.
Variable preload_thumbnails : list Json → option string.
Implicit Types (names : gmap Z string) (st : PointLoad)
  (entry : string * Json) (entries : list (string * Json)).








End Reading.

(** The sample project, saved and opened again: both sets are there, empty;
    the counter, 7 before, is 4; no set is active; the name is kept, and of
    the dimensions the pair that is positive. *)
Example sample_project_reloaded :
  let loaded :=
    load_data sample_int_of_str sample_strip sample_QPointF_of sample_preload
      (data_to_save sample_project) sample_project in
  loaded.2 = Loaded
  ∧ image_paths loaded.1 = [JStr "a.jpg"; JStr "b.jpg"]
  ∧ point_data loaded.1 = {[ 0%Z := ∅; 3%Z := ∅ ]}
  ∧ next_point_set_id loaded.1 = 4%Z
  ∧ active_point_set_index loaded.1 = (-1)%Z
  ∧ point_set_names loaded.1 = {[ 0%Z := "corner" ]}
  ∧ image_dimensions loaded.1 = {[ 0%Z := (1920, 1080)%Z ]}.
Proof. cbv zeta. split_and!; vm_compute; reflexivity. Qed.

End ProjectFileFacts.

(** ** The id of a deleted track *)

Module TrackIdFacts.
Import MarkerWidget PointHandling.

Section Handlers.
Implicit Types (w : Window) (e : Event) (events : list Event) (t : Z)
  (s : Store.State).

Lemma delete_point_observation_keeps marker reply s :
  Store.next_point_set_id (Store.delete_point_observation marker reply s).1
  = Store.next_point_set_id s
  ∧ ∀ t, is_Some (Store.point_data
                    (Store.delete_point_observation marker reply s).1 !! t) →
         is_Some (Store.point_data s !! t).
Proof.
  unfold Store.delete_point_observation.
  destruct (Store.point_data s !! marker_set marker) as [obs|] eqn:Hobs; [|done].
  destruct (Store.find_marker obs marker); [|done].
  destruct reply; [|done].
  destruct (decide (size _ = 0)); simpl; (split; [done|]); intros t.
  - rewrite delete_insert_eq.
    destruct (decide (marker_set marker = t)) as [<-|Hne].
    + rewrite lookup_delete_eq. by intros [].
    + by rewrite lookup_delete_ne.
  - destruct (decide (marker_set marker = t)) as [<-|Hne].
    + intros _. by eexists.
    + by rewrite lookup_insert_ne.
Qed.

Lemma finalize_marker_move_keeps marker final_pos s :
  Store.next_point_set_id (Store.finalize_marker_move marker final_pos s).1
  = Store.next_point_set_id s
  ∧ ∀ t, is_Some (Store.point_data
                    (Store.finalize_marker_move marker final_pos s).1 !! t) →
         is_Some (Store.point_data s !! t).
Proof.
  unfold Store.finalize_marker_move.
  destruct (Store.point_data s !! marker_set marker) as [obs|] eqn:Hobs;
    simpl; [|done].
  destruct (Store.find_marker obs marker); simpl; [|done].
  split; [done|]. intros t.
  destruct (decide (marker_set marker = t)) as [<-|Hne].
  - intros _. by eexists.
  - by rewrite lookup_insert_ne.
Qed.

(** A handler takes an id exactly when it calls [create_new_point_set], and
    never adds a set to the store. *)
Lemma handle_counter_keys w e :
  Store.next_point_set_id (store (handle w e))
  = (Store.next_point_set_id (store w) + if calls_create w e then 1 else 0)%Z
  ∧ ∀ t, is_Some (Store.point_data (store (handle w e)) !! t) →
         is_Some (Store.point_data (store w) !! t).
Proof.
  destruct e as [add_tool ci inside c|dt m r|m c|row]; cbn [handle].
  - rewrite PointHandlingFacts.handle_scene_click_cases.
    destruct add_tool; cbn [negb calls_create]; [|split; [simpl; lia|done]].
    destruct ci as [i|]; [|split; [simpl; lia|done]].
    destruct inside; cbn [negb]; [|split; [simpl; lia|done]].
    rewrite PointHandlingFacts.create_new_point_set_raises.
    destruct (decide (Store.active_point_set_index (store w) = (-1)%Z ∨ _))
      as [Hc|Hc].
    + rewrite bool_decide_eq_true_2 by done. simpl. done.
    + rewrite bool_decide_eq_false_2 by done.
      destruct (decide (is_Some _)); simpl; (split; [lia|done]).
  - unfold Store.handle_marker_action. destruct dt; [|split; [simpl; lia|done]].
    destruct (delete_point_observation_keeps m r (store w)) as [Hc Hk].
    destruct (Store.delete_point_observation m r (store w)) as [s' o].
    simpl in *. split; [lia|done].
  - destruct (finalize_marker_move_keeps m c (store w)) as [Hc Hk].
    simpl. split; [lia|done].
  - unfold Store.on_point_set_selection_changed.
    destruct (decide _); simpl; (split; [lia|done]).
Qed.

Lemma handlers_counter w events more :
  (Store.next_point_set_id (store (foldl handle w events))
   ≤ Store.next_point_set_id (store (foldl handle w (events ++ more))))%Z.
Proof.
  rewrite foldl_app. generalize (foldl handle w events) as w0. intros w0.
  revert w0. induction more as [|e more IH]; intros w0; simpl; [lia|].
  destruct (handle_counter_keys w0 e) as [Hc _].
  etrans; [|apply IH]. rewrite Hc. destruct (calls_create w0 e); lia.
Qed.

Lemma new_set_ids_ge w events t :
  t ∈ new_set_ids w events → (Store.next_point_set_id (store w) ≤ t)%Z.
Proof.
  revert w. induction events as [|e events IH]; intros w; simpl.
  { by intros ?%elem_of_nil. }
  destruct (handle_counter_keys w e) as [Hc _].
  intros [Hin|Hin]%elem_of_app.
  - destruct (calls_create w e); [|by apply elem_of_nil in Hin].
    apply list_elem_of_singleton in Hin. lia.
  - apply IH in Hin. rewrite Hc in Hin. destruct (calls_create w e); lia.
Qed.

Lemma handlers_absent w events t :
  Store.point_data (store w) !! t = None →
  Store.point_data (store (foldl handle w events)) !! t = None.
Proof.
  revert w. induction events as [|e events IH]; intros w Hnone; [done|].
  simpl. apply IH. apply eq_None_not_Some.
  intros Hs. destruct (handle_counter_keys w e) as [_ Hk].
  apply Hk in Hs. rewrite Hnone in Hs. by destruct Hs.
Qed.

(** C9 (as amended). Removing the last observation of a track deletes
    the track itself and leaves the other tracks and the id counter as they
    were.  Whatever the user does afterwards in the window (clicks on the
    scene, clicks on markers, marker drags, selections), the counter never
    decreases and stays above the id of the deleted track, so that no id
    taken for a set to create is that id; the id names no set; and an
    attempt to add an observation to it returns with the non-existent-set
    message and leaves the window unchanged. *)
Theorem last_observation_deletes_track s t i c mk :
  Store.ids_below_counter s →
  Store.point_data s !! t = Some {[ i := (c, mk) ]} →
  marker_set mk = t →
  ∃ s',
    Store.delete_point_observation mk true s = (s', Store.Done)
    ∧ Store.point_data s' !! t = None
    ∧ (∀ t', t' ≠ t → Store.point_data s' !! t' = Store.point_data s !! t')
    ∧ Store.next_point_set_id s' = Store.next_point_set_id s
    ∧ ∀ names events,
        let w := {| store := s'; point_set_names := names |} in
        (Store.next_point_set_id s
         ≤ Store.next_point_set_id (store (foldl handle w events)))%Z
        ∧ (∀ more,
             (Store.next_point_set_id (store (foldl handle w events))
              ≤ Store.next_point_set_id
                  (store (foldl handle w (events ++ more))))%Z)
        ∧ (t < Store.next_point_set_id (store (foldl handle w events)))%Z
        ∧ (t ∉ new_set_ids w events)
        ∧ Store.point_data (store (foldl handle w events)) !! t = None
        ∧ ∀ j d,
            add_point_to_set t j d (foldl handle w events)
            = (foldl handle w events, Return Store.NonExistentSet).
Proof.
  intros Hids Hobs Hmk.
  assert (t < Store.next_point_set_id s)%Z as Hlt by (apply Hids; by eexists).
  eexists. split; [by apply (StoreFacts.delete_last_observation s t i c mk)|].
  simpl. split_and!.
  - apply lookup_delete_eq.
  - intros t' Hne. by rewrite lookup_delete_ne.
  - done.
  - intros names events.
    match goal with |- context [foldl handle ?w0 events] => set (w := w0) end.
    assert (Store.point_data (store (foldl handle w events)) !! t = None) as Habs.
    { apply handlers_absent. simpl. apply lookup_delete_eq. }
    cbv zeta. split_and!.
    + apply (handlers_counter w [] events).
    + intros more. apply handlers_counter.
    + pose proof (handlers_counter w [] events) as Hge. simpl in Hge. lia.
    + intros Hin%new_set_ids_ge. simpl in Hin. lia.
    + done.
    + intros j d. rewrite PointHandlingFacts.add_point_to_set_cases.
      by rewrite Habs.
Qed.

Lemma last_observation_deletes_track_witness :
  ∃ s',
    Store.delete_point_observation {| marker_uid := 2; marker_set := 1 |} true
      Store.sample_state = (s', Store.Done)
    ∧ Store.point_data s' !! 1%Z = None
    ∧ (∀ t', t' ≠ 1%Z →
         Store.point_data s' !! t' = Store.point_data Store.sample_state !! t')
    ∧ Store.next_point_set_id s' = Store.next_point_set_id Store.sample_state
    ∧ ∀ names events,
        let w := {| store := s'; point_set_names := names |} in
        (Store.next_point_set_id Store.sample_state
         ≤ Store.next_point_set_id (store (foldl handle w events)))%Z
        ∧ (∀ more,
             (Store.next_point_set_id (store (foldl handle w events))
              ≤ Store.next_point_set_id
                  (store (foldl handle w (events ++ more))))%Z)
        ∧ (1 < Store.next_point_set_id (store (foldl handle w events)))%Z
        ∧ (1%Z ∉ new_set_ids w events)
        ∧ Store.point_data (store (foldl handle w events)) !! 1%Z = None
        ∧ ∀ j d,
            add_point_to_set 1 j d (foldl handle w events)
            = (foldl handle w events, Return Store.NonExistentSet).
Proof.
  apply (last_observation_deletes_track Store.sample_state 1 1
           {| qx := 12; qy := 22 |} {| marker_uid := 2; marker_set := 1 |}).
  - apply (Store.wf_ids _ StoreSessionFacts.sample_state_well_formed).
  - reflexivity.
  - reflexivity.
Defined.

End Handlers.

Section Reopen.
Import ProjectFile.
Local Open Scope string_scope.

(** C9 as stated fails once a project file is opened.  In the sample
    store, set 1 has a single observation and the counter is 2; after that
    observation is deleted the counter is still 2.  (1) The project is saved
    and opened again: the counter is 1, below its value before, no set is
    active and nothing is stored under the id 1; the next click that creates
    a set takes the id 1, the id of the deleted track.  (2) The file saved
    before the deletion is opened instead: a set is stored under the id 1
    again. *)
Lemma deleted_id_taken_again_after_load :
  let mk := {| marker_uid := 2; marker_set := 1 |} in
  let deleted := Store.delete_point_observation mk true Store.sample_state in
  let w := {| store := deleted.1; PointHandling.point_set_names := ∅ |} in
  let saved := data_to_save (project_of [JStr "a.jpg"; JStr "b.jpg"] ∅ w) in
  let loaded :=
    load_data sample_int_of_str sample_strip sample_QPointF_of sample_preload
      saved (project_of [JStr "a.jpg"; JStr "b.jpg"] ∅ w) in
  let saved_before :=
    data_to_save
      (project_of [JStr "a.jpg"; JStr "b.jpg"] ∅
         {| store := Store.sample_state; PointHandling.point_set_names := ∅ |}) in
  let loaded_before :=
    load_data sample_int_of_str sample_strip sample_QPointF_of sample_preload
      saved_before (project_of [JStr "a.jpg"; JStr "b.jpg"] ∅ w) in
  Store.point_data Store.sample_state !! 1%Z
    = Some {[ 1%nat := ({| qx := 12; qy := 22 |}, mk) ]}
  ∧ Store.next_point_set_id Store.sample_state = 2%Z
  ∧ deleted.2 = Store.Done
  ∧ Store.point_data deleted.1 !! 1%Z = None
  ∧ Store.next_point_set_id deleted.1 = 2%Z
  ∧ write_points_to_file (λ _, true) (project_of [JStr "a.jpg"; JStr "b.jpg"] ∅ w)
    = Saved saved
  ∧ loaded.2 = Loaded
  ∧ next_point_set_id loaded.1 = 1%Z
  ∧ active_point_set_index loaded.1 = (-1)%Z
  ∧ point_data loaded.1 !! 1%Z = None
  ∧ (∀ w' c,
       Store.next_point_set_id (store w') = next_point_set_id loaded.1 →
       Store.active_point_set_index (store w')
       = active_point_set_index loaded.1 →
       new_set_ids w' [SceneClick true (Some 0%nat) true c] = [1%Z])
  ∧ loaded_before.2 = Loaded
  ∧ point_data loaded_before.1 !! 1%Z = Some ∅.
Proof.
  cbv zeta. split_and!.
  - reflexivity.
  - reflexivity.
  - vm_compute. reflexivity.
  - vm_compute. reflexivity.
  - vm_compute. reflexivity.
  - vm_compute. reflexivity.
  - vm_compute. reflexivity.
  - vm_compute. reflexivity.
  - vm_compute. reflexivity.
  - vm_compute. reflexivity.
  - intros w' c Hc Ha. simpl.
    rewrite bool_decide_eq_true_2 by (left; rewrite Ha; vm_compute; reflexivity).
    rewrite Hc. reflexivity.
  - vm_compute. reflexivity.
  - vm_compute. reflexivity.
Qed.

End Reopen.
End TrackIdFacts.
